(** * AudioLab: the ensemble source-separation pipeline

    A shallow embedding of the algorithmic core of
    [modules/audio_separator/audio_separator_nu.py]: Python slicing and
    NumPy array primitives, the circular-shift ensemblers
    ([demix_wrapper], [demix_full_mdx23c], [demix_full_vitlarge]), the
    windowed chunk processor ([demix]), the stem arithmetic of
    [separate_music_file] and the batch entry point [predict_with_model];
    further the chunkers of the two other vocal networks
    ([demix_base_mdxv3], [demix_vitlarge]), [match_array_shapes], the
    polarity-averaged estimates and the stem merge of
    [separate_music_file], and the settings that [__init__] stores.

    Python integers are [Z].  Audio samples are real numbers (exact
    arithmetic, no rounding); a sample that NumPy would hold as NaN or
    as an infinity is [None] in the type [Fl].  A 2-D array is a list of
    rows.  Element-wise operations pair the rows and the samples of
    their operands and stop at the shorter one, where NumPy raises on
    operands of different shapes: the statements below that depend on
    shapes take them equal.  The networks, torch's transforms and
    SciPy's filter are parameters.  The calls of the batch entry point
    to the file system and the libraries are parameters that say
    whether the call returns or raises. *)

From Stdlib Require Import Reals Psatz ZArith QArith Qround Sorted.
From stdpp Require Import base list gmap strings.

#[local] Open Scope Z_scope.

(** ** Python and NumPy primitives *)

Module Py.

(** An index of a slice bound on a sequence of length [n]: a negative
    bound counts from the end, and both are clamped to [0, n]. *)
Definition index (n i : Z) : Z :=
  if i <? 0 then Z.max (n + i) 0 else Z.min i n.

(** [l[lo:hi]] with unit step; [None] is an omitted bound. *)
Definition slice {A} (l : list A) (lo hi : option Z) : list A :=
  let n := Z.of_nat (length l) in
  let a := from_option (index n) 0 lo in
  let b := from_option (index n) n hi in
  take (Z.to_nat (b - a)) (drop (Z.to_nat a) l).

(** [range(start, stop, step)]; a zero step raises [ValueError]. *)
Definition range (start stop step : Z) : option (list Z) :=
  if step =? 0 then None
  else
    let count :=
      if 0 <? step then (stop - start + step - 1) / step
      else (start - stop - step - 1) / (- step) in
    Some (map (λ k, start + k * step) (seqZ 0 count)).

(** [int(q)]: truncation towards zero. *)
Definition int (q : Q) : Z :=
  if Qle_bool 0 q then Qfloor q else Qceiling q.

End Py.

(** A float sample: [Some v] is the finite value [v], [None] is NaN or
    an infinity.  Scaling by a finite constant, adding and dividing by a
    positive count all keep a non-finite sample non-finite. *)
Definition Fl : Type := option R.

Definition fl_scale (c : R) (x : Fl) : Fl := (λ v, (v * c)%R) <$> x.

Definition fl_add (x y : Fl) : Fl :=
  match x, y with
  | Some a, Some b => Some (a + b)%R
  | _, _ => None
  end.

Definition fl_div_count (n : Z) (x : Fl) : Fl := (λ v, (v / IZR n)%R) <$> x.

(** [x / y] on finite operands: a zero divisor gives NaN or an
    infinity. *)
Definition fl_div (x y : R) : Fl :=
  if Req_dec_T y 0 then None else Some (x / y)%R.

Module Np.

(** Element-wise maps over 2-D arrays. *)
Definition map1 {A B} (f : A → B) (a : list (list A)) : list (list B) :=
  map (map f) a.

Definition map2 {A B C} (f : A → B → C) (a : list (list A)) (b : list (list B))
  : list (list C) :=
  zip_with (zip_with f) a b.

(** The shape of an array, as the list of its row lengths. *)
Definition shape {A} (a : list (list A)) : list nat := map length a.

(** [a.shape[1]] of a 2-D array with at least one row. *)
Definition shape1 {A} (a : list (list A)) : Z :=
  match a with
  | r :: _ => Z.of_nat (length r)
  | [] => 0
  end.

(** [a[..., lo:hi]]: the slice is taken along the last axis. *)
Definition cols {A} (a : list (list A)) (lo hi : option Z) : list (list A) :=
  map (λ r, Py.slice r lo hi) a.

(** [np.concatenate((a, b), axis=-1)]. *)
Definition concatenate {A} (a b : list (list A)) : list (list A) :=
  zip_with app a b.

(** [np.mean(results, axis=0)] over a list of float arrays.  NumPy
    refuses arrays of different shapes, and the mean of no array is not
    an array. *)
Definition mean (results : list (list (list Fl))) : option (list (list Fl)) :=
  match results with
  | [] => None
  | r :: rest =>
      if forallb (λ r', bool_decide (shape r' = shape r)) rest
      then Some (map1 (fl_div_count (Z.of_nat (length results)))
                      (foldl (map2 fl_add) r rest))
      else None
  end.

End Np.

(** ** The circular-shift ensemblers *)

(** [shifts] as the three ensemblers compute it: a configured count of
    at most 0 stands for 1. *)
Definition shifts {A} (mix : list (list A)) (bigshifts : Z) : list Z :=
  let bigshifts := if bigshifts <=? 0 then 1 else bigshifts in
  let shift_in_samples := Np.shape1 mix / bigshifts in
  map (λ x, x * shift_in_samples) (seqZ 0 bigshifts).

(** [np.concatenate((mix[:, -shift:], mix[:, :-shift]), axis=-1)] *)
Definition shifted_mix {A} (shift : Z) (mix : list (list A)) : list (list A) :=
  Np.concatenate (Np.cols mix (Some (- shift)) None)
                 (Np.cols mix None (Some (- shift))).

(** [np.concatenate((sources[..., shift:], sources[..., :shift]), axis=-1)] *)
Definition restored_sources {A} (shift : Z) (sources : list (list A))
  : list (list A) :=
  Np.concatenate (Np.cols sources (Some shift) None)
                 (Np.cols sources None (Some shift)).

Section Ensemblers.

(** The inner transforms are opaque here: [demix] is the windowed
    chunk processor (embedded below and passed in by its callers);
    [demix_base_mdxv3] and [demix_vitlarge] run a network and return
    a dictionary from instrument names to arrays. *)
Variable demix : list (list R) → Q → option (list (list Fl)).
Variable demix_base_mdxv3 : list (list R) → gmap string (list (list Fl)).
Variable demix_vitlarge : list (list R) → gmap string (list (list Fl)).

Definition demix_wrapper (mix : list (list R)) (overlap : Q) (bigshifts : Z)
  : option (list (list Fl)) :=
  results ← mapM (λ shift,
               sources ← demix (shifted_mix shift mix) overlap;
               let sources := Np.map1 (fl_scale 1.021) sources in
               Some (restored_sources shift sources))
             (shifts mix bigshifts);
  Np.mean results.

(** [big_shifts] is [options["BigShifts"]]. *)
Definition demix_full_mdx23c (big_shifts : Z) (mix : list (list R))
  : option (list (list Fl)) :=
  results ← mapM (λ shift,
               sources ← demix_base_mdxv3 (shifted_mix shift mix) !! "Vocals"%string;
               let sources := Np.map1 (fl_scale 1.0005168) sources in
               Some (restored_sources shift sources))
             (shifts mix big_shifts);
  Np.mean results.

Definition demix_full_vitlarge (big_shifts : Z) (mix : list (list R))
  : option (list (list Fl) * list (list Fl)) :=
  results ← mapM (λ shift,
               let sources := demix_vitlarge (shifted_mix shift mix) in
               vocals ← sources !! "vocals"%string;
               let sources1 := Np.map1 (fl_scale 1.002) vocals in
               sources2 ← sources !! "other"%string;
               Some (restored_sources shift sources1,
                     restored_sources shift sources2))
             (shifts mix big_shifts);
  sources1 ← Np.mean (results.*1);
  sources2 ← Np.mean (results.*2);
  Some (sources1, sources2).

End Ensemblers.

(** ** The windowed chunk processor *)

(** [Conv_TDF_net_trim_model]: the fields set by [__init__] that the
    chunk processor reads. *)
Record Conv_TDF_net_trim_model : Type := {
  dim_c : Z;
  dim_f : Z;
  dim_t : Z;
  n_fft : Z;
  hop : Z
}.

Definition n_bins (m : Conv_TDF_net_trim_model) : Z := n_fft m / 2 + 1.
Definition chunk_size (m : Conv_TDF_net_trim_model) : Z := hop m * (dim_t m - 1).

(** The locals [trim], [gen_size] and [pad] of [demix], the last for an
    input of [n] samples. *)
Definition trim (m : Conv_TDF_net_trim_model) : Z := n_fft m / 2.
Definition gen_size (m : Conv_TDF_net_trim_model) : Z := chunk_size m - 2 * trim m.
Definition pad (m : Conv_TDF_net_trim_model) (n : Z) : Z :=
  gen_size m + trim m - n `mod` gen_size m.

Definition get_models (vocals_model_type : Z) : list Conv_TDF_net_trim_model :=
  if vocals_model_type =? 2
  then [ {| dim_c := 4; dim_f := 3072; dim_t := 256; n_fft := 7680; hop := 1024 |} ]
  else [ {| dim_c := 4; dim_f := 3072; dim_t := 256; n_fft := 6144; hop := 1024 |} ].

(** [np.hanning(M)], as NumPy defines it: empty below 1, [1.] at 1,
    otherwise [0.5 + 0.5*cos(pi*n/(M-1))] for [n = 1-M, 3-M, ..., M-1]. *)
Definition hanning_at (M k : Z) : R :=
  (0.5 + 0.5 * cos (PI * IZR (1 - M + 2 * k) / IZR (M - 1)))%R.

Definition hanning (M : Z) : list R :=
  if M <? 1 then []
  else if M =? 1 then [1%R]
  else map (hanning_at M) (seqZ 0 M).

(** [row[start:stop] += w] for [0 <= start <= stop <= len(row)] and [w]
    of length [stop - start]. *)
Definition slice_add (row : list R) (start stop : Z) (w : list R) : list R :=
  take (Z.to_nat start) row
  ++ zip_with Rplus (Py.slice row (Some start) (Some stop)) w
  ++ drop (Z.to_nat stop) row.

(** [row[:n] *= w] *)
Definition prefix_mul (row : list R) (n : Z) (w : list R) : list R :=
  zip_with Rmult (Py.slice row None (Some n)) w ++ Py.slice row (Some n) None.

(** [stft_res[:, :, :3, :] *= 0] on the spectrum of one chunk, an array
    indexed by channel, frequency bin and frame (the batch axis, of
    length 1, is left out throughout). *)
Definition zero_low_bins (stft_res : list (list (list R))) : list (list (list R)) :=
  map (λ chan, Np.map1 (λ v, (v * 0)%R) (Py.slice chan None (Some 3))
               ++ Py.slice chan (Some 3) None) stft_res.

Section Demix.

(** The transforms of the backend: the model's [stft] and [istft]
    methods (torch's transforms) and the ONNX session's [run]. *)
Variable stft : list (list R) → list (list (list R)).
Variable run : list (list (list R)) → list (list (list R)).
Variable istft : list (list (list R)) → list (list R).

(** The spectrum handed to the session, the one handed to the inverse
    transform, and the chunk it yields. *)
Definition stft_res (mix_wave : list (list R)) : list (list (list R)) :=
  zero_low_bins (stft mix_wave).

Definition res (mix_wave : list (list R)) : list (list (list R)) :=
  run (stft_res mix_wave).

Definition tar_waves (mix_wave : list (list R)) : list (list R) :=
  istft (res mix_wave).

(** One iteration of the chunk loop on the accumulators
    [(result, divider)].  The model's [istft] reshapes what it returns
    to the two rows and the [chunk_size] samples of the chunk; with a
    parameter [istft] that returns another shape NumPy would broadcast
    or raise, which the pairing of rows below does not follow: the
    statements about chunks that pass through the backend take its
    shape as a hypothesis. *)
Definition demix_chunk (chunk_size : Z) (overlap : Q) (mixture : list (list R))
    (acc : list (list R) * list (list R)) (i : Z)
  : list (list R) * list (list R) :=
  let '(result, divider) := acc in
  let start := i in
  let end_ := Z.min (i + chunk_size) (Np.shape1 mixture) in
  let chunk_size_actual := end_ - start in
  let window :=
    if Qeq_bool overlap 0 then None else Some (hanning chunk_size_actual) in
  let mix_part_ := Np.cols mixture (Some start) (Some end_) in
  let mix_part_ :=
    if end_ =? i + chunk_size then mix_part_
    else
      let pad_size := (i + chunk_size) - end_ in
      Np.concatenate mix_part_ (replicate 2 (replicate (Z.to_nat pad_size) 0%R)) in
  let tar_waves := tar_waves mix_part_ in
  match window with
  | Some window =>
      let tar_waves := map (λ row, prefix_mul row chunk_size_actual window) tar_waves in
      let divider := map (λ row, slice_add row start end_ window) divider in
      (zip_with (λ row t, slice_add row start end_
                            (Py.slice t None (Some (end_ - start))))
                result tar_waves,
       divider)
  | None =>
      let divider :=
        map (λ row, slice_add row start end_
                      (replicate (Z.to_nat (end_ - start)) 1%R)) divider in
      (zip_with (λ row t, slice_add row start end_
                            (Py.slice t None (Some (end_ - start))))
                result tar_waves,
       divider)
  end.

(** [mixture]: the input between [trim] leading and [pad] trailing
    zeros.  A zero [gen_size] raises on the modulo, a negative size
    raises in [np.zeros]. *)
Definition mixture (m : Conv_TDF_net_trim_model) (mix : list (list R))
  : option (list (list R)) :=
  if gen_size m =? 0 then None
  else
    let pad := pad m (Np.shape1 mix) in
    if (trim m <? 0) || (pad <? 0) then None
    else Some (Np.concatenate
                 (Np.concatenate (replicate 2 (replicate (Z.to_nat (trim m)) 0%R)) mix)
                 (replicate 2 (replicate (Z.to_nat pad) 0%R))).

(** [step = int((1 - overlap) * chunk_size)], with the overlap a
    rational number and the product exact.  The code forms the product
    in double arithmetic, rounding after the subtraction and after the
    multiplication, so where the exact product lies within a rounding
    error of an integer its stride can differ from this one by one
    sample.  The statements about [demix] are made at overlaps where
    this cannot change what they conclude. *)
Definition step (m : Conv_TDF_net_trim_model) (overlap : Q) : Z :=
  Py.int ((1 - overlap) * inject_Z (chunk_size m))%Q.

(** The accumulators [(result, divider)] after the chunk loop. *)
Definition demix_loop (mix : list (list R)) (models : list Conv_TDF_net_trim_model)
    (overlap : Q) : option (list (list R) * list (list R)) :=
  m ← head models;
  mixture ← mixture m mix;
  let zeros := replicate 2 (replicate (Z.to_nat (Np.shape1 mixture)) 0%R) in
  starts ← Py.range 0 (Np.shape1 mixture) (step m overlap);
  Some (foldl (demix_chunk (chunk_size m) overlap mixture) (zeros, zeros) starts).

Definition demix (mix : list (list R)) (models : list Conv_TDF_net_trim_model)
    (overlap : Q) : option (list (list Fl)) :=
  m ← head models;
  '(result, divider) ← demix_loop mix models overlap;
  let tar_waves := Np.map2 fl_div result divider in
  let tar_waves := Np.cols tar_waves (Some (trim m)) (Some (- trim m)) in
  Some (Np.cols tar_waves None (Some (Np.shape1 mix))).

End Demix.

(** A synthetic backend whose chunk transform is the identity, to run
    the chunk processor on: the transform stores the rows of the chunk
    as bins 3 and up of a single channel whose three low bins are
    empty, the session returns its input, and the inverse transform
    reads the rows back. *)
Definition synthetic_stft (x : list (list R)) : list (list (list R)) :=
  [[] :: [] :: [] :: x].

Definition synthetic_run (s : list (list (list R))) : list (list (list R)) := s.

Definition synthetic_istft (s : list (list (list R))) : list (list R) :=
  match s with
  | [chan] => drop 3 chan
  | _ => []
  end.

(** Position [p] of the padded mixture is covered by a chunk: it lies in
    the chunk that starts at some [i] of [starts]. *)
Definition covered (chunk_size L : Z) (starts : list Z) (p : Z) : Prop :=
  ∃ i, i ∈ starts ∧ i ≤ p < Z.min (i + chunk_size) L.

(** ** Stem arithmetic of [separate_music_file] *)

Module Arr.

(** Arithmetic on arrays of finite samples, element by element. *)
Definition add (a b : list (list R)) : list (list R) := Np.map2 Rplus a b.
Definition sub (a b : list (list R)) : list (list R) := Np.map2 Rminus a b.
Definition scale (c : R) (a : list (list R)) : list (list R) := Np.map1 (Rmult c) a.
Definition div (a : list (list R)) (c : R) : list (list R) :=
  Np.map1 (λ x, (x / c)%R) a.

(** [np.clip(a, a_min, a_max)] *)
Definition clip (a : list (list R)) (a_min a_max : R) : list (list R) :=
  Np.map1 (λ x, Rmin (Rmax x a_min) a_max) a.

(** [a.T] of a 2-D array. *)
Fixpoint T (a : list (list R)) : list (list R) :=
  match a with
  | [] => []
  | [r] => map (λ x, [x]) r
  | r :: rest => zip_with cons r (T rest)
  end.

(** [w.sum()] of a weight vector. *)
Definition sum (w : list R) : R := foldr Rplus 0%R w.

(** The sample of [a] at row [i] and column [j]. *)
Definition at2 {A} (a : list (list A)) (i j : nat) : option A :=
  a !! i ≫= (.!! j).

End Arr.

Declare Scope arr_scope.
Delimit Scope arr_scope with arr.
Infix "+" := Arr.add : arr_scope.
Infix "-" := Arr.sub : arr_scope.
Infix "*" := Arr.scale : arr_scope.
Infix "/" := Arr.div : arr_scope.

Section Stems.

(** The low-band weighted average of the vocal estimates, without the
    ONNX backend and with it (the argument of the low-pass filter). *)
Definition weighted_vocals2 (weight_InstVoc weight_VitLarge : R)
    (vocals3 vocals4 : list (list R)) : list (list R) :=
  let weights := [weight_InstVoc; weight_VitLarge] in
  ((weight_InstVoc * Arr.T vocals3 + weight_VitLarge * Arr.T vocals4)
   / Arr.sum weights)%arr.

Definition weighted_vocals3 (weight_VOCFT weight_InstVoc weight_VitLarge : R)
    (vocals_mdxb1 vocals3 vocals4 : list (list R)) : list (list R) :=
  let weights := [weight_VOCFT; weight_InstVoc; weight_VitLarge] in
  ((weight_VOCFT * Arr.T vocals_mdxb1 + weight_InstVoc * Arr.T vocals3
    + weight_VitLarge * Arr.T vocals4)
   / Arr.sum weights)%arr.

(** SciPy's zero-phase Linkwitz-Riley filter stays opaque. *)
Variable lr_filter : list (list R) → Z → string → list (list R).

(** The vocals weighted multiband ensemble. *)
Definition vocals_ensemble (use_VOCFT : bool)
    (weight_VOCFT weight_InstVoc weight_VitLarge : R)
    (vocals_mdxb1 vocals3 vocals4 : list (list R)) : list (list R) :=
  let blend :=
    if use_VOCFT
    then weighted_vocals3 weight_VOCFT weight_InstVoc weight_VitLarge
           vocals_mdxb1 vocals3 vocals4
    else weighted_vocals2 weight_InstVoc weight_VitLarge vocals3 vocals4 in
  let vocals_low := (1.01055 * lr_filter blend 10000 "lowpass")%arr in
  let vocals_high := lr_filter (Arr.T vocals3) 10000 "highpass" in
  (vocals_low + vocals_high)%arr.

(** The per-model weights of the four stems. *)
Record stem_weights : Type := {
  weights_vocals : list R;
  weights_bass : list R;
  weights_drums : list R;
  weights_other : list R
}.

Definition default_weights : stem_weights := {|
  weights_vocals := [10; 1; 8; 9]%R;
  weights_bass := [19; 4; 5; 8]%R;
  weights_drums := [18; 2; 4; 9]%R;
  weights_other := [14; 2; 5; 10]%R
|}.

(** [out[0] = weights_drums[i] * out[0]] and the three lines after
    it, on the output [out] of model [i] (stems in the order drums,
    bass, other, vocals). *)
Definition weigh (W : stem_weights) (i : nat) (out : list (list (list R)))
  : option (list (list (list R))) :=
  wd ← weights_drums W !! i; o0 ← out !! 0%nat;
  let out := <[0%nat := (wd * o0)%arr]> out in
  wb ← weights_bass W !! i; o1 ← out !! 1%nat;
  let out := <[1%nat := (wb * o1)%arr]> out in
  wo ← weights_other W !! i; o2 ← out !! 2%nat;
  let out := <[2%nat := (wo * o2)%arr]> out in
  wv ← weights_vocals W !! i; o3 ← out !! 3%nat;
  Some (<[3%nat := (wv * o3)%arr]> out).

(** The weighted sum of the four model outputs, normalised stem by
    stem by the sum of that stem's weights. *)
Definition demucs_ensemble (W : stem_weights)
    (out_0 out_1 out_2 out_3 : list (list (list R)))
  : option (list (list (list R))) :=
  a0 ← weigh W 0 out_0;
  a1 ← weigh W 1 out_1;
  a2 ← weigh W 2 out_2;
  a3 ← weigh W 3 out_3;
  let out := foldl (zip_with Arr.add) a0 [a1; a2; a3] in
  o0 ← out !! 0%nat;
  let out := <[0%nat := (o0 / Arr.sum (weights_drums W))%arr]> out in
  o1 ← out !! 1%nat;
  let out := <[1%nat := (o1 / Arr.sum (weights_bass W))%arr]> out in
  o2 ← out !! 2%nat;
  let out := <[2%nat := (o2 / Arr.sum (weights_other W))%arr]> out in
  o3 ← out !! 3%nat;
  Some (<[3%nat := (o3 / Arr.sum (weights_vocals W))%arr]> out).

(** Residual refinement of other, drums and bass against the clipped
    residuals; [separated_music_arrays] is the dictionary being
    filled. *)
Definition residual_refinement (mixed_sound_array vocals : list (list R))
    (out : list (list (list R)))
    (separated_music_arrays : gmap string (list (list R)))
  : option (gmap string (list (list R))) :=
  out0 ← out !! 0%nat; out1 ← out !! 1%nat; out2 ← out !! 2%nat;
  (* other *)
  let res := (mixed_sound_array - vocals - Arr.T out0 - Arr.T out1)%arr in
  let res := Arr.clip res (-1) 1 in
  let separated_music_arrays :=
    <["other"%string := ((2 * res + Arr.T out2) / 3)%arr]> separated_music_arrays in
  (* drums *)
  let res := (mixed_sound_array - vocals - Arr.T out1 - Arr.T out2)%arr in
  let res := Arr.clip res (-1) 1 in
  let separated_music_arrays :=
    <["drums"%string := ((res + 2 * Arr.T out0) / 3)%arr]> separated_music_arrays in
  (* bass *)
  let res := (mixed_sound_array - vocals - Arr.T out0 - Arr.T out2)%arr in
  let res := Arr.clip res (-1) 1 in
  Some (<["bass"%string := ((res + 2 * Arr.T out1) / 3)%arr]> separated_music_arrays).

(** The final correction pass: the three stems are first read into
    the locals [bass], [drums] and [other]; each assignment then
    rebinds one key of the dictionary and leaves the locals as they
    are. *)
Definition final_correction (mixed_sound_array vocals : list (list R))
    (separated_music_arrays : gmap string (list (list R)))
  : option (gmap string (list (list R))) :=
  bass ← separated_music_arrays !! "bass"%string;
  drums ← separated_music_arrays !! "drums"%string;
  other ← separated_music_arrays !! "other"%string;
  let separated_music_arrays :=
    <["other"%string := (mixed_sound_array - vocals - bass - drums)%arr]>
      separated_music_arrays in
  let separated_music_arrays :=
    <["drums"%string := (mixed_sound_array - vocals - bass - other)%arr]>
      separated_music_arrays in
  Some (<["bass"%string := (mixed_sound_array - vocals - drums - other)%arr]>
          separated_music_arrays).

(** [separate_music_file] from the instrumental on, given the vocals
    and the normalised ensemble output [out]; the parallel dictionary
    of sample rates is left out. *)
Definition separate_music_file_stems (vocals_only : bool)
    (mixed_sound_array vocals : list (list R)) (out : list (list (list R)))
  : option (gmap string (list (list R))) :=
  let separated_music_arrays := ∅ in
  let instrum := (mixed_sound_array - vocals)%arr in
  separated_music_arrays ←
    (if vocals_only then Some separated_music_arrays
     else
       residual_refinement mixed_sound_array vocals out separated_music_arrays
       ≫= final_correction mixed_sound_array vocals);
  let separated_music_arrays :=
    <["vocals"%string := vocals]> separated_music_arrays in
  Some (<["instrum"%string := instrum]> separated_music_arrays).

(** The final correction pass as the specification words it: each
    recomputation reads the stems recomputed before it. *)
Definition sequential_correction_spec (mixed_sound_array vocals : list (list R))
    (separated_music_arrays : gmap string (list (list R)))
  : option (gmap string (list (list R))) :=
  bass ← separated_music_arrays !! "bass"%string;
  drums ← separated_music_arrays !! "drums"%string;
  let other := (mixed_sound_array - vocals - bass - drums)%arr in
  let drums := (mixed_sound_array - vocals - bass - other)%arr in
  let bass := (mixed_sound_array - vocals - drums - other)%arr in
  Some (<["bass"%string := bass]>
          (<["drums"%string := drums]>
             (<["other"%string := other]> separated_music_arrays))).

End Stems.

(** ** The batch entry point *)

(** The options that [predict_with_model] reads. *)
Record Options : Type := {
  input_audio : list string;
  output_folder : string;
  vocals_only : bool;
  callback_callable : bool
}.

(** What a run does to the outside world, in order: the calls that
    returned. *)
Inductive event : Type :=
  | Print (msg : string)
  | Callback (step : Z) (desc : string) (total : Z)
  | Makedirs (path : string)
  | LoadModel
  | LoadAudio (path : string)
  | Separate (path : string)
  | WriteFile (path : string).

(** How a piece of the run ends: it returns a value, or an exception
    leaves it.  [predict_with_model] catches nothing, so an exception
    raised by a call ends the whole run. *)
Inductive outcome (A : Type) : Type :=
  | Returns (v : A)
  | Raises.
Arguments Returns {A} v.
Arguments Raises {A}.

(** A piece of the run: the events up to its end, and how it ends. *)
Definition trace (A : Type) : Type := list event * outcome A.

#[global] Instance trace_ret : MRet trace := λ A v, ([], Returns v).

#[global] Instance trace_bind : MBind trace := λ A B f m,
  match m with
  | (ev, Returns v) => let '(ev', r) := f v in (ev ++ ev', r)
  | (ev, Raises) => (ev, Raises)
  end.

(** A call to the outside world: it returns, which is the event [e],
    or it raises. *)
Definition call (returns : bool) (e : event) : trace () :=
  if returns then ([e], Returns ()) else ([], Raises).

(** [model.instruments] *)
Definition instruments (options : Options) : list string :=
  if vocals_only options
  then ["vocals"%string]
  else ["bass"%string; "drums"%string; "other"%string; "vocals"%string].

Section Predict.

(** The file system and the path functions of [os.path]:
    [basename_noext p] is [os.path.splitext(os.path.basename(p))[0]]. *)
Variable isfile : string → bool.
Variable basename_noext : string → string.
Variable path_join : string → string → string.

(** The calls that can raise, each given by whether it returns:
    [os.makedirs] on the output folder, the construction of the model,
    [librosa.load] and [model.separate_music_file] on an input,
    [sf.write] on an output path, and the callback of the options on a
    step, a description and a total. *)
Variable makedirs : string → bool.
Variable load_model : bool.
Variable librosa_load : string → bool.
Variable separate_music_file : string → bool.
Variable sf_write : string → bool.
Variable actual_callback : Z → string → Z → bool.

Definition callback (options : Options) (step : Z) (desc : string) (total : Z)
  : trace () :=
  if callback_callable options
  then call (actual_callback step desc total) (Callback step desc total)
  else mret ().

(** The validation loop: the first path that is not a file is
    reported and ends the call. *)
Fixpoint validate (paths : list string) : option string :=
  match paths with
  | [] => None
  | input_audio :: rest =>
      if isfile input_audio then validate rest else Some input_audio
  end.

Definition out_path (options : Options) (input_audio instrum : string) : string :=
  path_join (output_folder options)
            (basename_noext input_audio +:+ "_" +:+ instrum +:+ ".wav").

(** The writes of one input, in order: [sf.write] for every instrument
    of the model and then for the instrumental. *)
Fixpoint write_files (out_paths : list string) : trace () :=
  match out_paths with
  | [] => mret ()
  | out_path :: rest =>
      _ ← call (sf_write out_path) (WriteFile out_path);
      write_files rest
  end.

(** One iteration of the processing loop: its value is the paths
    appended to [output_files] and the step counter after it. *)
Definition process_file (options : Options) (total_steps current_step : Z)
    (input_audio : string) : trace (list string * Z) :=
  _ ← callback options current_step ("Processing " +:+ input_audio) total_steps;
  _ ← call (librosa_load input_audio) (LoadAudio input_audio);
  let current_step := current_step + 1 in
  _ ← callback options current_step ("Loaded " +:+ input_audio) total_steps;
  _ ← call (separate_music_file input_audio) (Separate input_audio);
  let current_step := current_step + 1 in
  _ ← callback options current_step ("Separated " +:+ input_audio) total_steps;
  let out_paths :=
    map (out_path options input_audio) (instruments options ++ ["instrum"%string]) in
  _ ← write_files out_paths;
  let current_step := current_step + 1 in
  _ ← callback options current_step
        ("Completed processing " +:+ input_audio) total_steps;
  mret (out_paths, current_step).

Fixpoint process_files (options : Options) (total_steps current_step : Z)
    (paths : list string) : trace (list string) :=
  match paths with
  | [] => mret []
  | input_audio :: rest =>
      '(out_paths, current_step) ←
        process_file options total_steps current_step input_audio;
      output_files ← process_files options total_steps current_step rest;
      mret (out_paths ++ output_files)
  end.

(** [predict_with_model]: the events of the call and how it ends.  It
    returns [None] after reporting a missing input, returns
    [output_files] when every call has returned, and raises as soon as
    one of them raises. *)
Definition predict_with_model (options : Options)
  : trace (option (list string)) :=
  let total_steps := Z.of_nat (length (input_audio options)) * 3 in
  match validate (input_audio options) with
  | Some missing =>
      ([Print ("Error. No such file: " +:+ missing +:+ ". Please check path!")],
       Returns None)
  | None =>
      _ ← call (makedirs (output_folder options)) (Makedirs (output_folder options));
      _ ← call load_model LoadModel;
      _ ← callback options 0 "Initializing model" total_steps;
      output_files ← process_files options total_steps 0 (input_audio options);
      _ ← callback options total_steps "All files processed" total_steps;
      mret (Some output_files)
  end.

End Predict.

(** ** The chunkers of the two other vocal networks *)

(** The fields of a model's [config] that the chunkers read:
    [config.audio.hop_length], [config.inference.dim_t],
    [config.training.target_instrument] ([None] in Python is [None]
    here) and [config.training.instruments]. *)
Module Config.
Record t : Type := {
  audio_hop_length : Z;
  inference_dim_t : Z;
  training_target_instrument : option string;
  training_instruments : list string
}.
End Config.

(** [{k: v for k, v in zip(keys, values)}]: a later value replaces an
    earlier one under the same key. *)
Definition dict_of_zip {V} (keys : list string) (values : list V) : gmap string V :=
  foldl (λ d kv, <[kv.1 := kv.2]> d) ∅ (zip keys values).

Section MDXv3.

(** The network, on one chunk: one array per target instrument; a
    network with a single target returns the array alone, held here
    as a list of one.  [num_target_instruments] is the model's
    attribute of that name. *)
Variable model : list (list R) → list (list (list R)).
Variable config : Config.t.
Variable num_target_instruments : Z.

(** [xx[..., cnt * H: cnt * H + C] += w] *)
Definition mdx_add (C H : Z) (xx : list (list (list R))) (cnt : Z)
    (w : list (list (list R))) : list (list (list R)) :=
  zip_with (zip_with (λ row wr, slice_add row (cnt * H) (cnt * H + C) wr)) xx w.

(** [demix_base_mdxv3]: the value is a dictionary when the model has
    several targets and the array itself otherwise.  [None] stands for
    an exception: a division by zero, a negative size given to
    [torch.zeros], or a window that [unfold] refuses (longer than the
    padded mix, or with a stride that is not positive).  The mix has
    two rows, as [torch.cat] with the two-row paddings requires. *)
Definition demix_base_mdxv3 (overlap_InstVoc : Z) (mix : list (list R))
  : option (gmap string (list (list R)) + list (list R)) :=
  let N := overlap_InstVoc in
  let S := num_target_instruments in
  let mdx_window_size := Config.inference_dim_t config * 2 in
  let C := Config.audio_hop_length config * (mdx_window_size - 1) in
  if N =? 0 then None
  else
    let H := C / N in
    let L := Np.shape1 mix in
    if H =? 0 then None
    else
      let pad_size := H - (L - C) `mod` H in
      if (C - H <? 0) || (pad_size + C - H <? 0) then None
      else
        let mix :=
          Np.concatenate
            (Np.concatenate (replicate 2 (replicate (Z.to_nat (C - H)) 0%R)) mix)
            (replicate 2 (replicate (Z.to_nat (pad_size + C - H)) 0%R)) in
        if (Np.shape1 mix <? C) || (H <=? 0) then None
        else
          let chunks :=
            map (λ k, Np.cols mix (Some (k * H)) (Some (k * H + C)))
                (seqZ 0 ((Np.shape1 mix - C) / H + 1)) in
          let xx :=
            replicate (if 1 <? S then Z.to_nat S else 1%nat)
                      (map (λ row, replicate (length row) 0%R) mix) in
          let '(xx, cnt) :=
            foldl (λ '(xx, cnt) batch, (mdx_add C H xx cnt (model batch), cnt + 1))
                  (xx, 0) chunks in
          let estimated_sources :=
            map (λ src, Arr.div (Np.cols src (Some (C - H))
                                   (Some (- (pad_size + C - H))))
                                (IZR N)) xx in
          if 1 <? S
          then Some (inl (dict_of_zip (Config.training_instruments config)
                            estimated_sources))
          else inr <$> head estimated_sources.

End MDXv3.

Section VitLarge.

(** The network, on one chunk: [model(part.unsqueeze(0))[0]], one
    array per source. *)
Variable model : list (list R) → list (list (list R)).
Variable config : Config.t.

(** One pass of the body of the [while] loop of [demix_vitlarge], at
    index [i]: the part is padded with zeros up to the chunk length,
    and what the network returns for the samples that were there is
    added to [result], and 1 to [counter], at [i : i + length]. *)
Definition vit_chunk (c : Z) (mix : list (list R))
    (acc : list (list (list R)) * list (list (list R))) (i : Z)
  : list (list (list R)) * list (list (list R)) :=
  let '(result, counter) := acc in
  let part := Np.cols mix (Some i) (Some (i + c)) in
  let length_ := Np.shape1 part in
  let part :=
    if length_ <? c
    then map (λ row, row ++ replicate (Z.to_nat (c - length_)) 0%R) part
    else part in
  let x := model part in
  (zip_with (zip_with (λ row xr, slice_add row i (i + length_)
                                   (Py.slice xr None (Some length_))))
            result x,
   map (map (λ row, slice_add row i (i + length_)
                      (replicate (Z.to_nat length_) 1%R))) counter).

(** [while i < mix.shape[1]: ...; i += step].  The loop need not end:
    it runs for [fuel] iterations at most, and [None] is a run that
    needs more. *)
Fixpoint vit_loop (fuel : nat) (c step : Z) (mix : list (list R))
    (acc : list (list (list R)) * list (list (list R))) (i : Z)
  : option (list (list (list R)) * list (list (list R))) :=
  if i <? Np.shape1 mix then
    match fuel with
    | O => None
    | S fuel => vit_loop fuel c step mix (vit_chunk c mix acc i) (i + step)
    end
  else Some acc.

(** [demix_vitlarge].  [None] is the division by zero of [c // n], or
    a loop that has not ended within [fuel] iterations.  A sample that
    no chunk has counted is 0 / 0 in [result / counter], hence the
    samples of type [Fl]. *)
Definition demix_vitlarge (fuel : nat) (overlap_VitLarge : Z) (mix : list (list R))
  : option (gmap string (list (list Fl))) :=
  let c := Config.audio_hop_length config * (2 * Config.inference_dim_t config - 1) in
  let n := overlap_VitLarge in
  if n =? 0 then None
  else
    let step := c / n in
    let sources :=
      match Config.training_target_instrument config with
      | Some _ => 1%nat
      | None => length (Config.training_instruments config)
      end in
    let zeros := replicate sources (map (λ row, replicate (length row) 0%R) mix) in
    '(result, counter) ← vit_loop fuel c step mix (zeros, zeros) 0;
    let estimated_sources := zip_with (Np.map2 fl_div) result counter in
    Some (match Config.training_target_instrument config with
          | None => dict_of_zip (Config.training_instruments config) estimated_sources
          | Some target_instrument => dict_of_zip [target_instrument] estimated_sources
          end).

End VitLarge.

(** A network that returns its input as each of [sources] sources. *)
Definition identity_network (sources : nat) (part : list (list R)) : list (list (list R)) :=
  replicate sources part.

(** The number of windows [k < n], of length [C] and starting at
    [k * H], that hold position [p]. *)
Definition cover (C H n p : Z) : Z :=
  Z.max 0 (Z.min (n - 1) (p / H) - Z.max 0 ((p - C) / H + 1) + 1).

(** ** [EnsembleDemucsMDXMusicSeparationModel.__init__] *)

Module Init.

(** The options that [__init__] reads.  For the keys that it tests
    with [in], [None] is a key that the dictionary does not hold; the
    overlaps are what [float] makes of them. *)
Record options : Type := {
  cpu : option bool;
  single_onnx : option bool;
  overlap_demucs : Q;
  overlap_VOCFT : Q;
  vocals_only : bool;
  use_VOCFT : bool;
  chunk_size : option Z
}.

(** The attributes that [__init__] computes from the options, apart
    from the networks it loads; an attribute that is not set is
    [None]. *)
Record self : Type := {
  self_single_onnx : bool;
  self_overlap_demucs : Q;
  self_overlap_MDX : Q;
  self_weights : option stem_weights;
  self_chunk_size : option Z;
  self_mdx_models1 : option (list Conv_TDF_net_trim_model);
  self_device : string
}.

(** [__init__], without the loading of the networks.  [chunk_size_]
    is its local variable [chunk_size]. *)
Definition init (cuda_is_available : bool) (o : options) : self :=
  let device := if cuda_is_available then "cuda:0"%string else "cpu"%string in
  let device :=
    match cpu o with
    | Some true => "cpu"%string
    | _ => device
    end in
  let single_onnx :=
    match single_onnx o with
    | Some true => true
    | _ => false
    end in
  let overlap_demucs := overlap_demucs o in
  let overlap_MDX := overlap_VOCFT o in
  let overlap_demucs :=
    if Qlt_le_dec (99 # 100) overlap_demucs then 99 # 100 else overlap_demucs in
  let overlap_demucs :=
    if Qlt_le_dec overlap_demucs 0 then 0%Q else overlap_demucs in
  let overlap_MDX :=
    if Qlt_le_dec (99 # 100) overlap_MDX then 99 # 100 else overlap_MDX in
  let overlap_MDX :=
    if Qlt_le_dec overlap_MDX 0 then 0%Q else overlap_MDX in
  let chunk_size_ :=
    if bool_decide (device = "cpu"%string) then 200000000 else 1000000 in
  let chunk_size_ := from_option (λ c, c) chunk_size_ (chunk_size o) in
  {| self_single_onnx := single_onnx;
     self_overlap_demucs := overlap_demucs;
     self_overlap_MDX := overlap_MDX;
     self_weights := if vocals_only o then None else Some default_weights;
     self_chunk_size := if use_VOCFT o then Some chunk_size_ else None;
     self_mdx_models1 := if use_VOCFT o then Some (get_models 2) else None;
     self_device := device |}.

End Init.

(** ** Pieces of [separate_music_file] *)

(** [match_array_shapes]: [array_1] cut or zero-padded along axis 1 to
    the width of [array_2]. *)
Definition match_array_shapes (array_1 array_2 : list (list R)) : list (list R) :=
  if Np.shape1 array_2 <? Np.shape1 array_1
  then Np.cols array_1 None (Some (Np.shape1 array_2))
  else if Np.shape1 array_1 <? Np.shape1 array_2
  then
    let padding := Np.shape1 array_2 - Np.shape1 array_1 in
    map (λ row, row ++ replicate (Z.to_nat padding) 0%R) array_1
  else array_1.

(** The negation of a sample; a NaN stays one. *)
Definition fl_neg (x : Fl) : Fl := Ropp <$> x.

Section PolarityAverage.

(** [demix_wrapper] with the models and the session of the instance,
    and [apply_model] with one of the Demucs networks and its
    settings. *)
Variable demix_wrapper : list (list R) → Q → Z → option (list (list Fl)).
Variable apply_model : list (list R) → list (list (list R)).

(** [sources1 = 0.5 * demix_wrapper(mix.T, ...)] and
    [sources1 += 0.5 * -demix_wrapper(-mix.T, ...)], with
    [bigshifts = options['BigShifts'] // 5]. *)
Definition vocals_mdxb1 (mixed_sound_array_T : list (list R)) (overlap : Q)
    (BigShifts : Z) : option (list (list Fl)) :=
  plain ← demix_wrapper mixed_sound_array_T overlap (BigShifts / 5);
  let sources1 := Np.map1 (fmap (Rmult 0.5)) plain in
  inverted ← demix_wrapper (Np.map1 Ropp mixed_sound_array_T) overlap (BigShifts / 5);
  Some (Np.map2 fl_add sources1
          (Np.map1 (fmap (Rmult 0.5)) (Np.map1 fl_neg inverted))).

(** [out = 0.5 * apply_model(model, audio, ...)[0]
          + 0.5 * -apply_model(model, -audio, ...)[0]]: one array per
    stem. *)
Definition out_averaged (audio : list (list R)) : list (list (list R)) :=
  zip_with Arr.add
    (map (Arr.scale 0.5) (apply_model audio))
    (map (λ stem, Arr.scale 0.5 (Np.map1 Ropp stem))
       (apply_model (Np.map1 Ropp audio))).

End PolarityAverage.

(** The six stems of [htdemucs_6s] brought to four:
    [out[2] = out[2] + out[4] + out[5]] and [out = out[:4]]. *)
Definition out_6s (out : list (list (list R))) : option (list (list (list R))) :=
  o2 ← out !! 2%nat; o4 ← out !! 4%nat; o5 ← out !! 5%nat;
  Some (take 4 (<[2%nat := (o2 + o4 + o5)%arr]> out)).

(** [output_sample_rates] as [separate_music_file] fills it. *)
Definition separate_music_file_rates (vocals_only : bool) (sample_rate : Z)
  : gmap string Z :=
  let output_sample_rates := ∅ in
  let output_sample_rates :=
    if vocals_only then output_sample_rates
    else
      <["bass"%string := sample_rate]>
        (<["drums"%string := sample_rate]>
           (<["other"%string := sample_rate]> output_sample_rates)) in
  <["vocals"%string := sample_rate]> output_sample_rates.

(** ** The events of a batch *)

(** The paths written and the progress reported, read off the events
    of a run: the [(step, total)] of every call of the callback. *)
Definition written (events : list event) : list string :=
  omap (λ e, match e with WriteFile path => Some path | _ => None end) events.

Definition progress (events : list event) : list (Z * Z) :=
  omap (λ e, match e with Callback step _ total => Some (step, total) | _ => None end)
       events.

(** * Properties *)

(** ** The primitives on small inputs *)

Example slice_last_two : Py.slice [1; 2; 3; 4; 5] (Some (- 2)) None = [4; 5].
Proof. reflexivity. Qed.

Example slice_but_last_two : Py.slice [1; 2; 3; 4; 5] None (Some (- 2)) = [1; 2; 3].
Proof. reflexivity. Qed.

Example slice_minus_zero : Py.slice [1; 2; 3] None (Some (- 0)) = [].
Proof. reflexivity. Qed.

Example slice_past_end : Py.slice [1; 2; 3] (Some 1) (Some 7) = [2; 3].
Proof. reflexivity. Qed.

Example range_by_four : Py.range 0 10 4 = Some [0; 4; 8].
Proof. reflexivity. Qed.

Example range_no_step : Py.range 0 10 0 = None.
Proof. reflexivity. Qed.

Example int_truncates : Py.int (7 # 2) = 3 ∧ Py.int (- 7 # 2) = - 3.
Proof. split; reflexivity. Qed.

Example shifts_of_ten : shifts [[0; 1; 2; 3; 4; 5; 6; 7; 8; 9]] 3 = [0; 3; 6].
Proof. reflexivity. Qed.

Example shifted_by_one :
  shifted_mix 1 [[1; 2; 3]; [4; 5; 6]] = [[3; 1; 2]; [6; 4; 5]].
Proof. reflexivity. Qed.

Example restored_by_one :
  restored_sources 1 [[3; 1; 2]; [6; 4; 5]] = [[1; 2; 3]; [4; 5; 6]].
Proof. reflexivity. Qed.

Example transpose_stereo :
  Arr.T [[1; 2; 3]; [4; 5; 6]]%R = [[1; 4]; [2; 5]; [3; 6]]%R.
Proof. reflexivity. Qed.

Example stride_of_default_overlap :
  map (λ m, (trim m, gen_size m, chunk_size m, step m (1 # 10))) (get_models 2)
  = [(3840, 253440, 261120, 235008)].
Proof. reflexivity. Qed.

Example stride_without_overlap :
  map (λ m, step m 0) (get_models 2) = [261120].
Proof. reflexivity. Qed.

Example hanning_of_one : hanning 1 = [1%R].
Proof. reflexivity. Qed.

Example slice_add_inside (a0 a1 a2 a3 w0 w1 : R) :
  slice_add [a0; a1; a2; a3] 1 3 [w0; w1] = [a0; a1 + w0; a2 + w1; a3]%R.
Proof. reflexivity. Qed.

Example predict_two_files :
  predict_with_model (λ _, true) (λ q, q) String.app
    (λ _, true) true (λ _, true) (λ _, true) (λ _, true) (λ _ _ _, true)
    {| input_audio := ["a"; "b"]%string; output_folder := "out/";
       vocals_only := true; callback_callable := false |}
  = ([Makedirs "out/"; LoadModel;
      LoadAudio "a"; Separate "a";
      WriteFile "out/a_vocals.wav"; WriteFile "out/a_instrum.wav";
      LoadAudio "b"; Separate "b";
      WriteFile "out/b_vocals.wav"; WriteFile "out/b_instrum.wav"],
     Returns (Some ["out/a_vocals.wav"; "out/a_instrum.wav";
                    "out/b_vocals.wav"; "out/b_instrum.wav"]%string)).
Proof. reflexivity. Qed.

(** The second input exists and is not audio: [librosa.load] raises on
    it, after the first input has been written, and no list of paths
    is returned. *)
Example predict_second_file_unreadable :
  predict_with_model (λ _, true) (λ q, q) String.app
    (λ _, true) true (λ q, String.eqb q "a") (λ _, true) (λ _, true) (λ _ _ _, true)
    {| input_audio := ["a"; "b"]%string; output_folder := "out/";
       vocals_only := true; callback_callable := true |}
  = ([Makedirs "out/"; LoadModel; Callback 0 "Initializing model" 6;
      Callback 0 "Processing a" 6; LoadAudio "a"; Callback 1 "Loaded a" 6;
      Separate "a"; Callback 2 "Separated a" 6;
      WriteFile "out/a_vocals.wav"; WriteFile "out/a_instrum.wav";
      Callback 3 "Completed processing a" 6;
      Callback 3 "Processing b" 6],
     Raises).
Proof. reflexivity. Qed.

(** ** Slices and rotations *)

Section SliceFacts.
Context {A : Type}.
Implicit Types (l : list A) (a : list (list A)).

Lemma slice_all l : Py.slice l (Some 0) None = l.
Proof.
  unfold Py.slice, Py.index; simpl.
  rewrite Z.min_l by lia. simpl.
  rewrite Z.sub_0_r, Nat2Z.id. apply firstn_all.
Qed.

Lemma slice_none l : Py.slice l None (Some 0) = [].
Proof.
  unfold Py.slice, Py.index; simpl.
  rewrite Z.min_l by lia. reflexivity.
Qed.

(** [l[-k:]] and [l[:-k]] for a positive [k]. *)
Lemma slice_last l k :
  0 < k → Py.slice l (Some (- k)) None = drop (Z.to_nat (Z.of_nat (length l) - k)) l.
Proof.
  intros Hk. unfold Py.slice, Py.index; simpl.
  destruct (Z.ltb_spec (- k) 0) as [_|]; [|lia].
  replace (Z.to_nat (Z.max (Z.of_nat (length l) + - k) 0))
    with (Z.to_nat (Z.of_nat (length l) - k)) by lia.
  apply take_ge. rewrite length_drop. lia.
Qed.

Lemma slice_but_last l k :
  0 < k → Py.slice l None (Some (- k)) = take (Z.to_nat (Z.of_nat (length l) - k)) l.
Proof.
  intros Hk. unfold Py.slice, Py.index; simpl.
  destruct (Z.ltb_spec (- k) 0) as [_|]; [|lia].
  f_equal. lia.
Qed.

(** [l[k:]] and [l[:k]] for a non-negative [k]. *)
Lemma slice_from l k : 0 ≤ k → Py.slice l (Some k) None = drop (Z.to_nat k) l.
Proof.
  intros Hk. unfold Py.slice, Py.index; simpl.
  destruct (Z.ltb_spec k 0) as [|_]; [lia|].
  destruct (Z.le_gt_cases k (Z.of_nat (length l))).
  - rewrite Z.min_l by lia. apply take_ge. rewrite length_drop. lia.
  - rewrite Z.min_r by lia. rewrite Nat2Z.id, Z.sub_diag. simpl.
    symmetry. rewrite drop_all. apply drop_ge. lia.
Qed.

Lemma slice_to l k : 0 ≤ k → Py.slice l None (Some k) = take (Z.to_nat k) l.
Proof.
  intros Hk. unfold Py.slice, Py.index; simpl.
  destruct (Z.ltb_spec k 0) as [|_]; [lia|].
  rewrite Z.sub_0_r. change (Z.to_nat 0) with 0%nat. rewrite drop_0.
  destruct (Z.le_gt_cases k (Z.of_nat (length l))).
  - rewrite Z.min_l by lia. reflexivity.
  - rewrite Z.min_r by lia. rewrite !take_ge by lia. reflexivity.
Qed.

(** [l[lo:hi]] inside the bounds. *)
Lemma slice_inside l lo hi :
  0 ≤ lo ≤ hi → hi ≤ Z.of_nat (length l) →
  Py.slice l (Some lo) (Some hi) = take (Z.to_nat (hi - lo)) (drop (Z.to_nat lo) l).
Proof.
  intros Hlo Hhi. unfold Py.slice, Py.index; simpl.
  destruct (Z.ltb_spec lo 0) as [|_]; [lia|].
  destruct (Z.ltb_spec hi 0) as [|_]; [lia|].
  rewrite !Z.min_l by lia. reflexivity.
Qed.

(** One row through the rotation and back. *)
Lemma rotate_row_back l k :
  0 ≤ k →
  let s := Py.slice l (Some (- k)) None ++ Py.slice l None (Some (- k)) in
  Py.slice s (Some k) None ++ Py.slice s None (Some k) = l.
Proof.
  intros Hk s. subst s.
  destruct (Z.eq_dec k 0) as [->|Hne].
  - simpl. rewrite !slice_all, !slice_none, !app_nil_r. reflexivity.
  - rewrite slice_last, slice_but_last by lia.
    rewrite slice_from, slice_to by lia.
    set (n := Z.to_nat (Z.of_nat (length l) - k)).
    destruct (Z.le_gt_cases k (Z.of_nat (length l))) as [Hle|Hgt].
    + assert (Hlen : length (drop n l) = Z.to_nat k)
        by (rewrite length_drop; subst n; lia).
      rewrite drop_app_length', take_app_length' by (symmetry; exact Hlen).
      apply take_drop.
    + assert (Hn : n = 0%nat) by (subst n; lia).
      rewrite Hn, drop_0, take_0, app_nil_r.
      rewrite drop_ge, take_ge by lia. reflexivity.
Qed.

Lemma concatenate_cols a lo1 hi1 lo2 hi2 :
  Np.concatenate (Np.cols a lo1 hi1) (Np.cols a lo2 hi2)
  = map (λ r, Py.slice r lo1 hi1 ++ Py.slice r lo2 hi2) a.
Proof.
  unfold Np.concatenate, Np.cols.
  induction a as [|r a IH]; simpl; [reflexivity|]. now rewrite IH.
Qed.

Lemma shifted_mix_rows k a :
  shifted_mix k a
  = map (λ r, Py.slice r (Some (- k)) None ++ Py.slice r None (Some (- k))) a.
Proof. apply concatenate_cols. Qed.

Lemma restored_sources_rows k a :
  restored_sources k a
  = map (λ r, Py.slice r (Some k) None ++ Py.slice r None (Some k)) a.
Proof. apply concatenate_cols. Qed.

Lemma restored_shifted k a : 0 ≤ k → restored_sources k (shifted_mix k a) = a.
Proof.
  intros Hk. rewrite shifted_mix_rows, restored_sources_rows, map_map.
  rewrite <- (map_id a) at 2. apply map_ext. intros r.
  apply (rotate_row_back r k Hk).
Qed.

Lemma shifted_mix_0 a : shifted_mix 0 a = a.
Proof.
  rewrite shifted_mix_rows. rewrite <- (map_id a) at 2. apply map_ext.
  intros r. simpl. now rewrite slice_all, slice_none, app_nil_r.
Qed.

Lemma restored_sources_0 a : restored_sources 0 a = a.
Proof.
  rewrite restored_sources_rows. rewrite <- (map_id a) at 2. apply map_ext.
  intros r. now rewrite slice_all, slice_none, app_nil_r.
Qed.

End SliceFacts.

(** C7. Shift round trip: a stereo waveform of length [N], rotated by an
    offset [k] with [0 <= k < N] as the ensemblers rotate their input
    and then restored as they restore their output, is the waveform
    again. *)
Theorem shift_round_trip (mix : list (list R)) (N k : Z) :
  length mix = 2%nat →
  Forall (λ row, Z.of_nat (length row) = N) mix →
  0 ≤ k < N →
  restored_sources k (shifted_mix k mix) = mix.
Proof. intros _ _ [Hk _]. now apply restored_shifted. Qed.

Lemma shift_round_trip_witness :
  restored_sources 1 (shifted_mix 1 [[1; 2; 3]; [4; 5; 6]]%R)
  = [[1; 2; 3]; [4; 5; 6]]%R.
Proof.
  apply (shift_round_trip _ 3 1).
  - reflexivity.
  - repeat constructor.
  - lia.
Defined.

(** ** The shift list and the single-shift ensemble *)

Lemma shifts_unfold {A} (mix : list (list A)) (bigshifts : Z) :
  shifts mix bigshifts
  = map (λ x, x * (Np.shape1 mix / Z.max 1 bigshifts)) (seqZ 0 (Z.max 1 bigshifts)).
Proof.
  unfold shifts. destruct (Z.leb_spec bigshifts 0).
  - now rewrite Z.max_l by lia.
  - now rewrite Z.max_r by lia.
Qed.

Lemma shifts_single {A} (mix : list (list A)) (bigshifts : Z) :
  bigshifts ≤ 1 → shifts mix bigshifts = [0].
Proof.
  intros H. rewrite shifts_unfold. rewrite Z.max_l by lia. reflexivity.
Qed.

Lemma shape1_nonneg {A} (a : list (list A)) : 0 ≤ Np.shape1 a.
Proof. destruct a; simpl; lia. Qed.

Lemma filter_zero_all (f : Z → Z) (l : list Z) :
  (∀ x, x ∈ l → f x = 0) → filter (λ s, s = 0) (map f l) = map f l.
Proof.
  induction l as [|x l IH]; intros H; simpl; [reflexivity|].
  rewrite filter_cons_True by (apply H; left).
  f_equal. apply IH. intros y Hy. apply H. now right.
Qed.

Lemma filter_zero_none (f : Z → Z) (l : list Z) :
  (∀ x, x ∈ l → f x ≠ 0) → filter (λ s, s = 0) (map f l) = [].
Proof.
  induction l as [|x l IH]; intros H; simpl; [reflexivity|].
  rewrite filter_cons_False by (apply H; left).
  apply IH. intros y Hy. apply H. now right.
Qed.

(** The number of passes at offset 0. *)
Lemma shifts_zero_count {A} (mix : list (list A)) (bigshifts : Z) :
  Z.of_nat (length (filter (λ s, s = 0) (shifts mix bigshifts)))
  = if Z.max 1 bigshifts <=? Np.shape1 mix then 1 else Z.max 1 bigshifts.
Proof.
  rewrite shifts_unfold.
  set (b := Z.max 1 bigshifts). assert (Hb : 1 ≤ b) by (subst b; lia).
  pose proof (shape1_nonneg mix) as HN.
  destruct (Z.leb_spec b (Np.shape1 mix)) as [Hle|Hlt].
  - assert (Hs : 1 ≤ Np.shape1 mix / b)
      by (apply Z.div_le_lower_bound; lia).
    rewrite seqZ_cons by lia. simpl map.
    rewrite filter_cons_True by lia.
    rewrite filter_zero_none; [reflexivity|].
    intros x Hx. apply elem_of_seqZ in Hx. nia.
  - rewrite Z.div_small by lia.
    rewrite filter_zero_all by (intros; lia).
    rewrite length_map, length_seqZ. lia.
Qed.

Lemma fl_div_count_1 (x : Fl) : fl_div_count 1 x = x.
Proof. destruct x as [v|]; simpl; [|reflexivity]. f_equal. lra. Qed.

Lemma map1_id_ext {A} (f : A → A) (a : list (list A)) :
  (∀ x, f x = x) → Np.map1 f a = a.
Proof.
  intros Hf. unfold Np.map1.
  rewrite <- (map_id a) at 2. apply map_ext. intros r.
  rewrite <- (map_id r) at 2. now apply map_ext.
Qed.

Lemma mean_single (r : list (list Fl)) : Np.mean [r] = Some r.
Proof.
  unfold Np.mean. simpl. f_equal. apply map1_id_ext, fl_div_count_1.
Qed.

Section SingleShift.

Variable demix : list (list R) → Q → option (list (list Fl)).
Variable demix_base_mdxv3 : list (list R) → gmap string (list (list Fl)).
Variable demix_vitlarge : list (list R) → gmap string (list (list Fl)).

Lemma demix_wrapper_single mix overlap bigshifts :
  bigshifts ≤ 1 →
  demix_wrapper demix mix overlap bigshifts
  = Np.map1 (fl_scale 1.021) <$> demix mix overlap.
Proof.
  intros H. unfold demix_wrapper. rewrite shifts_single by exact H.
  simpl. rewrite shifted_mix_0.
  destruct (demix mix overlap) as [s|]; simpl; [|reflexivity].
  rewrite restored_sources_0. apply mean_single.
Qed.

Lemma demix_full_mdx23c_single big_shifts mix :
  big_shifts ≤ 1 →
  demix_full_mdx23c demix_base_mdxv3 big_shifts mix
  = Np.map1 (fl_scale 1.0005168) <$> demix_base_mdxv3 mix !! "Vocals"%string.
Proof.
  intros H. unfold demix_full_mdx23c. rewrite shifts_single by exact H.
  simpl. rewrite shifted_mix_0.
  destruct (demix_base_mdxv3 mix !! "Vocals"%string) as [s|]; simpl; [|reflexivity].
  rewrite restored_sources_0. apply mean_single.
Qed.

Lemma demix_full_vitlarge_single big_shifts mix :
  big_shifts ≤ 1 →
  demix_full_vitlarge demix_vitlarge big_shifts mix
  = (vocals ← demix_vitlarge mix !! "vocals"%string;
     other ← demix_vitlarge mix !! "other"%string;
     Some (Np.map1 (fl_scale 1.002) vocals, other)).
Proof.
  intros H. unfold demix_full_vitlarge. rewrite shifts_single by exact H.
  simpl. rewrite shifted_mix_0.
  destruct (demix_vitlarge mix !! "vocals"%string) as [v|]; simpl; [|reflexivity].
  destruct (demix_vitlarge mix !! "other"%string) as [o|]; simpl; [|reflexivity].
  rewrite !restored_sources_0.
  change (Z.of_nat 1) with 1.
  now rewrite !(map1_id_ext _ _ fl_div_count_1).
Qed.

End SingleShift.

(** C5, as the code has it.  With a shift count of 1 (a configured count
    of at most 0 included) each ensembler returns the value of one call
    of its inner transform on the unrotated input, times the
    ensembler's volume compensation: 1.021 in [demix_wrapper],
    1.0005168 in [demix_full_mdx23c], 1.002 on the vocals of
    [demix_full_vitlarge], whose second output is the inner transform's
    "other" unchanged. *)
Theorem shift_ensemble_single
    (demix : list (list R) → Q → option (list (list Fl)))
    (demix_base_mdxv3 demix_vitlarge : list (list R) → gmap string (list (list Fl)))
    (mix : list (list R)) (overlap : Q) (bigshifts : Z) :
  bigshifts ≤ 1 →
  demix_wrapper demix mix overlap bigshifts
  = Np.map1 (fl_scale 1.021) <$> demix mix overlap
  ∧ demix_full_mdx23c demix_base_mdxv3 bigshifts mix
    = Np.map1 (fl_scale 1.0005168) <$> demix_base_mdxv3 mix !! "Vocals"%string
  ∧ demix_full_vitlarge demix_vitlarge bigshifts mix
    = (vocals ← demix_vitlarge mix !! "vocals"%string;
       other ← demix_vitlarge mix !! "other"%string;
       Some (Np.map1 (fl_scale 1.002) vocals, other)).
Proof.
  intros H. split; [|split].
  - now apply demix_wrapper_single.
  - now apply demix_full_mdx23c_single.
  - now apply demix_full_vitlarge_single.
Qed.

Lemma shift_ensemble_single_witness :
  demix_wrapper (λ m _, Some (Np.map1 Some m)) [[1]; [1]]%R (1 # 5) 0
  = Np.map1 (fl_scale 1.021) <$> Some (Np.map1 Some [[1]; [1]]%R).
Proof.
  apply (shift_ensemble_single (λ m _, Some (Np.map1 Some m)) (λ _, ∅) (λ _, ∅)
           [[1]; [1]]%R (1 # 5) 0).
  lia.
Defined.

(** C5 as stated fails: the ensemble of an inner transform that returns
    its input is not that input, it is 1.021 times it. *)
Lemma shift_ensemble_is_scaled :
  demix_wrapper (λ m _, Some (Np.map1 Some m)) [[1]; [1]]%R (1 # 5) 1
  ≠ (λ m (_ : Q), Some (Np.map1 Some m)) [[1]; [1]]%R (1 # 5).
Proof.
  rewrite demix_wrapper_single by lia. simpl.
  intros H. injection H as H. lra.
Qed.

(** C10, as the code has it.  Offset 0 heads the shift list; rotating
    and restoring by 0 change nothing; the number of passes at offset 0
    is one when the waveform has at least as many samples as there are
    shifts and is the whole shift count otherwise; with one shift the
    only pass is at offset 0. *)
Theorem zero_shift_noop (mix : list (list R)) (sources : list (list Fl))
    (bigshifts : Z) :
  head (shifts mix bigshifts) = Some 0
  ∧ shifted_mix 0 mix = mix
  ∧ restored_sources 0 sources = sources
  ∧ Z.of_nat (length (filter (λ s, s = 0) (shifts mix bigshifts)))
    = (if Z.max 1 bigshifts <=? Np.shape1 mix then 1 else Z.max 1 bigshifts)
  ∧ shifts mix 1 = [0].
Proof.
  split; [|split; [|split; [|split]]].
  - rewrite shifts_unfold, seqZ_cons by lia. reflexivity.
  - apply shifted_mix_0.
  - apply restored_sources_0.
  - apply shifts_zero_count.
  - now apply shifts_single.
Qed.

(** C10 as stated fails: on a waveform of three samples a run with
    seven shifts makes all seven passes on the unrotated waveform. *)
Lemma short_waveform_all_unrotated :
  shifts [[1; 2; 3]; [4; 5; 6]]%R 7 = [0; 0; 0; 0; 0; 0; 0]
  ∧ length (filter (λ s, s = 0) (shifts [[1; 2; 3]; [4; 5; 6]]%R 7)) ≠ 1%nat.
Proof. split; [reflexivity|]. vm_compute. discriminate. Qed.

(** ** The batch entry point *)

Section PredictFacts.

Variable isfile : string → bool.
Variable basename_noext : string → string.
Variable path_join : string → string → string.

(** [validate] finds the first path that is not a file. *)
Lemma validate_some (paths : list string) (p : string) :
  p ∈ paths → isfile p = false →
  ∃ before missing after,
    paths = before ++ missing :: after
    ∧ Forall (λ q, isfile q = true) before
    ∧ isfile missing = false
    ∧ validate isfile paths = Some missing.
Proof.
  induction paths as [|q paths IH]; intros Hin Hp.
  - inversion Hin.
  - simpl. destruct (isfile q) eqn:Hq.
    + assert (Hin' : p ∈ paths).
      { apply elem_of_cons in Hin as [->|Hin]; [congruence|exact Hin]. }
      destruct (IH Hin' Hp) as (before & missing & after & -> & Hb & Hm & Hv).
      exists (q :: before), missing, after. repeat split; auto.
    + exists [], q, paths. repeat split; auto.
Qed.

End PredictFacts.

(** C6, as the code has it.  When some path of [input_audio] is not an
    existing file, the call reports the first such path and returns
    [None] at once: that is its only event, so no model is loaded, no
    file is separated and nothing is written, whatever the other paths
    are. *)
Theorem missing_file_ends_batch
    (isfile : string → bool) (basename_noext : string → string)
    (path_join : string → string → string)
    (makedirs : string → bool) (load_model : bool)
    (librosa_load separate_music_file sf_write : string → bool)
    (actual_callback : Z → string → Z → bool)
    (options : Options) (p : string) :
  p ∈ input_audio options → isfile p = false →
  ∃ before missing after,
    input_audio options = before ++ missing :: after
    ∧ Forall (λ q, isfile q = true) before
    ∧ isfile missing = false
    ∧ predict_with_model isfile basename_noext path_join makedirs load_model
        librosa_load separate_music_file sf_write actual_callback options
      = ([Print ("Error. No such file: " +:+ missing +:+ ". Please check path!")],
         Returns None).
Proof.
  intros Hin Hp.
  destruct (validate_some isfile _ _ Hin Hp) as (b & m & a & Heq & Hb & Hm & Hv).
  exists b, m, a. repeat split; auto.
  unfold predict_with_model. now rewrite Hv.
Qed.

Lemma missing_file_ends_batch_witness :
  ∃ before missing after,
    ["a.wav"; "b.wav"]%string = before ++ missing :: after
    ∧ Forall (λ q, String.eqb q "a.wav" = true) before
    ∧ String.eqb missing "a.wav" = false
    ∧ predict_with_model (λ q, String.eqb q "a.wav") (λ q, q) String.app
        (λ _, true) true (λ _, true) (λ _, true) (λ _, true) (λ _ _ _, true)
        {| input_audio := ["a.wav"; "b.wav"]%string; output_folder := "out/";
           vocals_only := true; callback_callable := false |}
      = ([Print ("Error. No such file: " +:+ missing +:+ ". Please check path!")],
         Returns None).
Proof.
  apply (missing_file_ends_batch (λ q, String.eqb q "a.wav") (λ q, q) String.app
           (λ _, true) true (λ _, true) (λ _, true) (λ _, true) (λ _ _ _, true)
           {| input_audio := ["a.wav"; "b.wav"]%string; output_folder := "out/";
              vocals_only := true; callback_callable := false |} "b.wav"%string).
  - simpl. right. left.
  - reflexivity.
Defined.

(** C6 as stated fails: with one existing and one missing input the
    batch does not continue; the existing file is never processed and
    the call returns [None], not a list of paths. *)
Lemma missing_file_no_continuation :
  predict_with_model (λ q, String.eqb q "a.wav") (λ q, q) String.app
    (λ _, true) true (λ _, true) (λ _, true) (λ _, true) (λ _ _ _, true)
    {| input_audio := ["a.wav"; "b.wav"]%string; output_folder := "out/";
       vocals_only := true; callback_callable := false |}
  = ([Print "Error. No such file: b.wav. Please check path!"], Returns None).
Proof. reflexivity. Qed.

(** ** The low bins of the spectrum *)

(** The zeroed spectrum, sample by sample: at channel [c], bin [f] and
    frame [t] it is 0 below bin 3 and the sample of [s] from bin 3 on. *)
Lemma zero_low_bins_lookup (s : list (list (list R))) (c f t : nat) :
  (s !! c ≫= λ chan, Arr.at2 chan f t)
  ≫= (λ v, Some (if (f <? 3)%nat then 0%R else v))
  = zero_low_bins s !! c ≫= λ chan, Arr.at2 chan f t.
Proof.
  unfold zero_low_bins. rewrite list_lookup_fmap.
  destruct (s !! c) as [chan|]; simpl; [|reflexivity].
  rewrite slice_to, slice_from by lia.
  change (Z.to_nat 3) with 3%nat.
  unfold Arr.at2, Np.map1.
  destruct (Nat.ltb_spec f 3) as [Hf|Hf].
  - destruct (le_lt_dec (length chan) f) as [Hlen|Hlen].
    + rewrite (lookup_ge_None_2 chan) by exact Hlen. simpl.
      rewrite lookup_ge_None_2; [reflexivity|].
      rewrite length_app, length_map, length_take, length_drop. lia.
    + rewrite lookup_app_l by (rewrite length_map, length_take; lia).
      rewrite list_lookup_fmap, lookup_take_lt by exact Hf.
      destruct (chan !! f) as [row|]; simpl; [|reflexivity].
      rewrite list_lookup_fmap. destruct (row !! t); simpl; [|reflexivity].
      f_equal. lra.
  - destruct (le_lt_dec (length chan) f) as [Hlen|Hlen].
    + rewrite (lookup_ge_None_2 chan) by exact Hlen. simpl.
      rewrite lookup_ge_None_2; [reflexivity|].
      rewrite length_app, length_map, length_take, length_drop. lia.
    + rewrite lookup_app_r by (rewrite length_map, length_take; lia).
      rewrite length_map, length_take, lookup_drop.
      replace (3 + (f - 3 `min` length chan))%nat with f by lia.
      destruct (chan !! f) as [row|]; simpl; [|reflexivity].
      now destruct (row !! t).
Qed.

(** C9, as the code has it.  For every chunk, bins 0, 1 and 2 (the DC
    bin and the two above it) of the chunk's short-time Fourier
    transform are zeroed and every bin from 3 on is kept, and it is this
    spectrum that the session is run on; the inverse transform takes the
    session's output as it is. *)
Theorem low_bins_zeroed_before_session
    (stft : list (list R) → list (list (list R)))
    (run : list (list (list R)) → list (list (list R)))
    (istft : list (list (list R)) → list (list R))
    (mix_wave : list (list R)) (c f t : nat) :
  (stft_res stft mix_wave !! c ≫= λ chan, Arr.at2 chan f t)
  = ((stft mix_wave !! c ≫= λ chan, Arr.at2 chan f t)
     ≫= λ v, Some (if (f <? 3)%nat then 0%R else v))
  ∧ tar_waves stft run istft mix_wave = istft (run (stft_res stft mix_wave)).
Proof.
  split; [|reflexivity].
  unfold stft_res. symmetry. apply zero_low_bins_lookup.
Qed.

(** C9 as stated fails, whichever spectrum is meant.  The spectrum that
    reaches the inverse transform is the session's output, and its low
    bins are whatever the session returns: here its DC bin is 1.  And
    in the spectrum that is zeroed, the chunk's transform, the bin of
    index 3 (the third above DC) keeps its value: here 1. *)
Lemma low_bins_not_all_zero :
  ¬ (∀ f t v,
       (f <= 3)%nat →
       (res (λ _, [[[1]; [1]; [1]; [1]]]%R) (λ _, [[[1]; [1]; [1]; [1]]]%R)
            [[0]; [0]]%R !! 0%nat
        ≫= λ chan, Arr.at2 chan f t) = Some v →
       v = 0%R)
  ∧ ¬ (∀ f t v,
         (f <= 3)%nat →
         (stft_res (λ _, [[[1]; [1]; [1]; [1]]]%R) [[0]; [0]]%R !! 0%nat
          ≫= λ chan, Arr.at2 chan f t) = Some v →
         v = 0%R).
Proof.
  split.
  - intros H. specialize (H 0%nat 0%nat 1%R (Nat.le_0_l 3) eq_refl). lra.
  - intros H. specialize (H 3%nat 0%nat 1%R (Nat.le_refl 3) eq_refl). lra.
Qed.

(** ** Arrays sample by sample *)

Section ArrayFacts.
Context {A B C : Type}.

Lemma at2_map1 (f : A → B) (a : list (list A)) (i j : nat) :
  Arr.at2 (Np.map1 f a) i j = f <$> Arr.at2 a i j.
Proof.
  unfold Arr.at2, Np.map1. rewrite list_lookup_fmap.
  destruct (a !! i) as [r|]; simpl; [|reflexivity].
  apply list_lookup_fmap.
Qed.

Lemma at2_map2 (f : A → B → C) (a : list (list A)) (b : list (list B)) (i j : nat) :
  Arr.at2 (Np.map2 f a b) i j
  = (x ← Arr.at2 a i j; y ← Arr.at2 b i j; Some (f x y)).
Proof.
  unfold Arr.at2, Np.map2. rewrite lookup_zip_with.
  destruct (a !! i) as [ra|]; simpl; [|reflexivity].
  destruct (b !! i) as [rb|]; simpl.
  - apply lookup_zip_with.
  - now destruct (ra !! j).
Qed.

Lemma shape_map1 (f : A → B) (a : list (list A)) :
  Np.shape (Np.map1 f a) = Np.shape a.
Proof.
  unfold Np.shape, Np.map1. rewrite map_map. apply map_ext.
  intros r. apply length_map.
Qed.

Lemma shape_map2 (f : A → B → C) (a : list (list A)) (b : list (list B)) :
  Np.shape a = Np.shape b → Np.shape (Np.map2 f a b) = Np.shape a.
Proof.
  unfold Np.shape, Np.map2. revert b.
  induction a as [|ra a IH]; intros [|rb b] H; simpl in *; try congruence.
  injection H as Hr H. rewrite length_zip_with, <- Hr, Nat.min_id.
  f_equal. now apply IH.
Qed.

End ArrayFacts.

(** Two arrays of one shape with the same samples are equal. *)
Lemma arr_ext {A} (a b : list (list A)) :
  Np.shape a = Np.shape b →
  (∀ i j, Arr.at2 a i j = Arr.at2 b i j) → a = b.
Proof.
  revert b. induction a as [|ra a IH]; intros [|rb b] Hs H;
    simpl in *; try congruence.
  injection Hs as Hr Hs. f_equal.
  - apply list_eq. intros j. exact (H 0%nat j).
  - apply IH; [exact Hs|]. intros i j. exact (H (S i) j).
Qed.

Lemma at2_is_Some {A} (a b : list (list A)) (i j : nat) :
  Np.shape a = Np.shape b → is_Some (Arr.at2 a i j) → is_Some (Arr.at2 b i j).
Proof.
  unfold Arr.at2, Np.shape. intros Hs [x Hx].
  destruct (a !! i) as [ra|] eqn:Ha; simpl in Hx; [|discriminate].
  assert (Hl : map length b !! i = Some (length ra))
    by (rewrite <- Hs, list_lookup_fmap, Ha; reflexivity).
  rewrite list_lookup_fmap in Hl.
  destruct (b !! i) as [rb|]; simpl in *; [|discriminate].
  injection Hl as Hl. apply lookup_lt_is_Some. rewrite Hl.
  now apply lookup_lt_Some in Hx.
Qed.

Lemma T_length (a : list (list R)) (n : nat) :
  a ≠ [] → Forall (λ r, length r = n) a → length (Arr.T a) = n.
Proof.
  induction a as [|r a IH]; intros Hne Hr; [contradiction|].
  apply Forall_cons in Hr as [Hr Ha].
  destruct a as [|r' a].
  - simpl. now rewrite length_map.
  - change (Arr.T (r :: r' :: a)) with (zip_with cons r (Arr.T (r' :: a))).
    rewrite length_zip_with, IH by (auto; discriminate). lia.
Qed.

(** The transpose holds at [(i, j)] the sample of the array at
    [(j, i)]. *)
Lemma at2_T (a : list (list R)) (n i j : nat) :
  a ≠ [] → Forall (λ r, length r = n) a →
  Arr.at2 (Arr.T a) i j = Arr.at2 a j i.
Proof.
  revert j. induction a as [|r a IH]; intros j Hne Hr; [contradiction|].
  apply Forall_cons in Hr as [Hr Ha].
  destruct a as [|r' a].
  - unfold Arr.at2. simpl. rewrite list_lookup_fmap.
    destruct j as [|j]; simpl.
    + now destruct (r !! i).
    + now destruct (r !! i).
  - change (Arr.T (r :: r' :: a)) with (zip_with cons r (Arr.T (r' :: a))).
    pose proof (T_length (r' :: a) n ltac:(discriminate) Ha) as HT.
    unfold Arr.at2 in *. rewrite lookup_zip_with.
    destruct (le_lt_dec n i) as [Hi|Hi].
    + rewrite (lookup_ge_None_2 r) by lia. simpl.
      destruct j as [|j]; simpl.
      * rewrite lookup_ge_None_2 by lia. reflexivity.
      * rewrite <- (IH j) by (auto; discriminate).
        rewrite (lookup_ge_None_2 (Arr.T (r' :: a))) by lia. reflexivity.
    + destruct (lookup_lt_is_Some_2 r i ltac:(lia)) as [x Hx].
      destruct (lookup_lt_is_Some_2 (Arr.T (r' :: a)) i ltac:(lia)) as [t Ht].
      rewrite Hx, Ht. simpl.
      destruct j as [|j]; simpl; [exact (eq_sym Hx)|].
      rewrite <- (IH j) by (auto; discriminate). now rewrite Ht.
Qed.

#[local] Open Scope R_scope.

(** ** Weighted averages *)

Lemma weighted_average_2 (w0 w1 x0 x1 : R) :
  0 < w0 → 0 < w1 →
  Rmin x0 x1 <= (w0 * x0 + w1 * x1) / (w0 + (w1 + 0)) <= Rmax x0 x1.
Proof.
  intros H0 H1.
  pose proof (Rmin_l x0 x1). pose proof (Rmin_r x0 x1).
  pose proof (Rmax_l x0 x1). pose proof (Rmax_r x0 x1).
  set (lo := Rmin x0 x1) in *. set (hi := Rmax x0 x1) in *.
  assert (HW : 0 < w0 + (w1 + 0)) by lra.
  split.
  - apply Rmult_le_reg_r with (w0 + (w1 + 0)); [exact HW|].
    unfold Rdiv. rewrite Rmult_assoc, Rinv_l by lra. nra.
  - apply Rmult_le_reg_r with (w0 + (w1 + 0)); [exact HW|].
    unfold Rdiv. rewrite Rmult_assoc, Rinv_l by lra. nra.
Qed.

Lemma weighted_average_3 (w0 w1 w2 x0 x1 x2 : R) :
  0 < w0 → 0 < w1 → 0 < w2 →
  Rmin x0 (Rmin x1 x2) <= (w0 * x0 + w1 * x1 + w2 * x2) / (w0 + (w1 + (w2 + 0)))
  <= Rmax x0 (Rmax x1 x2).
Proof.
  intros H0 H1 H2.
  pose proof (Rmin_l x0 (Rmin x1 x2)). pose proof (Rmin_r x0 (Rmin x1 x2)).
  pose proof (Rmin_l x1 x2). pose proof (Rmin_r x1 x2).
  pose proof (Rmax_l x0 (Rmax x1 x2)). pose proof (Rmax_r x0 (Rmax x1 x2)).
  pose proof (Rmax_l x1 x2). pose proof (Rmax_r x1 x2).
  set (lo := Rmin x0 (Rmin x1 x2)) in *. set (hi := Rmax x0 (Rmax x1 x2)) in *.
  assert (Hlo : lo <= x0 ∧ lo <= x1 ∧ lo <= x2) by lra.
  assert (Hhi : x0 <= hi ∧ x1 <= hi ∧ x2 <= hi) by lra.
  assert (HW : 0 < w0 + (w1 + (w2 + 0))) by lra.
  split.
  - apply Rmult_le_reg_r with (w0 + (w1 + (w2 + 0))); [exact HW|].
    unfold Rdiv. rewrite Rmult_assoc, Rinv_l by lra. nra.
  - apply Rmult_le_reg_r with (w0 + (w1 + (w2 + 0))); [exact HW|].
    unfold Rdiv. rewrite Rmult_assoc, Rinv_l by lra. nra.
Qed.

Lemma weighted_average_4 (w0 w1 w2 w3 x0 x1 x2 x3 : R) :
  0 < w0 → 0 < w1 → 0 < w2 → 0 < w3 →
  Rmin x0 (Rmin x1 (Rmin x2 x3))
  <= (w0 * x0 + w1 * x1 + w2 * x2 + w3 * x3) / (w0 + (w1 + (w2 + (w3 + 0))))
  <= Rmax x0 (Rmax x1 (Rmax x2 x3)).
Proof.
  intros H0 H1 H2 H3.
  pose proof (Rmin_l x0 (Rmin x1 (Rmin x2 x3))).
  pose proof (Rmin_r x0 (Rmin x1 (Rmin x2 x3))).
  pose proof (Rmin_l x1 (Rmin x2 x3)). pose proof (Rmin_r x1 (Rmin x2 x3)).
  pose proof (Rmin_l x2 x3). pose proof (Rmin_r x2 x3).
  pose proof (Rmax_l x0 (Rmax x1 (Rmax x2 x3))).
  pose proof (Rmax_r x0 (Rmax x1 (Rmax x2 x3))).
  pose proof (Rmax_l x1 (Rmax x2 x3)). pose proof (Rmax_r x1 (Rmax x2 x3)).
  pose proof (Rmax_l x2 x3). pose proof (Rmax_r x2 x3).
  set (lo := Rmin x0 (Rmin x1 (Rmin x2 x3))) in *.
  set (hi := Rmax x0 (Rmax x1 (Rmax x2 x3))) in *.
  assert (Hlo : lo <= x0 ∧ lo <= x1 ∧ lo <= x2 ∧ lo <= x3) by lra.
  assert (Hhi : x0 <= hi ∧ x1 <= hi ∧ x2 <= hi ∧ x3 <= hi) by lra.
  assert (HW : 0 < w0 + (w1 + (w2 + (w3 + 0)))) by lra.
  split.
  - apply Rmult_le_reg_r with (w0 + (w1 + (w2 + (w3 + 0)))); [exact HW|].
    unfold Rdiv. rewrite Rmult_assoc, Rinv_l by lra. nra.
  - apply Rmult_le_reg_r with (w0 + (w1 + (w2 + (w3 + 0)))); [exact HW|].
    unfold Rdiv. rewrite Rmult_assoc, Rinv_l by lra. nra.
Qed.

Lemma at2_weighted_vocals2 (w0 w1 : R) (v3 v4 : list (list R)) (i j : nat) :
  Arr.at2 (weighted_vocals2 w0 w1 v3 v4) i j
  = (x3 ← Arr.at2 (Arr.T v3) i j; x4 ← Arr.at2 (Arr.T v4) i j;
     Some ((w0 * x3 + w1 * x4) / (w0 + (w1 + 0)))).
Proof.
  unfold weighted_vocals2, Arr.div, Arr.add, Arr.scale.
  rewrite at2_map1, at2_map2, !at2_map1.
  destruct (Arr.at2 (Arr.T v3) i j); simpl; [|reflexivity].
  now destruct (Arr.at2 (Arr.T v4) i j).
Qed.

Lemma at2_weighted_vocals3 (w0 w1 w2 : R) (v1 v3 v4 : list (list R)) (i j : nat) :
  Arr.at2 (weighted_vocals3 w0 w1 w2 v1 v3 v4) i j
  = (x1 ← Arr.at2 (Arr.T v1) i j; x3 ← Arr.at2 (Arr.T v3) i j;
     x4 ← Arr.at2 (Arr.T v4) i j;
     Some ((w0 * x1 + w1 * x3 + w2 * x4) / (w0 + (w1 + (w2 + 0))))).
Proof.
  unfold weighted_vocals3, Arr.div, Arr.add, Arr.scale.
  rewrite at2_map1, !at2_map2, !at2_map1.
  destruct (Arr.at2 (Arr.T v1) i j); simpl; [|reflexivity].
  destruct (Arr.at2 (Arr.T v3) i j); simpl; [|reflexivity].
  now destruct (Arr.at2 (Arr.T v4) i j).
Qed.

(** The weights of stem [k] in the order of the model outputs: drums,
    bass, other, vocals. *)
Lemma demucs_ensemble_sample (W : stem_weights)
    (out_0 out_1 out_2 out_3 : list (list (list R)))
    (d0 d1 d2 d3 b0 b1 b2 b3 o0 o1 o2 o3 v0 v1 v2 v3 : R) :
  weights_drums W = [d0; d1; d2; d3] →
  weights_bass W = [b0; b1; b2; b3] →
  weights_other W = [o0; o1; o2; o3] →
  weights_vocals W = [v0; v1; v2; v3] →
  length out_0 = 4%nat → length out_1 = 4%nat →
  length out_2 = 4%nat → length out_3 = 4%nat →
  ∃ out,
    demucs_ensemble W out_0 out_1 out_2 out_3 = Some out
    ∧ ∀ k i j x0 x1 x2 x3,
        (out_0 !! k ≫= λ a, Arr.at2 a i j) = Some x0 →
        (out_1 !! k ≫= λ a, Arr.at2 a i j) = Some x1 →
        (out_2 !! k ≫= λ a, Arr.at2 a i j) = Some x2 →
        (out_3 !! k ≫= λ a, Arr.at2 a i j) = Some x3 →
        ∃ w0 w1 w2 w3,
          [weights_drums W; weights_bass W; weights_other W; weights_vocals W] !! k
          = Some [w0; w1; w2; w3]
          ∧ (out !! k ≫= λ a, Arr.at2 a i j)
            = Some ((w0 * x0 + w1 * x1 + w2 * x2 + w3 * x3)
                    / (w0 + (w1 + (w2 + (w3 + 0))))).
Proof.
  intros Hd Hb Ho Hv L0 L1 L2 L3.
  destruct out_0 as [|p0 [|p1 [|p2 [|p3 [|]]]]]; try discriminate L0.
  destruct out_1 as [|q0 [|q1 [|q2 [|q3 [|]]]]]; try discriminate L1.
  destruct out_2 as [|r0 [|r1 [|r2 [|r3 [|]]]]]; try discriminate L2.
  destruct out_3 as [|s0 [|s1 [|s2 [|s3 [|]]]]]; try discriminate L3.
  unfold demucs_ensemble, weigh. rewrite Hd, Hb, Ho, Hv. simpl.
  eexists. split; [reflexivity|].
  intros k i j x0 x1 x2 x3 H0 H1 H2 H3.
  destruct k as [|[|[|[|k]]]]; simpl in *; try discriminate H0;
    (eexists _, _, _, _; split; [reflexivity|]);
    unfold Arr.div, Arr.add, Arr.scale;
    rewrite at2_map1, !at2_map2, !at2_map1, H0, H1, H2, H3; reflexivity.
Qed.

(** C8. Weighted-average convexity: with strictly positive weights, each
    sample of the weighted average of the vocal estimates (two backends
    or three, transposed as the code combines them: [at2_T]) and of the
    four model outputs of the stem ensemble lies between the least and
    the greatest of the backend samples it combines. *)
Theorem weighted_average_convex
    (weight_VOCFT weight_InstVoc weight_VitLarge : R)
    (vocals_mdxb1 vocals3 vocals4 : list (list R))
    (W : stem_weights) (out_0 out_1 out_2 out_3 : list (list (list R))) :
  0 < weight_VOCFT → 0 < weight_InstVoc → 0 < weight_VitLarge →
  Forall (λ w, length w = 4%nat ∧ Forall (Rlt 0) w)
    [weights_drums W; weights_bass W; weights_other W; weights_vocals W] →
  Forall (λ out, length out = 4%nat) [out_0; out_1; out_2; out_3] →
  (∀ i j x3 x4,
     Arr.at2 (Arr.T vocals3) i j = Some x3 →
     Arr.at2 (Arr.T vocals4) i j = Some x4 →
     ∃ y, Arr.at2 (weighted_vocals2 weight_InstVoc weight_VitLarge
                     vocals3 vocals4) i j = Some y
          ∧ Rmin x3 x4 <= y <= Rmax x3 x4)
  ∧ (∀ i j x1 x3 x4,
       Arr.at2 (Arr.T vocals_mdxb1) i j = Some x1 →
       Arr.at2 (Arr.T vocals3) i j = Some x3 →
       Arr.at2 (Arr.T vocals4) i j = Some x4 →
       ∃ y, Arr.at2 (weighted_vocals3 weight_VOCFT weight_InstVoc weight_VitLarge
                       vocals_mdxb1 vocals3 vocals4) i j = Some y
            ∧ Rmin x1 (Rmin x3 x4) <= y <= Rmax x1 (Rmax x3 x4))
  ∧ ∃ out,
      demucs_ensemble W out_0 out_1 out_2 out_3 = Some out
      ∧ ∀ k i j x0 x1 x2 x3,
          (out_0 !! k ≫= λ a, Arr.at2 a i j) = Some x0 →
          (out_1 !! k ≫= λ a, Arr.at2 a i j) = Some x1 →
          (out_2 !! k ≫= λ a, Arr.at2 a i j) = Some x2 →
          (out_3 !! k ≫= λ a, Arr.at2 a i j) = Some x3 →
          ∃ y, (out !! k ≫= λ a, Arr.at2 a i j) = Some y
               ∧ Rmin x0 (Rmin x1 (Rmin x2 x3)) <= y
                 <= Rmax x0 (Rmax x1 (Rmax x2 x3)).
Proof.
  intros Hw1 Hw3 Hw4 HW Hout. split; [|split].
  - intros i j x3 x4 H3 H4. rewrite at2_weighted_vocals2, H3, H4. simpl.
    eexists. split; [reflexivity|]. now apply weighted_average_2.
  - intros i j x1 x3 x4 H1 H3 H4. rewrite at2_weighted_vocals3, H1, H3, H4. simpl.
    eexists. split; [reflexivity|]. now apply weighted_average_3.
  - apply Forall_cons in HW as [[Ld Pd] HW].
    apply Forall_cons in HW as [[Lb Pb] HW].
    apply Forall_cons in HW as [[Lo Po] HW].
    apply Forall_cons in HW as [[Lv Pv] _].
    apply Forall_cons in Hout as [L0 Hout].
    apply Forall_cons in Hout as [L1 Hout].
    apply Forall_cons in Hout as [L2 Hout].
    apply Forall_cons in Hout as [L3 _].
    destruct (weights_drums W) as [|d0 [|d1 [|d2 [|d3 [|]]]]] eqn:Ed;
      try discriminate Ld.
    destruct (weights_bass W) as [|b0 [|b1 [|b2 [|b3 [|]]]]] eqn:Eb;
      try discriminate Lb.
    destruct (weights_other W) as [|o0 [|o1 [|o2 [|o3 [|]]]]] eqn:Eo;
      try discriminate Lo.
    destruct (weights_vocals W) as [|v0 [|v1 [|v2 [|v3 [|]]]]] eqn:Ev;
      try discriminate Lv.
    destruct (demucs_ensemble_sample W out_0 out_1 out_2 out_3 _ _ _ _ _ _ _ _
                _ _ _ _ _ _ _ _ Ed Eb Eo Ev L0 L1 L2 L3) as (out & Hens & Hs).
    exists out. split; [exact Hens|].
    intros k i j x0 x1 x2 x3 H0 H1 H2 H3.
    destruct (Hs k i j x0 x1 x2 x3 H0 H1 H2 H3) as (w0 & w1 & w2 & w3 & Hk & Hy).
    eexists. split; [exact Hy|].
    assert (Hpos : Forall (Rlt 0) [w0; w1; w2; w3]).
    { rewrite Ed, Eb, Eo, Ev in Hk.
      destruct k as [|[|[|[|k]]]]; simpl in Hk; try discriminate Hk;
        injection Hk as <- <- <- <-; assumption. }
    apply Forall_cons in Hpos as [P0 Hpos].
    apply Forall_cons in Hpos as [P1 Hpos].
    apply Forall_cons in Hpos as [P2 Hpos].
    apply Forall_cons in Hpos as [P3 _].
    now apply weighted_average_4.
Qed.

Lemma weighted_average_convex_witness :
  ∃ y, Arr.at2 (weighted_vocals2 8 5 [[1]; [3]] [[2]; [0]]) 0 0 = Some y
       ∧ Rmin 1 2 <= y <= Rmax 1 2.
Proof.
  destruct (weighted_average_convex 1 8 5 [[0]; [0]] [[1]; [3]] [[2]; [0]]
              default_weights
              (replicate 4 [[1]; [1]]) (replicate 4 [[2]; [2]])
              (replicate 4 [[3]; [3]]) (replicate 4 [[4]; [4]]))
    as [H _].
  - lra.
  - lra.
  - lra.
  - repeat constructor; lra.
  - repeat constructor.
  - apply (H 0%nat 0%nat 1 2); reflexivity.
Defined.

(** ** The final correction pass *)

Lemma at2_same_shape {A} (a b : list (list A)) (i j : nat) :
  Np.shape b = Np.shape a →
  (∃ x y, Arr.at2 a i j = Some x ∧ Arr.at2 b i j = Some y)
  ∨ (Arr.at2 a i j = None ∧ Arr.at2 b i j = None).
Proof.
  intros Hs.
  destruct (Arr.at2 a i j) as [x|] eqn:Ha.
  - destruct (at2_is_Some a b i j (eq_sym Hs)) as [y Hy]; [now rewrite Ha|].
    left. eauto.
  - destruct (Arr.at2 b i j) as [y|] eqn:Hb; [|now right].
    destruct (at2_is_Some b a i j Hs) as [x Hx]; [now rewrite Hb|congruence].
Qed.

Ltac shape_tac :=
  unfold Arr.add, Arr.sub, Arr.scale, Arr.div, Arr.clip;
  repeat first [ rewrite shape_map1 | rewrite shape_map2 by shape_tac ];
  congruence.

Ltac at2_tac :=
  unfold Arr.add, Arr.sub, Arr.scale, Arr.div, Arr.clip;
  repeat first [ rewrite at2_map1 | rewrite at2_map2
               | match goal with
                 | H : Arr.at2 ?a ?i ?j = _ |- context [Arr.at2 ?a ?i ?j] =>
                     rewrite H; simpl
                 end ].

(** What the pass leaves under the three keys. *)
Lemma final_correction_some (m v bass0 drums0 other0 : list (list R))
    (sma : gmap string (list (list R))) :
  sma !! "bass"%string = Some bass0 →
  sma !! "drums"%string = Some drums0 →
  sma !! "other"%string = Some other0 →
  final_correction m v sma
  = Some (<["bass"%string := (m - v - drums0 - other0)%arr]>
            (<["drums"%string := (m - v - bass0 - other0)%arr]>
               (<["other"%string := (m - v - bass0 - drums0)%arr]> sma))).
Proof.
  intros Hb Hd Ho. unfold final_correction. rewrite Hb, Hd, Ho. reflexivity.
Qed.

Lemma sequential_correction_spec_some (m v bass0 drums0 : list (list R))
    (sma : gmap string (list (list R))) :
  sma !! "bass"%string = Some bass0 →
  sma !! "drums"%string = Some drums0 →
  sequential_correction_spec m v sma
  = Some (<["bass"%string :=
              (m - v - (m - v - bass0 - (m - v - bass0 - drums0))
               - (m - v - bass0 - drums0))%arr]>
            (<["drums"%string := (m - v - bass0 - (m - v - bass0 - drums0))%arr]>
               (<["other"%string := (m - v - bass0 - drums0)%arr]> sma))).
Proof.
  intros Hb Hd. unfold sequential_correction_spec. rewrite Hb, Hd. reflexivity.
Qed.

(** The sum of the stems after the pass, for any stems before it. *)
Lemma final_correction_sum
    (mix vocals bass0 drums0 other0 : list (list R))
    (sma : gmap string (list (list R))) :
  Np.shape vocals = Np.shape mix →
  Np.shape bass0 = Np.shape mix →
  Np.shape drums0 = Np.shape mix →
  Np.shape other0 = Np.shape mix →
  sma !! "bass"%string = Some bass0 →
  sma !! "drums"%string = Some drums0 →
  sma !! "other"%string = Some other0 →
  ∃ sma' bass drums other,
    final_correction mix vocals sma = Some sma'
    ∧ sma' !! "bass"%string = Some bass
    ∧ sma' !! "drums"%string = Some drums
    ∧ sma' !! "other"%string = Some other
    ∧ (vocals + bass + drums + other
       = 3 * mix - 2 * vocals - 2 * (bass0 + drums0 + other0))%arr
    ∧ ((vocals + bass + drums + other)%arr = mix
       ↔ (bass0 + drums0 + other0)%arr = (mix - vocals)%arr).
Proof.
  intros Sv Sb Sd So Hb Hd Ho.
  eexists _, _, _, _. split; [apply final_correction_some; eassumption|].
  split; [apply lookup_insert_eq|].
  split; [rewrite lookup_insert_ne by done; apply lookup_insert_eq|].
  split; [rewrite !(lookup_insert_ne _ _ "other"%string) by done;
          apply lookup_insert_eq|].
  assert (Hpt : ∀ i j,
    (∃ m v b d o, Arr.at2 mix i j = Some m ∧ Arr.at2 vocals i j = Some v
       ∧ Arr.at2 bass0 i j = Some b ∧ Arr.at2 drums0 i j = Some d
       ∧ Arr.at2 other0 i j = Some o)
    ∨ (Arr.at2 mix i j = None ∧ Arr.at2 vocals i j = None
       ∧ Arr.at2 bass0 i j = None ∧ Arr.at2 drums0 i j = None
       ∧ Arr.at2 other0 i j = None)).
  { intros i j.
    destruct (at2_same_shape mix vocals i j Sv) as [(m & v & Hm & Hv)|[Hm Hv]];
    destruct (at2_same_shape mix bass0 i j Sb) as [(m1 & b & Hm1 & Hb')|[Hm1 Hb']];
    destruct (at2_same_shape mix drums0 i j Sd) as [(m2 & d & Hm2 & Hd')|[Hm2 Hd']];
    destruct (at2_same_shape mix other0 i j So) as [(m3 & o & Hm3 & Ho')|[Hm3 Ho']];
    try congruence.
    - left. exists m, v, b, d, o. auto.
    - right. auto. }
  split.
  - apply arr_ext; [shape_tac|]. intros i j.
    destruct (Hpt i j) as [(m & v & b & d & o & Hm & Hv & Hb' & Hd' & Ho')
                          |(Hm & Hv & Hb' & Hd' & Ho')];
      at2_tac; [f_equal; lra|reflexivity].
  - split; intros H; (apply arr_ext; [shape_tac|]); intros i j;
      pose proof (f_equal (λ a, Arr.at2 a i j) H) as Hij; simpl in Hij;
      revert Hij;
      destruct (Hpt i j) as [(m & v & b & d & o & Hm & Hv & Hb' & Hd' & Ho')
                            |(Hm & Hv & Hb' & Hd' & Ho')];
      at2_tac; try reflexivity; intros Hij; injection Hij as Hij; f_equal; lra.
Qed.

(** C1, as the code has it.  The vocals, bass, drums and other that
    [separate_music_file] returns add up to
    [3*mix - 2*vocals - 2*(bass0 + drums0 + other0)], where [bass0],
    [drums0] and [other0] are the stems that the clipped residual
    refinement leaves before the final correction pass; the sum is the
    mix exactly when those three already added up to [mix - vocals]. *)
Theorem stem_sum_after_correction
    (mix vocals o0 o1 o2 : list (list R)) (rest : list (list (list R))) :
  Np.shape vocals = Np.shape mix →
  Np.shape (Arr.T o0) = Np.shape mix →
  Np.shape (Arr.T o1) = Np.shape mix →
  Np.shape (Arr.T o2) = Np.shape mix →
  ∃ sma0 bass0 drums0 other0 d bass drums other,
    residual_refinement mix vocals (o0 :: o1 :: o2 :: rest) ∅ = Some sma0
    ∧ sma0 !! "bass"%string = Some bass0
    ∧ sma0 !! "drums"%string = Some drums0
    ∧ sma0 !! "other"%string = Some other0
    ∧ separate_music_file_stems false mix vocals (o0 :: o1 :: o2 :: rest) = Some d
    ∧ d !! "vocals"%string = Some vocals
    ∧ d !! "bass"%string = Some bass
    ∧ d !! "drums"%string = Some drums
    ∧ d !! "other"%string = Some other
    ∧ (vocals + bass + drums + other
       = 3 * mix - 2 * vocals - 2 * (bass0 + drums0 + other0))%arr
    ∧ ((vocals + bass + drums + other)%arr = mix
       ↔ (bass0 + drums0 + other0)%arr = (mix - vocals)%arr).
Proof.
  intros Sv S0 S1 S2.
  unfold separate_music_file_stems, residual_refinement.
  cbn [lookup list_lookup mbind option_bind].
  set (other0 := ((2 * Arr.clip (mix - vocals - Arr.T o0 - Arr.T o1) (-1) 1
                   + Arr.T o2) / 3)%arr).
  set (drums0 := ((Arr.clip (mix - vocals - Arr.T o1 - Arr.T o2) (-1) 1
                   + 2 * Arr.T o0) / 3)%arr).
  set (bass0 := ((Arr.clip (mix - vocals - Arr.T o0 - Arr.T o2) (-1) 1
                  + 2 * Arr.T o1) / 3)%arr).
  set (sma0 := <["bass"%string := bass0]>
                 (<["drums"%string := drums0]> (<["other"%string := other0]> ∅))).
  assert (Lb : sma0 !! "bass"%string = Some bass0) by apply lookup_insert_eq.
  assert (Ld : sma0 !! "drums"%string = Some drums0)
    by (subst sma0; rewrite lookup_insert_ne by done; apply lookup_insert_eq).
  assert (Lo : sma0 !! "other"%string = Some other0)
    by (subst sma0; rewrite !(lookup_insert_ne _ _ "other"%string) by done;
        apply lookup_insert_eq).
  destruct (final_correction_sum mix vocals bass0 drums0 other0 sma0)
    as (sma' & bass & drums & other & Hfc & Hb & Hd & Ho & Hsum & Hiff);
    auto; try (subst bass0 drums0 other0; shape_tac).
  exists sma0, bass0, drums0, other0. eexists. exists bass, drums, other.
  split; [reflexivity|]. split; [exact Lb|]. split; [exact Ld|].
  split; [exact Lo|]. rewrite Hfc. cbn [mbind option_bind].
  split; [reflexivity|].
  split; [rewrite lookup_insert_ne by done; apply lookup_insert_eq|].
  split; [now rewrite !lookup_insert_ne by done|].
  split; [now rewrite !lookup_insert_ne by done|].
  split; [now rewrite !lookup_insert_ne by done|].
  split; [exact Hsum|exact Hiff].
Qed.

Lemma stem_sum_after_correction_witness :
  ∃ d bass drums other,
    separate_music_file_stems false [[1; 1]] [[0; 0]] (replicate 4 [[0]; [0]])
    = Some d
    ∧ d !! "vocals"%string = Some [[0; 0]]
    ∧ d !! "bass"%string = Some bass
    ∧ d !! "drums"%string = Some drums
    ∧ d !! "other"%string = Some other
    ∧ ∃ bass0 drums0 other0,
        ([[0; 0]] + bass + drums + other
         = 3 * [[1; 1]] - 2 * [[0; 0]] - 2 * (bass0 + drums0 + other0))%arr.
Proof.
  destruct (stem_sum_after_correction [[1; 1]] [[0; 0]] [[0]; [0]] [[0]; [0]]
              [[0]; [0]] [[[0]; [0]]])
    as (sma0 & bass0 & drums0 & other0 & d & bass & drums & other
        & _ & _ & _ & _ & Hd & Hv & Hb & Hdr & Ho & Hsum & _);
    try reflexivity.
  exists d, bass, drums, other. repeat (split; [assumption|]).
  exists bass0, drums0, other0. exact Hsum.
Defined.

(** C1 as stated fails: for a mix of one frame of ones, silent vocals
    and silent model outputs, the stems that [separate_music_file]
    returns add up to a third of the mix. *)
Lemma stems_do_not_close :
  ∃ d bass drums other,
    separate_music_file_stems false [[1; 1]] [[0; 0]] (replicate 4 [[0]; [0]])
    = Some d
    ∧ d !! "vocals"%string = Some [[0; 0]]
    ∧ d !! "bass"%string = Some bass
    ∧ d !! "drums"%string = Some drums
    ∧ d !! "other"%string = Some other
    ∧ ([[0; 0]] + bass + drums + other)%arr ≠ [[1; 1]].
Proof.
  unfold separate_music_file_stems, residual_refinement. simpl.
  erewrite final_correction_some; [|reflexivity..].
  eexists _, _, _, _. split; [reflexivity|].
  split; [reflexivity|]. split; [reflexivity|].
  split; [reflexivity|]. split; [reflexivity|].
  unfold Arr.add, Arr.sub, Arr.div, Arr.scale, Arr.clip. simpl.
  intros H. injection H as H _.
  rewrite (Rmax_left (1 - 0 - 0 - 0) (-1)) in H by lra.
  rewrite (Rmin_right (1 - 0 - 0 - 0) 1) in H by lra.
  lra.
Qed.

(** ** The order of the three assignments *)

Lemma foldl_insert_permutation {V} (l1 l2 : list (string * V)) :
  l1 ≡ₚ l2 → NoDup (l1.*1) →
  ∀ d : gmap string V,
    foldl (λ d kv, <[kv.1 := kv.2]> d) d l1 = foldl (λ d kv, <[kv.1 := kv.2]> d) d l2.
Proof.
  induction 1 as [|x l1 l2 Hp IH|x y l|l1 l2 l3 Hp1 IH1 Hp2 IH2]; intros Hnd d.
  - reflexivity.
  - simpl. apply IH. simpl in Hnd. now apply NoDup_cons in Hnd as [_ Hnd].
  - simpl. f_equal. apply insert_insert_ne.
    simpl in Hnd. apply NoDup_cons in Hnd as [Hnin _].
    intros Heq. apply Hnin. rewrite Heq. left.
  - rewrite IH1 by exact Hnd. apply IH2. now rewrite <- Hp1.
Qed.

(** C2, as the code has it.  The pass sets
    [other = mix - vocals - bass0 - drums0],
    [drums = mix - vocals - bass0 - other0] and
    [bass = mix - vocals - drums0 - other0], each from the stems
    [bass0], [drums0], [other0] read before the first assignment; the
    three assignments may be made in any order without changing the
    result. *)
Theorem correction_reads_snapshot
    (mix vocals bass0 drums0 other0 : list (list R))
    (sma : gmap string (list (list R)))
    (updates : list (string * list (list R))) :
  sma !! "bass"%string = Some bass0 →
  sma !! "drums"%string = Some drums0 →
  sma !! "other"%string = Some other0 →
  updates ≡ₚ [("other"%string, (mix - vocals - bass0 - drums0)%arr);
              ("drums"%string, (mix - vocals - bass0 - other0)%arr);
              ("bass"%string, (mix - vocals - drums0 - other0)%arr)] →
  final_correction mix vocals sma
  = Some (foldl (λ d kv, <[kv.1 := kv.2]> d) sma updates).
Proof.
  intros Hb Hd Ho Hp.
  rewrite (final_correction_some _ _ _ _ _ _ Hb Hd Ho). f_equal.
  symmetry. rewrite (foldl_insert_permutation _ _ Hp); [reflexivity|].
  rewrite Hp. simpl. now apply (bool_decide_unpack _).
Qed.

Lemma correction_reads_snapshot_witness :
  final_correction [[1]] [[0]]
    (<["bass"%string := [[0]]]>
       (<["drums"%string := [[0]]]> (<["other"%string := [[0]]]> ∅)))
  = Some (foldl (λ d kv, <[kv.1 := kv.2]> d)
            (<["bass"%string := [[0]]]>
               (<["drums"%string := [[0]]]> (<["other"%string := [[0]]]> ∅)))
            [("bass"%string, ([[1]] - [[0]] - [[0]] - [[0]])%arr);
             ("other"%string, ([[1]] - [[0]] - [[0]] - [[0]])%arr);
             ("drums"%string, ([[1]] - [[0]] - [[0]] - [[0]])%arr)]).
Proof.
  apply (correction_reads_snapshot [[1]] [[0]] [[0]] [[0]] [[0]]);
    try reflexivity.
  etrans; [apply Permutation_swap|]. apply Permutation_skip, Permutation_swap.
Defined.

(** C2 as stated fails: with every stem silent before the pass and a
    mix of 1, the code sets drums to 1, while a pass whose second step
    read the other stem just recomputed would set it to 0. *)
Lemma correction_is_not_sequential :
  final_correction [[1]] [[0]]
    (<["bass"%string := [[0]]]>
       (<["drums"%string := [[0]]]> (<["other"%string := [[0]]]> ∅)))
  ≠ sequential_correction_spec [[1]] [[0]]
      (<["bass"%string := [[0]]]>
         (<["drums"%string := [[0]]]> (<["other"%string := [[0]]]> ∅))).
Proof.
  erewrite final_correction_some; [|reflexivity..].
  erewrite sequential_correction_spec_some; [|reflexivity..].
  intros H. apply (inj Some) in H.
  apply (f_equal (λ d : gmap string (list (list R)), d !! "drums"%string)) in H.
  rewrite !(lookup_insert_ne _ "bass"%string "drums"%string) in H by done.
  rewrite !lookup_insert_eq in H.
  unfold Arr.sub in H. simpl in H. injection H as H. lra.
Qed.

#[local] Close Scope R_scope.

(** ** The Hann window *)

Lemma hanning_at_nonneg (M k : Z) : (0 <= hanning_at M k)%R.
Proof.
  unfold hanning_at.
  pose proof (COS_bound (PI * IZR (1 - M + 2 * k) / IZR (M - 1))) as [H _].
  lra.
Qed.

Lemma hanning_at_first (M : Z) : 2 ≤ M → hanning_at M 0 = 0%R.
Proof.
  intros HM. unfold hanning_at.
  replace (1 - M + 2 * 0) with (- (M - 1)) by lia.
  rewrite opp_IZR.
  assert (HR : (IZR (M - 1) ≠ 0)%R) by (apply not_0_IZR; lia).
  replace (PI * - IZR (M - 1) / IZR (M - 1))%R with (- PI)%R by (field; exact HR).
  rewrite cos_neg, cos_PI. lra.
Qed.

Lemma hanning_at_last (M : Z) : 2 ≤ M → hanning_at M (M - 1) = 0%R.
Proof.
  intros HM. unfold hanning_at.
  replace (1 - M + 2 * (M - 1)) with (M - 1) by lia.
  assert (HR : (IZR (M - 1) ≠ 0)%R) by (apply not_0_IZR; lia).
  replace (PI * IZR (M - 1) / IZR (M - 1))%R with PI by (field; exact HR).
  rewrite cos_PI. lra.
Qed.

Lemma hanning_at_pos (M k : Z) : 0 < k < M - 1 → (0 < hanning_at M k)%R.
Proof.
  intros Hk. unfold hanning_at.
  set (n := 1 - M + 2 * k).
  assert (Hn : - (M - 1) < n < M - 1) by (subst n; lia).
  assert (HM : (0 < IZR (M - 1))%R) by (apply IZR_lt; lia).
  assert (Hlo : (- IZR (M - 1) < IZR n)%R)
    by (rewrite <- opp_IZR; apply IZR_lt; lia).
  assert (Hhi : (IZR n < IZR (M - 1))%R) by (apply IZR_lt; lia).
  set (h := (PI * IZR n / IZR (M - 1) / 2)%R).
  replace (PI * IZR n / IZR (M - 1))%R with (2 * h)%R by (subst h; field; lra).
  rewrite cos_2a_cos.
  pose proof PI_RGT_0 as Hpi.
  assert (Hq : (-1 < IZR n / IZR (M - 1) < 1)%R).
  { split.
    - apply Rmult_lt_reg_r with (IZR (M - 1)); [exact HM|].
      unfold Rdiv. rewrite Rmult_assoc, Rinv_l by lra. lra.
    - apply Rmult_lt_reg_r with (IZR (M - 1)); [exact HM|].
      unfold Rdiv. rewrite Rmult_assoc, Rinv_l by lra. lra. }
  assert (Hh : (h = PI / 2 * (IZR n / IZR (M - 1)))%R) by (subst h; field; lra).
  assert (Hc : (0 < cos h)%R).
  { apply cos_gt_0; rewrite Hh; nra. }
  nra.
Qed.

Lemma hanning_length (M : Z) : length (hanning M) = Z.to_nat M.
Proof.
  unfold hanning.
  destruct (Z.ltb_spec M 1); [simpl; lia|].
  destruct (Z.eqb_spec M 1) as [->|]; [reflexivity|].
  rewrite length_map, length_seqZ. reflexivity.
Qed.

(** The window of a chunk of [M] samples at offset [k]: never negative,
    positive strictly inside the chunk, and zero at both ends of a
    chunk of two samples or more. *)
Lemma hanning_lookup (M k : Z) :
  0 ≤ k < M →
  ∃ w, hanning M !! Z.to_nat k = Some w
       ∧ (0 <= w)%R
       ∧ (0 < k < M - 1 → (0 < w)%R)
       ∧ (2 ≤ M → k = 0 ∨ k = M - 1 → w = 0%R).
Proof.
  intros Hk. unfold hanning.
  destruct (Z.ltb_spec M 1); [lia|].
  destruct (Z.eqb_spec M 1) as [->|HM].
  - replace k with 0 by lia. exists 1%R. simpl.
    split; [reflexivity|]. split; [lra|]. split; intros; lia.
  - exists (hanning_at M k). split.
    + rewrite list_lookup_fmap.
      assert (Hs : seqZ 0 M !! Z.to_nat k = Some k).
      { apply lookup_seqZ. lia. }
      now rewrite Hs.
    + split; [apply hanning_at_nonneg|].
      split; [apply hanning_at_pos|].
      intros HM2 [->| ->]; [now apply hanning_at_first|now apply hanning_at_last].
Qed.

(** ** Adding into a slice *)

Lemma slice_add_length (row : list R) (start stop : Z) (w : list R) :
  0 ≤ start ≤ stop → stop ≤ Z.of_nat (length row) →
  length w = Z.to_nat (stop - start) →
  length (slice_add row start stop w) = length row.
Proof.
  intros Hs Hl Hw. unfold slice_add.
  rewrite slice_inside by lia.
  rewrite !length_app, length_zip_with, !length_take, !length_drop. lia.
Qed.

Lemma slice_add_lookup (row : list R) (start stop : Z) (w : list R) (p : nat) :
  0 ≤ start ≤ stop → stop ≤ Z.of_nat (length row) →
  length w = Z.to_nat (stop - start) →
  slice_add row start stop w !! p
  = if decide (start ≤ Z.of_nat p < stop)
    then x ← row !! p; y ← w !! (p - Z.to_nat start)%nat; Some (x + y)%R
    else row !! p.
Proof.
  intros Hs Hl Hw. unfold slice_add.
  rewrite slice_inside by lia.
  destruct (decide (start ≤ Z.of_nat p < stop)) as [Hin|Hout].
  - rewrite lookup_app_r by (rewrite length_take; lia).
    rewrite length_take.
    replace (p - Z.to_nat start `min` length row)%nat
      with (p - Z.to_nat start)%nat by lia.
    rewrite lookup_app_l
      by (rewrite length_zip_with, length_take, length_drop; lia).
    rewrite lookup_zip_with, lookup_take_lt, lookup_drop by lia.
    replace (Z.to_nat start + (p - Z.to_nat start))%nat with p by lia.
    reflexivity.
  - destruct (Z.lt_ge_cases (Z.of_nat p) start) as [Hlt|Hge].
    + rewrite lookup_app_l by (rewrite length_take; lia).
      apply lookup_take_lt. lia.
    + rewrite lookup_app_r by (rewrite length_take; lia).
      rewrite lookup_app_r
        by (rewrite length_take, length_zip_with, length_take, length_drop; lia).
      rewrite length_take, length_zip_with, length_take, length_drop, lookup_drop.
      f_equal. lia.
Qed.

(** ** One row of the divider through the chunk loop *)

Section DividerRow.

(** The chunk size, the length of the padded mixture and the overlap. *)
Variables (cs L : Z) (ov : Q).
Hypothesis cs_pos : 1 ≤ cs.

Local Abbreviation end_ i := (Z.min (i + cs) L).
Local Abbreviation win i :=
  (if Qeq_bool ov 0 then replicate (Z.to_nat (end_ i - i)) 1%R
   else hanning (end_ i - i)).
Local Abbreviation stepD d i := (slice_add d i (end_ i) (win i)).
Local Abbreviation foldD d starts := (foldl (λ d i, stepD d i) d starts).

Lemma win_length (i : Z) : length (win i) = Z.to_nat (end_ i - i).
Proof.
  destruct (Qeq_bool ov 0); [apply length_replicate|apply hanning_length].
Qed.

(** What chunk [i] adds at position [p]: nothing outside the chunk, a
    positive weight strictly inside it (anywhere in it without a
    window), and nothing at the two ends of a windowed chunk. *)
Lemma stepD_lookup (d : list R) (i : Z) (p : nat) (x : R) :
  0 ≤ i < L → Z.of_nat (length d) = L → d !! p = Some x →
  ∃ w, stepD d i !! p = Some (x + w)%R
       ∧ (0 <= w)%R
       ∧ (i ≤ Z.of_nat p < end_ i →
          Qeq_bool ov 0 = true ∨ i < Z.of_nat p < end_ i - 1 → (0 < w)%R)
       ∧ (¬ (i ≤ Z.of_nat p < end_ i)
          ∨ (Qeq_bool ov 0 = false ∧ 2 ≤ end_ i - i
             ∧ (Z.of_nat p = i ∨ Z.of_nat p = end_ i - 1)) → w = 0%R).
Proof.
  intros Hi Hd Hp.
  rewrite slice_add_lookup by (try apply win_length; lia).
  destruct (decide (i ≤ Z.of_nat p < end_ i)) as [Hin|Hout].
  - rewrite Hp. simpl.
    replace (p - Z.to_nat i)%nat with (Z.to_nat (Z.of_nat p - i)) by lia.
    destruct (Qeq_bool ov 0) eqn:Hov.
    + exists 1%R. split.
      * rewrite (proj2 (lookup_replicate _ _ 1%R _)); [reflexivity|].
        split; [reflexivity|lia].
      * split; [lra|]. split; [intros; lra|].
        intros [Hn|(Hf & _)]; [contradiction|discriminate].
    + destruct (hanning_lookup (end_ i - i) (Z.of_nat p - i))
        as (w & Hw & Hw0 & Hwpos & Hwz); [lia|].
      exists w. rewrite Hw. split; [reflexivity|]. split; [exact Hw0|]. split.
      * intros _ [Hf|Hint]; [discriminate|]. apply Hwpos. lia.
      * intros [Hn|(_ & H2 & Hedge)]; [contradiction|].
        apply Hwz; [exact H2|]. lia.
  - exists 0%R. split; [rewrite Hp; f_equal; lra|].
    split; [lra|]. split; [intros Hin; contradiction|reflexivity].
Qed.

Lemma stepD_length (d : list R) (i : Z) :
  0 ≤ i < L → Z.of_nat (length d) = L → Z.of_nat (length (stepD d i)) = L.
Proof.
  intros Hi Hd. rewrite slice_add_length by (try apply win_length; lia).
  exact Hd.
Qed.

Lemma foldD_length (starts : list Z) (d : list R) :
  Forall (λ i, 0 ≤ i < L) starts → Z.of_nat (length d) = L →
  Z.of_nat (length (foldD d starts)) = L.
Proof.
  revert d. induction starts as [|i starts IH]; intros d Hs Hd; [exact Hd|].
  apply Forall_cons in Hs as [Hi Hs]. simpl.
  apply IH; [exact Hs|]. now apply stepD_length.
Qed.

(** The divider never decreases. *)
Lemma foldD_mono (starts : list Z) (d : list R) (p : nat) (x : R) :
  Forall (λ i, 0 ≤ i < L) starts → Z.of_nat (length d) = L →
  d !! p = Some x →
  ∃ y, foldD d starts !! p = Some y ∧ (x <= y)%R.
Proof.
  revert d x. induction starts as [|i starts IH]; intros d x Hs Hd Hp.
  - exists x. split; [exact Hp|lra].
  - apply Forall_cons in Hs as [Hi Hs]. simpl.
    destruct (stepD_lookup d i p x Hi Hd Hp) as (w & Hw & Hw0 & _).
    destruct (IH _ _ Hs (stepD_length d i Hi Hd) Hw) as (y & Hy & Hxy).
    exists y. split; [exact Hy|lra].
Qed.

(** A chunk that holds [p] strictly inside (anywhere without a window)
    makes the divider positive there. *)
Lemma foldD_pos (starts : list Z) (d : list R) (p : nat) (x : R) (i0 : Z) :
  Forall (λ i, 0 ≤ i < L) starts → Z.of_nat (length d) = L →
  d !! p = Some x → (0 <= x)%R →
  i0 ∈ starts →
  i0 ≤ Z.of_nat p < end_ i0 →
  Qeq_bool ov 0 = true ∨ i0 < Z.of_nat p < end_ i0 - 1 →
  ∃ y, foldD d starts !! p = Some y ∧ (0 < y)%R.
Proof.
  revert d x. induction starts as [|i starts IH];
    intros d x Hs Hd Hp Hx Hin Hcov Hgood.
  - inversion Hin.
  - apply Forall_cons in Hs as [Hi Hs]. simpl.
    destruct (stepD_lookup d i p x Hi Hd Hp) as (w & Hw & Hw0 & Hwpos & _).
    apply elem_of_cons in Hin as [Heq|Hin].
    + subst i0. specialize (Hwpos Hcov Hgood).
      destruct (foldD_mono starts _ p _ Hs (stepD_length d i Hi Hd) Hw)
        as (y & Hy & Hxy).
      exists y. split; [exact Hy|lra].
    + apply (IH _ (x + w)%R Hs (stepD_length d i Hi Hd) Hw); auto. lra.
Qed.

(** Where every chunk misses [p] or has it at an end of its window, the
    divider stays zero. *)
Lemma foldD_zero (starts : list Z) (d : list R) (p : nat) :
  Forall (λ i, 0 ≤ i < L) starts → Z.of_nat (length d) = L →
  d !! p = Some 0%R →
  Forall (λ i, ¬ (i ≤ Z.of_nat p < end_ i)
               ∨ (Qeq_bool ov 0 = false ∧ 2 ≤ end_ i - i
                  ∧ (Z.of_nat p = i ∨ Z.of_nat p = end_ i - 1))) starts →
  foldD d starts !! p = Some 0%R.
Proof.
  revert d. induction starts as [|i starts IH]; intros d Hs Hd Hp Hbad.
  - exact Hp.
  - apply Forall_cons in Hs as [Hi Hs]. apply Forall_cons in Hbad as [Hb Hbad].
    simpl.
    destruct (stepD_lookup d i p 0%R Hi Hd Hp) as (w & Hw & _ & _ & Hwz).
    rewrite (Hwz Hb) in Hw. rewrite Rplus_0_r in Hw.
    apply IH; auto. now apply stepD_length.
Qed.

End DividerRow.

(** ** The stride and the chunk starts *)

Lemma step_no_overlap (m : Conv_TDF_net_trim_model) (ov : Q) :
  Qeq_bool ov 0 = true → step m ov = chunk_size m.
Proof.
  intros H. apply Qeq_bool_iff in H. unfold step, Py.int.
  assert (Hq : ((1 - ov) * inject_Z (chunk_size m) == inject_Z (chunk_size m))%Q)
    by (rewrite H; ring).
  destruct (Qle_bool 0 ((1 - ov) * inject_Z (chunk_size m))).
  - rewrite (Qfloor_comp _ _ Hq). apply Qfloor_Z.
  - rewrite (Qceiling_comp _ _ Hq). apply Qceiling_Z.
Qed.

Lemma step_windowed (m : Conv_TDF_net_trim_model) (ov : Q) :
  100 ≤ chunk_size m →
  (1 < ov * inject_Z (chunk_size m))%Q → (ov <= 99 # 100)%Q →
  Qeq_bool ov 0 = false ∧ 1 ≤ step m ov ≤ chunk_size m - 2.
Proof.
  intros Hcs Hlo Hhi.
  assert (Hc : (inject_Z 100 <= inject_Z (chunk_size m))%Q)
    by (rewrite <- Zle_Qle; exact Hcs).
  change (inject_Z 100) with 100%Q in Hc.
  split.
  - destruct (Qeq_bool ov 0) eqn:E; [|reflexivity].
    apply Qeq_bool_iff in E. rewrite E, Qmult_0_l in Hlo.
    exfalso. revert Hlo. apply Qle_not_lt. discriminate.
  - unfold step, Py.int.
    assert (H2 : ((1 - ov) * inject_Z (chunk_size m)
                  < inject_Z (chunk_size m - 1))%Q).
    { unfold Zminus. rewrite inject_Z_plus. change (inject_Z (- (1))) with (-1)%Q.
      revert Hlo. generalize (inject_Z (chunk_size m)). clear.
      intros c Hlo. nra. }
    assert (H1 : (1 <= (1 - ov) * inject_Z (chunk_size m))%Q).
    { revert Hc Hhi. generalize (inject_Z (chunk_size m)). clear.
      intros c Hc Hhi. nra. }
    set (q := ((1 - ov) * inject_Z (chunk_size m))%Q) in *.
    assert (H0 : Qle_bool 0 q = true) by (apply Qle_bool_iff; lra).
    rewrite H0. split.
    + rewrite <- (Qfloor_Z 1). now apply Qfloor_resp_le.
    + assert (Hf : Qfloor q < chunk_size m - 1).
      { rewrite Zlt_Qlt. eapply Qle_lt_trans; [apply Qfloor_le|exact H2]. }
      lia.
Qed.

Lemma range_starts (L step : Z) :
  0 < step →
  ∃ starts,
    Py.range 0 L step = Some starts
    ∧ Forall (λ i, 0 ≤ i < L) starts
    ∧ (∀ k, 0 ≤ k → k * step < L → k * step ∈ starts)
    ∧ Forall (λ i, ∃ k, 0 ≤ k ∧ i = k * step) starts.
Proof.
  intros Hs. unfold Py.range.
  destruct (Z.eqb_spec step 0) as [|_]; [lia|].
  destruct (Z.ltb_spec 0 step) as [_|]; [|lia].
  eexists. split; [reflexivity|]. split; [|split].
  - apply Forall_forall. intros i Hi.
    apply list_elem_of_fmap in Hi as (k & -> & Hk).
    apply elem_of_seqZ in Hk.
    assert (Hc : step * ((L - 0 + step - 1) / step) ≤ L - 0 + step - 1)
      by (apply Z.mul_div_le; lia).
    nia.
  - intros k Hk HkL. apply list_elem_of_fmap. exists k. split; [lia|].
    apply elem_of_seqZ. split; [lia|].
    apply Z.lt_le_trans with (k + 1); [lia|].
    apply Z.div_le_lower_bound; [lia|]. nia.
  - apply Forall_forall. intros i Hi.
    apply list_elem_of_fmap in Hi as (k & -> & Hk).
    apply elem_of_seqZ in Hk. exists k. lia.
Qed.

(** With a window, every position but the first and the last lies
    strictly inside some chunk as long as the stride leaves two samples
    of overlap; without a window every position lies in a chunk. *)
Lemma inside_some_chunk (cs L step p : Z) :
  1 ≤ step ≤ cs - 2 → 1 ≤ p < L - 1 →
  ∃ k, 0 ≤ k ∧ k * step < L ∧ k * step < p < Z.min (k * step + cs) L - 1.
Proof.
  intros Hs Hp.
  pose proof (Z.div_mod p step ltac:(lia)) as Hdm.
  pose proof (Z.mod_pos_bound p step ltac:(lia)) as Hm.
  assert (Hq : 0 ≤ p / step) by (apply Z.div_pos; lia).
  destruct (Z.eq_dec (p `mod` step) 0) as [H0|H0].
  - exists (p / step - 1). nia.
  - exists (p / step). nia.
Qed.

Lemma in_some_chunk (cs L p : Z) :
  1 ≤ cs → 0 ≤ p < L →
  ∃ k, 0 ≤ k ∧ k * cs < L ∧ k * cs ≤ p < Z.min (k * cs + cs) L.
Proof.
  intros Hs Hp.
  pose proof (Z.div_mod p cs ltac:(lia)) as Hdm.
  pose proof (Z.mod_pos_bound p cs ltac:(lia)) as Hm.
  assert (Hq : 0 ≤ p / cs) by (apply Z.div_pos; lia).
  exists (p / cs). nia.
Qed.

(** ** One row of the result when every chunk comes back unchanged *)

Section ResultRow.

(** The chunk size, the padded length, the overlap and one row of the
    padded mixture. *)
Variables (cs L : Z) (ov : Q) (x : list R).
Hypothesis cs_pos : 1 ≤ cs.
Hypothesis x_length : Z.of_nat (length x) = L.

Local Abbreviation end_ i := (Z.min (i + cs) L).
Local Abbreviation win i :=
  (if Qeq_bool ov 0 then replicate (Z.to_nat (end_ i - i)) 1%R
   else hanning (end_ i - i)).
Local Abbreviation chunk i := (Py.slice x (Some i%Z) (Some (end_ i))).
Local Abbreviation contrib i :=
  (if Qeq_bool ov 0 then chunk i else zip_with Rmult (chunk i) (hanning (end_ i - i))).

Lemma chunk_length (i : Z) : 0 ≤ i < L → length (chunk i) = Z.to_nat (end_ i - i).
Proof.
  intros Hi. rewrite slice_inside by lia.
  rewrite length_take, length_drop. lia.
Qed.

Lemma chunk_lookup (i : Z) (k : nat) :
  0 ≤ i < L → Z.of_nat k < end_ i - i → chunk i !! k = x !! (Z.to_nat i + k)%nat.
Proof.
  intros Hi Hk. rewrite slice_inside by lia.
  rewrite lookup_take_lt by lia. apply lookup_drop.
Qed.

(** What reaches the result from a chunk that came back unchanged,
    padded with [z] or not, with the window and without it. *)
Lemma windowed_contribution (i : Z) (z : list R) :
  0 ≤ i < L →
  Py.slice (prefix_mul (chunk i ++ z) (end_ i - i) (hanning (end_ i - i)))
    None (Some (end_ i - i))
  = zip_with Rmult (chunk i) (hanning (end_ i - i)).
Proof.
  intros Hi. pose proof (chunk_length i Hi) as Hc.
  unfold prefix_mul. rewrite !slice_to by lia.
  rewrite (take_app_length' (chunk i) z) by (symmetry; exact Hc).
  apply take_app_length'.
  rewrite length_zip_with, hanning_length. lia.
Qed.

Lemma plain_contribution (i : Z) (z : list R) :
  0 ≤ i < L → Py.slice (chunk i ++ z) None (Some (end_ i - i)) = chunk i.
Proof.
  intros Hi. rewrite slice_to by lia.
  apply take_app_length'. symmetry. now apply chunk_length.
Qed.

Lemma contrib_length (i : Z) :
  0 ≤ i < L → length (contrib i) = Z.to_nat (end_ i - i).
Proof.
  intros Hi. pose proof (chunk_length i Hi) as Hc.
  destruct (Qeq_bool ov 0); [exact Hc|].
  rewrite length_zip_with, hanning_length. lia.
Qed.

(** The invariant of the loop: at every position the result is the
    mixture times the divider. *)
Lemma result_step (r d : list R) (i : Z) :
  0 ≤ i < L →
  Z.of_nat (length r) = L → Z.of_nat (length d) = L →
  (∀ p xp dp, x !! p = Some xp → d !! p = Some dp → r !! p = Some (xp * dp)%R) →
  Z.of_nat (length (slice_add r i (end_ i) (contrib i))) = L
  ∧ ∀ p xp dp,
      x !! p = Some xp →
      slice_add d i (end_ i) (win i) !! p = Some dp →
      slice_add r i (end_ i) (contrib i) !! p = Some (xp * dp)%R.
Proof.
  intros Hi Hr Hd Hinv.
  pose proof (contrib_length i Hi) as Hcl.
  pose proof (win_length cs L ov i) as Hwl.
  split; [rewrite slice_add_length by lia; exact Hr|].
  intros p xp dp Hx Hdp.
  rewrite slice_add_lookup in Hdp by lia.
  rewrite slice_add_lookup by lia.
  destruct (decide (i ≤ Z.of_nat p < end_ i)) as [Hin|Hout];
    [|now apply Hinv].
  destruct (d !! p) as [d0|] eqn:Hd0; [|discriminate Hdp].
  rewrite (Hinv p xp d0 Hx Hd0). cbn in *.
  assert (Hk : Z.of_nat (p - Z.to_nat i) < end_ i - i) by lia.
  pose proof (chunk_lookup i (p - Z.to_nat i) Hi Hk) as Hch.
  replace (Z.to_nat i + (p - Z.to_nat i))%nat with p in Hch by lia.
  rewrite Hx in Hch.
  destruct (Qeq_bool ov 0).
  - rewrite Hch. cbn.
    destruct (replicate (Z.to_nat (end_ i - i)) 1%R !! (p - Z.to_nat i)%nat)
      as [w|] eqn:Hw; [|discriminate Hdp].
    apply lookup_replicate in Hw as [-> _].
    cbn in Hdp. injection Hdp as <-. f_equal. lra.
  - rewrite lookup_zip_with, Hch. cbn.
    destruct (hanning (end_ i - i) !! (p - Z.to_nat i)%nat) as [w|];
      [|discriminate Hdp].
    cbn in *. injection Hdp as <-. f_equal. lra.
Qed.

End ResultRow.

(** ** The chunk loop on a stereo input *)

Section DemixLoop.

Variable stft : list (list R) → list (list (list R)).
Variable run : list (list (list R)) → list (list (list R)).
Variable istft : list (list (list R)) → list (list R).

Lemma demix_chunk_divider (cs : Z) (ov : Q) (mx res dv : list (list R)) (i : Z) :
  (demix_chunk stft run istft cs ov mx (res, dv) i).2
  = map (λ d, slice_add d i (Z.min (i + cs) (Np.shape1 mx))
                (if Qeq_bool ov 0
                 then replicate (Z.to_nat (Z.min (i + cs) (Np.shape1 mx) - i)) 1%R
                 else hanning (Z.min (i + cs) (Np.shape1 mx) - i))) dv.
Proof. unfold demix_chunk. destruct (Qeq_bool ov 0); reflexivity. Qed.

Lemma demix_fold_divider (cs : Z) (ov : Q) (mx : list (list R)) (starts : list Z)
    (res dv : list (list R)) :
  (foldl (demix_chunk stft run istft cs ov mx) (res, dv) starts).2
  = map (λ d, foldl (λ d i,
                 slice_add d i (Z.min (i + cs) (Np.shape1 mx))
                   (if Qeq_bool ov 0
                    then replicate (Z.to_nat (Z.min (i + cs) (Np.shape1 mx) - i)) 1%R
                    else hanning (Z.min (i + cs) (Np.shape1 mx) - i)))
               d starts) dv.
Proof.
  revert res dv. induction starts as [|i starts IH]; intros res dv.
  - simpl. now rewrite map_id.
  - cbn [foldl].
    destruct (demix_chunk stft run istft cs ov mx (res, dv) i) as [res' dv'] eqn:E.
    rewrite IH.
    assert (Hdv : dv' = (demix_chunk stft run istft cs ov mx (res, dv) i).2)
      by now rewrite E.
    rewrite Hdv, demix_chunk_divider, map_map. reflexivity.
Qed.

Section Identity.

(** Every chunk comes back from the backend as it went in. *)
Hypothesis identity : ∀ t, tar_waves stft run istft t = t.

Variables (cs : Z) (ov : Q) (x0 x1 : list R).
Hypothesis cs_pos : 1 ≤ cs.
Hypothesis x1_length : length x1 = length x0.

Local Abbreviation L := (Z.of_nat (length x0)).
Local Abbreviation end_ i := (Z.min (i + cs) L).
Local Abbreviation win i :=
  (if Qeq_bool ov 0 then replicate (Z.to_nat (end_ i - i)) 1%R
   else hanning (end_ i - i)).
Local Abbreviation contrib x i :=
  (if Qeq_bool ov 0 then Py.slice x (Some i%Z) (Some (end_ i))
   else zip_with Rmult (Py.slice x (Some i%Z) (Some (end_ i))) (hanning (end_ i - i))).
Local Abbreviation Inv x r d :=
  (Z.of_nat (length r) = L ∧ Z.of_nat (length d) = L
   ∧ ∀ p xp dp, x !! p = Some xp → d%list !! p = Some dp
                → r%list !! p = Some (xp * dp)%R).

Lemma demix_chunk_identity (r0 r1 d0 d1 : list R) (i : Z) :
  0 ≤ i < L →
  demix_chunk stft run istft cs ov [x0; x1] ([r0; r1], [d0; d1]) i
  = ([slice_add r0 i (end_ i) (contrib x0 i); slice_add r1 i (end_ i) (contrib x1 i)],
     [slice_add d0 i (end_ i) (win i); slice_add d1 i (end_ i) (win i)]).
Proof.
  intros Hi.
  assert (H1 : Z.of_nat (length x1) = L) by lia.
  unfold demix_chunk. rewrite identity.
  change (Np.shape1 [x0; x1]) with L.
  destruct (Qeq_bool ov 0) eqn:Hov.
  - destruct (Z.eqb_spec (end_ i) (i + cs)) as [He|He]; cbn [zip_with map Np.cols
      Np.concatenate replicate].
    + pose proof (plain_contribution cs L x0 cs_pos eq_refl i [] Hi) as P0.
      pose proof (plain_contribution cs L x1 cs_pos H1 i [] Hi) as P1.
      rewrite app_nil_r in P0, P1. now rewrite P0, P1.
    + now rewrite (plain_contribution cs L x0 cs_pos eq_refl i _ Hi),
        (plain_contribution cs L x1 cs_pos H1 i _ Hi).
  - destruct (Z.eqb_spec (end_ i) (i + cs)) as [He|He]; cbn [zip_with map Np.cols
      Np.concatenate replicate].
    + pose proof (windowed_contribution cs L x0 cs_pos eq_refl i [] Hi) as P0.
      pose proof (windowed_contribution cs L x1 cs_pos H1 i [] Hi) as P1.
      rewrite app_nil_r in P0, P1. now rewrite P0, P1.
    + now rewrite (windowed_contribution cs L x0 cs_pos eq_refl i _ Hi),
        (windowed_contribution cs L x1 cs_pos H1 i _ Hi).
Qed.

(** The loop keeps, on both channels, result = mixture * divider. *)
Lemma fold_identity (starts : list Z) :
  Forall (λ i, 0 ≤ i < L) starts →
  ∀ r0 r1 d0 d1,
    Inv x0 r0 d0 → Inv x1 r1 d1 →
    ∃ r0' r1' d0' d1',
      foldl (demix_chunk stft run istft cs ov [x0; x1]) ([r0; r1], [d0; d1]) starts
      = ([r0'; r1'], [d0'; d1'])
      ∧ Inv x0 r0' d0' ∧ Inv x1 r1' d1'.
Proof.
  assert (H1 : Z.of_nat (length x1) = L) by lia.
  induction starts as [|i starts IH]; intros Hs r0 r1 d0 d1 I0 I1.
  - exists r0, r1, d0, d1. auto.
  - apply Forall_cons in Hs as [Hi Hs]. cbn [foldl].
    rewrite demix_chunk_identity by exact Hi.
    destruct I0 as (Lr0 & Ld0 & P0). destruct I1 as (Lr1 & Ld1 & P1).
    destruct (result_step cs L ov x0 cs_pos eq_refl r0 d0 i Hi Lr0 Ld0 P0)
      as [Lr0' P0'].
    destruct (result_step cs L ov x1 cs_pos H1 r1 d1 i Hi Lr1 Ld1 P1)
      as [Lr1' P1'].
    apply IH; [exact Hs| |].
    + split; [exact Lr0'|]. split; [|exact P0'].
      now apply (stepD_length cs L ov cs_pos).
    + split; [exact Lr1'|]. split; [|exact P1'].
      now apply (stepD_length cs L ov cs_pos).
Qed.

End Identity.

Variable m : Conv_TDF_net_trim_model.
Variable ov : Q.
Variables m0 m1 : list R.
Hypothesis same_length : length m1 = length m0.
Hypothesis trim_nonneg : 0 ≤ trim m.
Hypothesis gen_pos : 0 < gen_size m.

Local Abbreviation N := (Z.of_nat (length m0)).
Local Abbreviation L := (trim m + N + pad m N).
Local Abbreviation padded x :=
  ((replicate (Z.to_nat (trim m)) 0%R ++ x) ++ replicate (Z.to_nat (pad m N)) 0%R).
Local Abbreviation zeros := (replicate (Z.to_nat L) 0%R).

Lemma pad_bounds : trim m < pad m N ≤ gen_size m + trim m.
Proof. pose proof (Z.mod_pos_bound N (gen_size m) gen_pos). unfold pad. lia. Qed.

Lemma padded_ge_chunk : chunk_size m ≤ L.
Proof.
  pose proof (Z.mod_le N (gen_size m) ltac:(lia) gen_pos).
  unfold pad, gen_size in *. lia.
Qed.

Lemma padded_length (x : list R) :
  length x = length m0 → Z.of_nat (length (padded x)) = L.
Proof.
  intros Hx. pose proof pad_bounds.
  rewrite !length_app, !length_replicate. lia.
Qed.

Lemma padded_lookup (x : list R) (j : nat) :
  (j < length x)%nat → padded x !! (Z.to_nat (trim m) + j)%nat = x !! j.
Proof.
  intros Hj.
  rewrite lookup_app_l by (rewrite length_app, length_replicate; lia).
  rewrite lookup_app_r by (rewrite length_replicate; lia).
  rewrite length_replicate. f_equal. lia.
Qed.

Lemma mixture_stereo : mixture m [m0; m1] = Some [padded m0; padded m1].
Proof.
  pose proof pad_bounds as Hpad. unfold mixture.
  destruct (Z.eqb_spec (gen_size m) 0) as [|_]; [lia|].
  destruct (Z.ltb_spec (trim m) 0) as [|_]; [lia|].
  change (Np.shape1 [m0; m1]) with N.
  destruct (Z.ltb_spec (pad m N) 0) as [|_]; [lia|].
  reflexivity.
Qed.

(** On a stereo input the loop runs to its end over the chunk starts. *)
Lemma demix_loop_stereo :
  0 < step m ov →
  ∃ starts,
    Py.range 0 L (step m ov) = Some starts
    ∧ Forall (λ i, 0 ≤ i < L) starts
    ∧ (∀ k, 0 ≤ k → k * step m ov < L → k * step m ov ∈ starts)
    ∧ Forall (λ i, ∃ k, 0 ≤ k ∧ i = k * step m ov) starts
    ∧ demix_loop stft run istft [m0; m1] [m] ov
      = Some (foldl (demix_chunk stft run istft (chunk_size m) ov
                       [padded m0; padded m1])
                (replicate 2 zeros, replicate 2 zeros) starts).
Proof.
  intros Hstep.
  destruct (range_starts L (step m ov) Hstep) as (starts & Hr & Hb & Hk & Hm).
  exists starts. split; [exact Hr|]. split; [exact Hb|]. split; [exact Hk|].
  split; [exact Hm|].
  unfold demix_loop. cbn [head mbind option_bind].
  rewrite mixture_stereo. cbn [mbind option_bind].
  assert (Hs : Np.shape1 [padded m0; padded m1] = L)
    by (apply (padded_length m0); reflexivity).
  rewrite Hs, Hr. reflexivity.
Qed.

(** Both rows of the divider are the row of zeros taken through every
    chunk. *)
Lemma divider_rows (starts : list Z) :
  (foldl (demix_chunk stft run istft (chunk_size m) ov [padded m0; padded m1])
     (replicate 2 zeros, replicate 2 zeros) starts).2
  = replicate 2
      (foldl (λ d i,
         slice_add d i (Z.min (i + chunk_size m) L)
           (if Qeq_bool ov 0
            then replicate (Z.to_nat (Z.min (i + chunk_size m) L - i)) 1%R
            else hanning (Z.min (i + chunk_size m) L - i)))
         zeros starts).
Proof.
  rewrite demix_fold_divider.
  assert (Hs : Np.shape1 [padded m0; padded m1] = L)
    by (apply (padded_length m0); reflexivity).
  rewrite Hs. reflexivity.
Qed.

End DemixLoop.

(** The loop and its divider for a stride that suits the window: the
    whole chunk without a window, at most [chunk_size - 2] with it. *)
Lemma chunk_loop_divider
    (stft : list (list R) → list (list (list R)))
    (run : list (list (list R)) → list (list (list R)))
    (istft : list (list (list R)) → list (list R))
    (m : Conv_TDF_net_trim_model) (ov : Q) (m0 m1 : list R) :
  length m1 = length m0 → 1 ≤ trim m → 0 < gen_size m →
  (Qeq_bool ov 0 = true ∧ step m ov = chunk_size m)
  ∨ (Qeq_bool ov 0 = false ∧ 1 ≤ step m ov ≤ chunk_size m - 2) →
  ∃ starts res row,
    Forall (λ i, 0 ≤ i < trim m + Z.of_nat (length m0) + pad m (Z.of_nat (length m0)))
      starts
    ∧ demix_loop stft run istft [m0; m1] [m] ov = Some (res, replicate 2 row)
    ∧ foldl (demix_chunk stft run istft (chunk_size m) ov
               [(replicate (Z.to_nat (trim m)) 0%R ++ m0)
                ++ replicate (Z.to_nat (pad m (Z.of_nat (length m0)))) 0%R;
                (replicate (Z.to_nat (trim m)) 0%R ++ m1)
                ++ replicate (Z.to_nat (pad m (Z.of_nat (length m0)))) 0%R])
        (replicate 2
           (replicate
              (Z.to_nat (trim m + Z.of_nat (length m0) + pad m (Z.of_nat (length m0))))
              0%R),
         replicate 2
           (replicate
              (Z.to_nat (trim m + Z.of_nat (length m0) + pad m (Z.of_nat (length m0))))
              0%R))
        starts
      = (res, replicate 2 row)
    ∧ Z.of_nat (length row)
      = trim m + Z.of_nat (length m0) + pad m (Z.of_nat (length m0))
    ∧ (∀ p, trim m ≤ Z.of_nat p < trim m + Z.of_nat (length m0) →
            ∃ d, row !! p = Some d ∧ (0 < d)%R)
    ∧ (Qeq_bool ov 0 = true → ∀ p d, row !! p = Some d → (0 < d)%R).
Proof.
  intros Hsame Htrim Hgen Hstep.
  assert (Hcs : 1 ≤ chunk_size m) by (unfold gen_size in Hgen; lia).
  assert (Hstep0 : 0 < step m ov) by (destruct Hstep as [[_ ->]|[_ ?]]; lia).
  destruct (demix_loop_stereo stft run istft m ov m0 m1 Hsame
              ltac:(lia) Hgen Hstep0) as (starts & Hr & Hb & Hk & _ & Hloop).
  pose proof (pad_bounds m m0 m1 Hsame Hgen) as Hpad.
  pose proof (divider_rows stft run istft m ov m0 m1 Hsame ltac:(lia) Hgen starts)
    as Hrows.
  set (N := Z.of_nat (length m0)) in *.
  set (L := trim m + N + pad m N) in *.
  set (row := foldl _ (replicate (Z.to_nat L) 0%R) starts) in Hrows.
  set (st := foldl _ _ starts) in *.
  assert (Hz : Z.of_nat (length (replicate (Z.to_nat L) 0%R)) = L)
    by (rewrite length_replicate; lia).
  assert (Hz0 : ∀ p, 0 ≤ Z.of_nat p < L → replicate (Z.to_nat L) 0%R !! p = Some 0%R).
  { intros p Hp. apply lookup_replicate. split; [reflexivity|lia]. }
  assert (Hlen : Z.of_nat (length row) = L)
    by (apply (foldD_length (chunk_size m) L ov Hcs starts _ Hb Hz)).
  exists starts, st.1, row.
  assert (Hst : st = (st.1, replicate 2 row))
    by (rewrite <- Hrows; apply surjective_pairing).
  split; [exact Hb|]. split; [now rewrite Hloop, <- Hst|].
  split; [exact Hst|]. split; [exact Hlen|]. split.
  - intros p Hp. assert (HpL : 1 ≤ Z.of_nat p < L - 1) by lia.
    destruct Hstep as [[H0 Hs]|[Hf Hs]].
    + destruct (in_some_chunk (chunk_size m) L (Z.of_nat p) Hcs ltac:(lia))
        as (k & Hk0 & HkL & Hcov).
      apply (foldD_pos (chunk_size m) L ov Hcs starts _ p 0%R (k * chunk_size m)
               Hb Hz (Hz0 p ltac:(lia)) ltac:(lra)).
      * rewrite <- Hs. apply Hk; [exact Hk0|now rewrite Hs].
      * exact Hcov.
      * now left.
    + destruct (inside_some_chunk (chunk_size m) L (step m ov) (Z.of_nat p) Hs HpL)
        as (k & Hk0 & HkL & Hcov).
      apply (foldD_pos (chunk_size m) L ov Hcs starts _ p 0%R (k * step m ov)
               Hb Hz (Hz0 p ltac:(lia)) ltac:(lra)).
      * now apply Hk.
      * lia.
      * now right.
  - intros H0 p d Hd.
    destruct Hstep as [[_ Hs]|[Hf _]]; [|congruence].
    assert (HpL : 0 ≤ Z.of_nat p < L) by (apply lookup_lt_Some in Hd; lia).
    destruct (in_some_chunk (chunk_size m) L (Z.of_nat p) Hcs HpL)
      as (k & Hk0 & HkL & Hcov).
    destruct (foldD_pos (chunk_size m) L ov Hcs starts _ p 0%R (k * chunk_size m)
                Hb Hz (Hz0 p HpL) ltac:(lra)) as (y & Hy & Hypos).
    + rewrite <- Hs. apply Hk; [exact Hk0|now rewrite Hs].
    + exact Hcov.
    + now left.
    + subst row. congruence.
Qed.

(** ** The output slices *)

Lemma slice_lookup_from {A} (l : list A) (lo : Z) (hi : option Z) (j : nat) (x : A) :
  0 ≤ lo → Py.slice l (Some lo) hi !! j = Some x →
  l !! (Z.to_nat lo + j)%nat = Some x.
Proof.
  intros Hlo. unfold Py.slice. cbn [from_option].
  intros H. apply lookup_take_Some in H as [H _].
  rewrite lookup_drop in H.
  assert (Hlt : (Z.to_nat (Py.index (Z.of_nat (length l)) lo) + j < length l)%nat)
    by (eapply lookup_lt_Some; exact H).
  unfold Py.index in *. destruct (Z.ltb_spec lo 0); [lia|].
  replace (Z.to_nat lo) with (Z.to_nat (lo `min` Z.of_nat (length l))) by lia.
  exact H.
Qed.

Lemma slice_lookup_to {A} (l : list A) (n : Z) (j : nat) (x : A) :
  0 ≤ n → Py.slice l None (Some n) !! j = Some x →
  l !! j = Some x ∧ Z.of_nat j < n.
Proof.
  intros Hn. rewrite slice_to by exact Hn. intros H.
  apply lookup_take_Some in H as [H Hj]. split; [exact H|lia].
Qed.

(** [l[t:-t]] for a positive [t] that leaves something. *)
Lemma slice_trim {A} (l : list A) (t : Z) :
  1 ≤ t → 2 * t ≤ Z.of_nat (length l) →
  Py.slice l (Some t) (Some (- t))
  = take (Z.to_nat (Z.of_nat (length l) - 2 * t)) (drop (Z.to_nat t) l).
Proof.
  intros Ht Hl. unfold Py.slice, Py.index. cbn [from_option].
  destruct (Z.ltb_spec t 0); [lia|]. destruct (Z.ltb_spec (- t) 0); [|lia].
  f_equal; [|f_equal]; lia.
Qed.

Lemma fl_div_finite (x d : R) : (0 < d)%R → fl_div x d = Some (x / d)%R.
Proof. intros Hd. unfold fl_div. destruct (Req_dec_T d 0); [lra|reflexivity]. Qed.

Lemma fl_div_zero (x : R) : fl_div x 0 = None.
Proof. unfold fl_div. destruct (Req_dec_T 0 0); [reflexivity|contradiction]. Qed.

Lemma demix_some
    (stft : list (list R) → list (list (list R)))
    (run : list (list (list R)) → list (list (list R)))
    (istft : list (list (list R)) → list (list R))
    (m : Conv_TDF_net_trim_model) (ov : Q) (mix res dv : list (list R)) :
  demix_loop stft run istft mix [m] ov = Some (res, dv) →
  demix stft run istft mix [m] ov
  = Some (Np.cols (Np.cols (Np.map2 fl_div res dv)
                     (Some (trim m)) (Some (- trim m)))
            None (Some (Np.shape1 mix))).
Proof.
  intros H. unfold demix. cbn [head mbind option_bind]. rewrite H. reflexivity.
Qed.

(** A sample of the output of [demix] is the quotient of the
    accumulators [trim] positions further on. *)
Lemma demix_output_sample (res dv : list (list R)) (t n : Z) (c j : nat) (x : Fl) :
  0 ≤ t → 0 ≤ n →
  Arr.at2 (Np.cols (Np.cols (Np.map2 fl_div res dv) (Some t) (Some (- t)))
             None (Some n)) c j = Some x →
  Z.of_nat j < n
  ∧ ∃ r d, Arr.at2 res c (Z.to_nat t + j) = Some r
           ∧ Arr.at2 dv c (Z.to_nat t + j) = Some d
           ∧ x = fl_div r d.
Proof.
  intros Ht Hn Hx.
  unfold Arr.at2, Np.cols in Hx. rewrite !list_lookup_fmap in Hx.
  unfold Arr.at2.
  destruct (Np.map2 fl_div res dv !! c) as [row|] eqn:Hrow;
    [|discriminate Hx].
  cbn in Hx.
  apply slice_lookup_to in Hx as [Hx Hj]; [|exact Hn].
  apply slice_lookup_from in Hx; [|exact Ht].
  split; [exact Hj|].
  unfold Np.map2 in Hrow. rewrite lookup_zip_with in Hrow.
  destruct (res !! c) as [r_row|]; [|discriminate Hrow].
  destruct (dv !! c) as [d_row|]; [|discriminate Hrow].
  cbn in Hrow. injection Hrow as <-.
  rewrite lookup_zip_with in Hx. cbn.
  destruct (r_row !! (Z.to_nat t + j)%nat) as [r|]; [|discriminate Hx].
  destruct (d_row !! (Z.to_nat t + j)%nat) as [d|]; [|discriminate Hx].
  cbn in Hx. injection Hx as <-. eauto.
Qed.

Lemma stereo_rows {A} (mix : list (list A)) (N : Z) :
  length mix = 2%nat → Forall (λ row, Z.of_nat (length row) = N) mix →
  ∃ m0 m1, mix = [m0; m1] ∧ length m1 = length m0 ∧ Z.of_nat (length m0) = N.
Proof.
  intros Hl Hr. destruct mix as [|m0 [|m1 [|]]]; try discriminate Hl.
  apply Forall_cons in Hr as [H0 Hr]. apply Forall_cons in Hr as [H1 _].
  exists m0, m1. split; [reflexivity|]. split; lia.
Qed.

Lemma at2_replicate_2 {A} (row : list A) (c p : nat) :
  (c < 2)%nat → Arr.at2 (replicate 2 row) c p = row !! p.
Proof. intros Hc. destruct c as [|[|c]]; [reflexivity|reflexivity|lia]. Qed.

Lemma at2_replicate_2_inv {A} (row : list A) (c p : nat) (x : A) :
  Arr.at2 (replicate 2 row) c p = Some x → (c < 2)%nat ∧ row !! p = Some x.
Proof.
  destruct c as [|[|c]]; cbn; intros H; try discriminate H; split; auto; lia.
Qed.

(** ** The shape of the result through the chunk loop *)

Section DemixShapes.

Variable stft : list (list R) → list (list (list R)).
Variable run : list (list (list R)) → list (list (list R)).
Variable istft : list (list (list R)) → list (list R).
Hypothesis backend_shape : ∀ t, Np.shape (tar_waves stft run istft t) = Np.shape t.

Variables (cs L : Z) (ov : Q) (x0 x1 : list R).
Hypothesis cs_pos : 1 ≤ cs.
Hypothesis x0_length : Z.of_nat (length x0) = L.
Hypothesis x1_length : Z.of_nat (length x1) = L.

Local Abbreviation RInv res :=
  (length res = 2%nat ∧ Forall (λ row : list R, Z.of_nat (length row) = L) res).

Lemma demix_chunk_result_shape (res dv : list (list R)) (i : Z) :
  0 ≤ i < L → RInv res →
  RInv (demix_chunk stft run istft cs ov [x0; x1] (res, dv) i).1.
Proof.
  intros Hi [Hlen Hrows]. unfold demix_chunk.
  change (Np.shape1 [x0; x1]) with (Z.of_nat (length x0)). rewrite x0_length.
  set (e := Z.min (i + cs) L).
  set (part := if e =? i + cs then _ else _).
  assert (Hpart : Np.shape part = [Z.to_nat cs; Z.to_nat cs]).
  { subst part. unfold Np.cols. cbn [map].
    destruct (Z.eqb_spec e (i + cs)) as [He|He].
    - cbn. rewrite !slice_inside by lia.
      rewrite !length_take, !length_drop. f_equal; [|f_equal]; lia.
    - cbn. rewrite !length_app, !length_replicate, !slice_inside by lia.
      rewrite !length_take, !length_drop. f_equal; [|f_equal]; lia. }
  pose proof (backend_shape part) as Htw. rewrite Hpart in Htw.
  destruct (tar_waves stft run istft part) as [|t0 [|t1 [|t2 tw]]];
    try discriminate Htw.
  injection Htw as Ht0 Ht1.
  destruct res as [|r0 [|r1 [|r2 res]]]; try discriminate Hlen.
  apply Forall_cons in Hrows as [Hr0 Hrows].
  apply Forall_cons in Hrows as [Hr1 _].
  assert (Hpm : ∀ t : list R, length t = Z.to_nat cs →
            length (prefix_mul t (e - i) (hanning (e - i))) = Z.to_nat cs).
  { intros t Ht. unfold prefix_mul.
    rewrite length_app, length_zip_with, hanning_length.
    rewrite slice_to, slice_from by lia.
    rewrite length_take, length_drop. lia. }
  assert (Hw : ∀ t : list R, length t = Z.to_nat cs →
            length (Py.slice t None (Some (e - i))) = Z.to_nat (e - i)).
  { intros t Ht. rewrite slice_to by lia. rewrite length_take. lia. }
  destruct (Qeq_bool ov 0); cbn [fst zip_with map length].
  - split; [reflexivity|].
    repeat constructor; rewrite slice_add_length; auto; lia.
  - split; [reflexivity|].
    repeat constructor; rewrite slice_add_length; auto; lia.
Qed.

Lemma demix_fold_result_shape (starts : list Z) (res dv : list (list R)) :
  Forall (λ i, 0 ≤ i < L) starts → RInv res →
  RInv (foldl (demix_chunk stft run istft cs ov [x0; x1]) (res, dv) starts).1.
Proof.
  revert res dv. induction starts as [|i starts IH]; intros res dv Hs HI;
    [exact HI|].
  apply Forall_cons in Hs as [Hi Hs]. cbn [foldl].
  destruct (demix_chunk stft run istft cs ov [x0; x1] (res, dv) i)
    as [res' dv'] eqn:E.
  apply IH; [exact Hs|].
  change res' with (res', dv').1. rewrite <- E.
  now apply demix_chunk_result_shape.
Qed.

End DemixShapes.

Lemma step_positive (m : Conv_TDF_net_trim_model) (ov : Q) :
  (1 <= (1 - ov) * inject_Z (chunk_size m))%Q → 1 ≤ step m ov.
Proof.
  intros Hq. unfold step, Py.int.
  set (q := ((1 - ov) * inject_Z (chunk_size m))%Q) in *.
  assert (H0 : Qle_bool 0 q = true).
  { apply Qle_bool_iff. eapply Qle_trans; [|exact Hq]. discriminate. }
  rewrite H0. rewrite <- (Qfloor_Z 1). now apply Qfloor_resp_le.
Qed.

(** Both rows of what [demix] returns on a stereo input, when the
    stride is at least 1 and the backend returns chunks of the shape it
    was given. *)
Lemma demix_rows
    (stft : list (list R) → list (list (list R)))
    (run : list (list (list R)) → list (list (list R)))
    (istft : list (list (list R)) → list (list R))
    (m : Conv_TDF_net_trim_model) (ov : Q) (m0 m1 : list R) :
  (∀ t, Np.shape (tar_waves stft run istft t) = Np.shape t) →
  length m1 = length m0 → 1 ≤ trim m → 0 < gen_size m → 1 ≤ step m ov →
  ∃ o0 o1,
    demix stft run istft [m0; m1] [m] ov = Some [o0; o1]
    ∧ length o0 = length m0 ∧ length o1 = length m0.
Proof.
  intros Hback Hm1 Htrim Hgen Hs.
  pose proof (pad_bounds m m0 m1 Hm1 Hgen) as Hpad.
  assert (Hcs : 1 ≤ chunk_size m) by (unfold gen_size in Hgen; lia).
  destruct (demix_loop_stereo stft run istft m ov m0 m1 Hm1 ltac:(lia) Hgen
              ltac:(lia)) as (starts & _ & Hin & _ & _ & Hloop).
  set (L := trim m + Z.of_nat (length m0) + pad m (Z.of_nat (length m0))) in *.
  set (p0 := (replicate (Z.to_nat (trim m)) 0%R ++ m0)
             ++ replicate (Z.to_nat (pad m (Z.of_nat (length m0)))) 0%R) in *.
  set (p1 := (replicate (Z.to_nat (trim m)) 0%R ++ m1)
             ++ replicate (Z.to_nat (pad m (Z.of_nat (length m0)))) 0%R) in *.
  assert (Hp0 : Z.of_nat (length p0) = L).
  { apply (padded_length m m0 m1 Hm1 ltac:(lia) Hgen m0). reflexivity. }
  assert (Hp1 : Z.of_nat (length p1) = L).
  { apply (padded_length m m0 m1 Hm1 ltac:(lia) Hgen m1). exact Hm1. }
  pose proof (divider_rows stft run istft m ov m0 m1 Hm1 ltac:(lia) Hgen starts)
    as Hdv.
  fold L p0 p1 in Hdv.
  pose proof (demix_fold_result_shape stft run istft Hback (chunk_size m) L ov
                p0 p1 Hcs Hp0 Hp1 starts
                (replicate 2 (replicate (Z.to_nat L) 0%R))
                (replicate 2 (replicate (Z.to_nat L) 0%R)) Hin) as [Hr2 Hrrows].
  { split; [reflexivity|].
    repeat constructor; rewrite length_replicate; lia. }
  pose proof (foldD_length (chunk_size m) L ov Hcs starts
                (replicate (Z.to_nat L) 0%R) Hin
                ltac:(rewrite length_replicate; lia)) as Hrowlen.
  destruct (foldl _ _ starts) as [res dv] eqn:Hfold.
  cbn [fst snd] in *. subst dv.
  set (row := foldl _ (replicate (Z.to_nat L) 0%R) starts) in *.
  rewrite (demix_some _ _ _ _ _ _ _ _ Hloop).
  destruct res as [|r0 [|r1 [|r2 res]]]; try discriminate Hr2.
  apply Forall_cons in Hrrows as [Hr0 Hrrows].
  apply Forall_cons in Hrrows as [Hr1 _].
  unfold Np.map2, Np.cols. cbn [zip_with replicate map Np.shape1].
  eexists _, _. split; [reflexivity|].
  rewrite !slice_trim by (try rewrite length_zip_with; lia).
  rewrite !slice_to by lia.
  rewrite !length_take, !length_drop, !length_zip_with.
  split; lia.
Qed.

Lemma synthetic_identity (t : list (list R)) :
  tar_waves synthetic_stft synthetic_run synthetic_istft t = t.
Proof.
  unfold tar_waves, res, stft_res, synthetic_run, synthetic_stft, zero_low_bins.
  cbn [map]. rewrite slice_to, slice_from by lia. reflexivity.
Qed.

(** The stride that an admissible overlap gives. *)
Lemma admissible_stride (m : Conv_TDF_net_trim_model) (ov : Q) :
  Qeq_bool ov 0 = true
  ∨ (100 ≤ chunk_size m
     ∧ (1 < ov * inject_Z (chunk_size m))%Q ∧ (ov <= 99 # 100)%Q) →
  (Qeq_bool ov 0 = true ∧ step m ov = chunk_size m)
  ∨ (Qeq_bool ov 0 = false ∧ 1 ≤ step m ov ≤ chunk_size m - 2).
Proof.
  intros [H0|(H100 & Hlo & Hhi)].
  - left. split; [exact H0|now apply step_no_overlap].
  - right. now apply step_windowed.
Qed.

(** An overlap of two samples or more in every chunk: the margin of one
    sample over [1 < overlap * chunk_size] keeps the stride at
    [chunk_size - 2] or less in the code's double arithmetic as well. *)
Lemma two_samples_of_overlap (m : Conv_TDF_net_trim_model) (ov : Q) :
  Qeq_bool ov 0 = true
  ∨ (100 ≤ chunk_size m < 2 ^ 31
     ∧ (2 <= ov * inject_Z (chunk_size m))%Q ∧ (ov <= 99 # 100)%Q) →
  Qeq_bool ov 0 = true
  ∨ (100 ≤ chunk_size m
     ∧ (1 < ov * inject_Z (chunk_size m))%Q ∧ (ov <= 99 # 100)%Q).
Proof.
  intros [H0|(Hcs & Hlo & Hhi)]; [now left|right].
  split; [lia|]. split; [|exact Hhi].
  eapply Qlt_le_trans; [|exact Hlo]. reflexivity.
Qed.

(** C3, as the code has it.  For a stereo input of [N] samples, a
    backend that returns chunks of the shape it is given, a model with
    a positive trim and generation size, and an overlap that is 0 or
    lies between [2 / chunk_size] and 0.99, [demix] returns an array
    of the shape of the input, the divider after the chunk loop is
    strictly positive at every position of the valid region
    [trim, trim + N), and so every sample that [demix] returns is
    finite; with overlap 0 the divider is positive at every
    position. *)
Theorem divider_positive_in_valid_region
    (stft : list (list R) → list (list (list R)))
    (run : list (list (list R)) → list (list (list R)))
    (istft : list (list (list R)) → list (list R))
    (m : Conv_TDF_net_trim_model) (ov : Q) (mix : list (list R)) (N : Z) :
  (∀ t, Np.shape (tar_waves stft run istft t) = Np.shape t) →
  length mix = 2%nat →
  Forall (λ row, Z.of_nat (length row) = N) mix →
  1 ≤ trim m → 0 < gen_size m →
  Qeq_bool ov 0 = true
  ∨ (100 ≤ chunk_size m < 2 ^ 31
     ∧ (2 <= ov * inject_Z (chunk_size m))%Q ∧ (ov <= 99 # 100)%Q) →
  ∃ res dv out,
    demix_loop stft run istft mix [m] ov = Some (res, dv)
    ∧ demix stft run istft mix [m] ov = Some out
    ∧ Np.shape out = Np.shape mix
    ∧ (∀ c p, (c < 2)%nat → trim m ≤ Z.of_nat p < trim m + N →
              ∃ d, Arr.at2 dv c p = Some d ∧ (0 < d)%R)
    ∧ (∀ c j x, Arr.at2 out c j = Some x → is_Some x)
    ∧ (Qeq_bool ov 0 = true →
       ∀ c p d, Arr.at2 dv c p = Some d → (0 < d)%R).
Proof.
  intros Hback Hlen Hrows Htrim Hgen Hov.
  apply two_samples_of_overlap in Hov.
  destruct (stereo_rows mix N Hlen Hrows) as (m0 & m1 & -> & Hsame & HN).
  pose proof (admissible_stride m ov Hov) as Hstride.
  assert (Hcs : 1 ≤ chunk_size m) by (unfold gen_size in Hgen; lia).
  assert (Hstep : 1 ≤ step m ov) by (destruct Hstride as [[_ ->]|[_ ?]]; lia).
  destruct (chunk_loop_divider stft run istft m ov m0 m1 Hsame Htrim Hgen Hstride)
    as (starts & res & row & Hb & Hloop & _ & Hrow & Hpos & Hall).
  destruct (demix_rows stft run istft m ov m0 m1 Hback Hsame Htrim Hgen Hstep)
    as (o0 & o1 & Hout & Ho0 & Ho1).
  pose proof Hout as Hout'.
  rewrite (demix_some _ _ _ _ _ _ _ _ Hloop) in Hout'. injection Hout' as Hcols.
  rewrite HN in *.
  exists res, (replicate 2 row), [o0; o1].
  split; [exact Hloop|]. split; [exact Hout|]. split; [|split; [|split]].
  - unfold Np.shape. cbn [map]. now rewrite Ho0, Ho1, Hsame.
  - intros c p Hc Hp. rewrite at2_replicate_2 by exact Hc. now apply Hpos.
  - intros c j x Hx. rewrite <- Hcols in Hx.
    apply demix_output_sample in Hx as (Hj & r & d & _ & Hd & ->); [|lia..].
    apply at2_replicate_2_inv in Hd as [Hc Hd].
    destruct (Hpos (Z.to_nat (trim m) + j)%nat ltac:(lia)) as (d' & Hd' & Hpos').
    assert (d = d') by congruence. subst d'.
    rewrite fl_div_finite by exact Hpos'. eauto.
  - intros H0 c p d Hd.
    apply at2_replicate_2_inv in Hd as [Hc Hd]. now apply (Hall H0 p).
Qed.

Lemma divider_positive_in_valid_region_witness :
  ∃ out,
    demix synthetic_stft synthetic_run synthetic_istft [[1]; [2]]%R
      (get_models 2) (1 # 8)
    = Some out
    ∧ Np.shape out = Np.shape [[1]; [2]]%R
    ∧ ∀ c j x, Arr.at2 out c j = Some x → is_Some x.
Proof.
  destruct (divider_positive_in_valid_region
              synthetic_stft synthetic_run synthetic_istft
              {| dim_c := 4; dim_f := 3072; dim_t := 256; n_fft := 7680;
                 hop := 1024 |}
              (1 # 8) [[1]; [2]]%R 1)
    as (res & dv & out & _ & Hout & Hshape & _ & Hfin & _).
  - intros t. now rewrite synthetic_identity.
  - reflexivity.
  - repeat constructor.
  - vm_compute. discriminate.
  - reflexivity.
  - right. split; [split; [vm_compute; discriminate|reflexivity]|].
    split; vm_compute; discriminate.
  - exists out. split; [exact Hout|]. split; [exact Hshape|exact Hfin].
Defined.

(** ** Where the divider stays zero *)

(** A position that every chunk either misses or holds at an end of its
    window has a zero divider after the loop. *)
Lemma divider_zero
    (stft : list (list R) → list (list (list R)))
    (run : list (list (list R)) → list (list (list R)))
    (istft : list (list (list R)) → list (list R))
    (m : Conv_TDF_net_trim_model) (ov : Q) (m0 m1 : list R) (L : Z) (p : nat) :
  length m1 = length m0 → 0 ≤ trim m → 0 < gen_size m → 0 < step m ov →
  L = trim m + Z.of_nat (length m0) + pad m (Z.of_nat (length m0)) →
  0 ≤ Z.of_nat p < L →
  (∀ k, 0 ≤ k → k * step m ov < L →
        ¬ (k * step m ov ≤ Z.of_nat p < Z.min (k * step m ov + chunk_size m) L)
        ∨ (Qeq_bool ov 0 = false
           ∧ 2 ≤ Z.min (k * step m ov + chunk_size m) L - k * step m ov
           ∧ (Z.of_nat p = k * step m ov
              ∨ Z.of_nat p = Z.min (k * step m ov + chunk_size m) L - 1))) →
  ∃ starts res row,
    Py.range 0 L (step m ov) = Some starts
    ∧ (∀ k, 0 ≤ k → k * step m ov < L → k * step m ov ∈ starts)
    ∧ demix_loop stft run istft [m0; m1] [m] ov = Some (res, replicate 2 row)
    ∧ row !! p = Some 0%R.
Proof.
  intros Hsame Htrim Hgen Hstep -> Hp Hbad.
  assert (Hcs : 1 ≤ chunk_size m) by (unfold gen_size in Hgen; lia).
  destruct (demix_loop_stereo stft run istft m ov m0 m1 Hsame Htrim Hgen Hstep)
    as (starts & Hr & Hb & Hk & Hm & Hloop).
  pose proof (divider_rows stft run istft m ov m0 m1 Hsame Htrim Hgen starts)
    as Hrows.
  set (L := trim m + Z.of_nat (length m0) + pad m (Z.of_nat (length m0))) in *.
  set (row := foldl _ (replicate (Z.to_nat L) 0%R) starts) in Hrows.
  set (st := foldl _ _ starts) in *.
  exists starts, st.1, row.
  split; [exact Hr|]. split; [exact Hk|]. split.
  - rewrite Hloop. f_equal. rewrite <- Hrows. apply surjective_pairing.
  - apply (foldD_zero (chunk_size m) L ov Hcs starts _ p Hb).
    + rewrite length_replicate. lia.
    + apply lookup_replicate. split; [reflexivity|lia].
    + apply Forall_forall. intros i Hi.
      pose proof (proj1 (Forall_forall _ _) Hb i Hi) as HiL.
      destruct (proj1 (Forall_forall _ _) Hm i Hi) as (k & Hk0 & ->).
      now apply Hbad.
Qed.

(** With a window the first sample of the padded mixture, which only
    the first chunk covers, has a zero divider. *)
Lemma divider_zero_at_origin
    (stft : list (list R) → list (list (list R)))
    (run : list (list (list R)) → list (list (list R)))
    (istft : list (list (list R)) → list (list R))
    (m : Conv_TDF_net_trim_model) (ov : Q) (m0 m1 : list R) (L : Z) :
  length m1 = length m0 → 0 ≤ trim m → 0 < gen_size m → 0 < step m ov →
  L = trim m + Z.of_nat (length m0) + pad m (Z.of_nat (length m0)) →
  Qeq_bool ov 0 = false → 2 ≤ chunk_size m →
  ∃ starts res dv,
    Py.range 0 L (step m ov) = Some starts
    ∧ covered (chunk_size m) L starts 0
    ∧ demix_loop stft run istft [m0; m1] [m] ov = Some (res, dv)
    ∧ Arr.at2 dv 0 0 = Some 0%R.
Proof.
  intros Hsame Htrim Hgen Hstep HL Hov Hcs.
  pose proof (padded_ge_chunk m m0 m1 Hsame Hgen) as HLcs. rewrite <- HL in HLcs.
  destruct (divider_zero stft run istft m ov m0 m1 L 0%nat
              Hsame Htrim Hgen Hstep HL ltac:(lia))
    as (starts & res & row & Hr & Hk & Hloop & Hrow).
  - intros k Hk0 HkL. destruct (Z.eq_dec k 0) as [->|Hne].
    + right. split; [exact Hov|]. lia.
    + left. nia.
  - exists starts, res, (replicate 2 row).
    split; [exact Hr|]. split; [|split; [exact Hloop|exact Hrow]].
    exists 0. split; [|lia].
    specialize (Hk 0 ltac:(lia) ltac:(lia)). exact Hk.
Qed.

(** C3 as stated fails: with the identity backend and overlap 0.5 the
    first sample of the padded mixture lies in the first chunk, and
    the divider there is 0 after the loop, the Hann window being 0 at
    the start of a chunk. *)
Lemma divider_zero_at_first_sample :
  (∀ t, Np.shape (tar_waves synthetic_stft synthetic_run synthetic_istft t)
        = Np.shape t)
  ∧ ∃ starts res dv,
      Py.range 0 261120 (step {| dim_c := 4; dim_f := 3072; dim_t := 256;
                                 n_fft := 7680; hop := 1024 |} (1 # 2))
      = Some starts
      ∧ covered 261120 261120 starts 0
      ∧ demix_loop synthetic_stft synthetic_run synthetic_istft
          [[0]; [0]]%R (get_models 2) (1 # 2)
        = Some (res, dv)
      ∧ Arr.at2 dv 0 0 = Some 0%R.
Proof.
  split; [intros t; now rewrite synthetic_identity|].
  apply (divider_zero_at_origin synthetic_stft synthetic_run synthetic_istft
           {| dim_c := 4; dim_f := 3072; dim_t := 256; n_fft := 7680;
              hop := 1024 |} (1 # 2) [0%R] [0%R] 261120).
  - reflexivity.
  - vm_compute. discriminate.
  - reflexivity.
  - reflexivity.
  - reflexivity.
  - reflexivity.
  - vm_compute. discriminate.
Qed.

(** ** Overlap-add of unchanged chunks *)

(** One row of the output: where the divider is positive and the result
    is the mixture times the divider, the trimmed quotient is the input
    row. *)
Lemma output_row (r row x mc : list R) (t L : Z) :
  1 ≤ t → Z.of_nat (length mc) + 2 * t ≤ L →
  Z.of_nat (length r) = L → Z.of_nat (length row) = L →
  (∀ j, (j < length mc)%nat → x !! (Z.to_nat t + j)%nat = mc !! j) →
  (∀ p xp dp, x !! p = Some xp → row !! p = Some dp → r !! p = Some (xp * dp)%R) →
  (∀ p, t ≤ Z.of_nat p < t + Z.of_nat (length mc) →
        ∃ d, row !! p = Some d ∧ (0 < d)%R) →
  Py.slice (Py.slice (zip_with fl_div r row) (Some t) (Some (- t)))
    None (Some (Z.of_nat (length mc)))
  = map Some mc.
Proof.
  intros Ht HL Hr Hrow Hx Hinv Hpos.
  assert (Hzl : length (zip_with fl_div r row) = Z.to_nat L)
    by (rewrite length_zip_with; lia).
  rewrite slice_trim by lia. rewrite slice_to by lia. rewrite Hzl.
  apply list_eq. intros j. rewrite list_lookup_fmap.
  destruct (decide (j < length mc)%nat) as [Hj|Hj].
  - rewrite !lookup_take_lt by lia.
    rewrite lookup_drop, lookup_zip_with.
    destruct (Hpos (Z.to_nat t + j)%nat ltac:(lia)) as (d & Hd & Hdpos).
    destruct (lookup_lt_is_Some_2 mc j Hj) as [v Hv].
    pose proof (Hx j Hj) as Hxj. rewrite Hv in Hxj.
    rewrite (Hinv _ v d Hxj Hd), Hd, Hv. cbn.
    rewrite fl_div_finite by exact Hdpos.
    do 2 f_equal. field. lra.
  - rewrite lookup_take_ge by lia.
    rewrite lookup_ge_None_2 by lia. reflexivity.
Qed.

(** Overlap-add identity, the part of C4 that the code meets.  When
    every chunk comes back from the backend unchanged, [demix] returns
    its stereo input, sample for sample, for every input length and
    every overlap that is 0 or lies between [2 / chunk_size] and
    0.99. *)
Theorem overlap_add_identity
    (stft : list (list R) → list (list (list R)))
    (run : list (list (list R)) → list (list (list R)))
    (istft : list (list (list R)) → list (list R))
    (m : Conv_TDF_net_trim_model) (ov : Q) (mix : list (list R)) (N : Z) :
  (∀ t, tar_waves stft run istft t = t) →
  length mix = 2%nat →
  Forall (λ row, Z.of_nat (length row) = N) mix →
  1 ≤ trim m → 0 < gen_size m →
  Qeq_bool ov 0 = true
  ∨ (100 ≤ chunk_size m < 2 ^ 31
     ∧ (2 <= ov * inject_Z (chunk_size m))%Q ∧ (ov <= 99 # 100)%Q) →
  demix stft run istft mix [m] ov = Some (Np.map1 Some mix).
Proof.
  intros Hid Hlen Hrows Htrim Hgen Hov.
  apply two_samples_of_overlap in Hov.
  destruct (stereo_rows mix N Hlen Hrows) as (m0 & m1 & -> & Hsame & HN).
  destruct (chunk_loop_divider stft run istft m ov m0 m1 Hsame Htrim Hgen
              (admissible_stride m ov Hov))
    as (starts & res & row & Hb & Hloop & Hfold & Hrow & Hpos & _).
  assert (Hcs : 1 ≤ chunk_size m) by (unfold gen_size in Hgen; lia).
  pose proof (pad_bounds m m0 m1 Hsame Hgen) as Hpad.
  pose proof (padded_length m m0 m1 Hsame ltac:(lia) Hgen) as Hplen.
  set (L := trim m + Z.of_nat (length m0) + pad m (Z.of_nat (length m0))) in *.
  set (x0 := (replicate (Z.to_nat (trim m)) 0%R ++ m0) ++ _) in *.
  set (x1 := (replicate (Z.to_nat (trim m)) 0%R ++ m1) ++ _) in *.
  assert (H0 : Z.of_nat (length x0) = L) by (apply Hplen; reflexivity).
  assert (H1 : Z.of_nat (length x1) = L) by (apply Hplen; exact Hsame).
  assert (Hz : Z.of_nat (length (replicate (Z.to_nat L) 0%R)) = L)
    by (rewrite length_replicate; lia).
  assert (Hinv0 : ∀ x : list R, ∀ p xp dp,
            x !! p = Some xp → replicate (Z.to_nat L) 0%R !! p = Some dp →
            replicate (Z.to_nat L) 0%R !! p = Some (xp * dp)%R).
  { intros x p xp dp _ Hd. rewrite Hd. apply lookup_replicate in Hd as [-> _].
    f_equal. lra. }
  assert (Hx10 : length x1 = length x0) by lia.
  assert (Hzx : Z.of_nat (length (replicate (Z.to_nat L) 0%R))
                = Z.of_nat (length x0)) by lia.
  assert (Hbx : Forall (λ i, 0 ≤ i < Z.of_nat (length x0)) starts)
    by now rewrite H0.
  destruct (fold_identity stft run istft Hid (chunk_size m) ov x0 x1 Hcs
              Hx10 starts Hbx
              (replicate (Z.to_nat L) 0%R) (replicate (Z.to_nat L) 0%R)
              (replicate (Z.to_nat L) 0%R) (replicate (Z.to_nat L) 0%R)
              (conj Hzx (conj Hzx (Hinv0 x0)))
              (conj Hzx (conj Hzx (Hinv0 x1))))
    as (r0 & r1 & d0 & d1 & Hf & (Lr0 & _ & I0) & (Lr1 & _ & I1)).
  rewrite H0 in Lr0, Lr1.
  change (replicate 2 (replicate (Z.to_nat L) 0%R))
    with [replicate (Z.to_nat L) 0%R; replicate (Z.to_nat L) 0%R] in Hfold.
  rewrite Hf in Hfold. injection Hfold as <- -> ->.
  rewrite (demix_some _ _ _ _ _ _ _ _ Hloop).
  change (Np.shape1 [m0; m1]) with (Z.of_nat (length m0)).
  cbn [Np.map2 Np.cols Np.map1 zip_with map replicate]. f_equal.
  f_equal; [|f_equal].
  - apply (output_row r0 row x0 m0 (trim m) L); auto; try lia.
    intros j Hj. apply (padded_lookup m m0 m1 Hsame m0 j Hj).
  - rewrite <- Hsame.
    apply (output_row r1 row x1 m1 (trim m) L); auto; try lia.
    + intros j Hj. subst x1. apply (padded_lookup m m0 m1 Hsame m1 j Hj).
    + rewrite Hsame. exact Hpos.
Qed.

Lemma overlap_add_identity_witness :
  demix synthetic_stft synthetic_run synthetic_istft [[1]; [2]]%R
    (get_models 2) (1 # 8)
  = Some (Np.map1 Some [[1]; [2]]%R).
Proof.
  apply (overlap_add_identity synthetic_stft synthetic_run synthetic_istft
           {| dim_c := 4; dim_f := 3072; dim_t := 256; n_fft := 7680;
              hop := 1024 |}
           (1 # 8) [[1]; [2]]%R 1).
  - apply synthetic_identity.
  - reflexivity.
  - repeat constructor.
  - vm_compute. discriminate.
  - reflexivity.
  - right. split; [split; [vm_compute; discriminate|reflexivity]|].
    split; vm_compute; discriminate.
Defined.

(** With a stride one short of the chunk, the last sample of the first
    chunk is the first of the second: both windows vanish there, the
    divider is 0 and the output sample at that position is not the
    input sample, whatever the backend does. *)
Lemma seam_breaks_identity
    (stft : list (list R) → list (list (list R)))
    (run : list (list (list R)) → list (list (list R)))
    (istft : list (list (list R)) → list (list R))
    (m : Conv_TDF_net_trim_model) (ov : Q) (m0 m1 : list R) (v : R) :
  length m1 = length m0 → 1 ≤ trim m → 0 < gen_size m →
  Qeq_bool ov 0 = false → step m ov = chunk_size m - 1 →
  gen_size m ≤ Z.of_nat (length m0) →
  m0 !! Z.to_nat (chunk_size m - 1 - trim m) = Some v →
  demix stft run istft [m0; m1] [m] ov ≠ Some (Np.map1 Some [m0; m1]).
Proof.
  intros Hsame Htrim Hgen Hov Hstep HN Hv.
  assert (Hcs : chunk_size m = gen_size m + 2 * trim m) by (unfold gen_size; lia).
  set (N := Z.of_nat (length m0)) in *.
  assert (HL : chunk_size m + 1 ≤ trim m + N + pad m N).
  { unfold pad.
    pose proof (Z.div_mod N (gen_size m) ltac:(lia)) as Hdm.
    assert (1 ≤ N / gen_size m) by (apply Z.div_le_lower_bound; lia).
    nia. }
  destruct (divider_zero stft run istft m ov m0 m1 (trim m + N + pad m N)
              (Z.to_nat (chunk_size m - 1))
              Hsame ltac:(lia) Hgen ltac:(lia) eq_refl ltac:(lia))
    as (starts & res & row & _ & _ & Hloop & Hrow).
  - intros k Hk0 HkL. rewrite Hstep.
    destruct (Z.eq_dec k 0) as [->|H0];
      [right; split; [exact Hov|lia]|].
    destruct (Z.eq_dec k 1) as [->|H1];
      [right; split; [exact Hov|lia]|].
    left. nia.
  - rewrite (demix_some _ _ _ _ _ _ _ _ Hloop).
    intros Heq. injection Heq as Heq.
    apply (f_equal (λ a, Arr.at2 a 0 (Z.to_nat (chunk_size m - 1 - trim m)))) in Heq.
    cbn beta in Heq.
    rewrite (at2_map1 Some [m0; m1]) in Heq.
    change (Arr.at2 [m0; m1] 0 (Z.to_nat (chunk_size m - 1 - trim m)))
      with (m0 !! Z.to_nat (chunk_size m - 1 - trim m)) in Heq.
    rewrite Hv in Heq. cbn [fmap option_fmap option_map] in Heq.
    apply demix_output_sample in Heq as (_ & r & d & _ & Hd & Hx); [|lia..].
    apply (at2_replicate_2_inv row) in Hd as [_ Hd].
    replace (Z.to_nat (trim m) + Z.to_nat (chunk_size m - 1 - trim m))%nat
      with (Z.to_nat (chunk_size m - 1)) in Hd by lia.
    assert (d = 0%R) by congruence. subst d.
    rewrite fl_div_zero in Hx. discriminate Hx.
Qed.

(** C4, on the failing input.  With the identity backend, a stereo input
    of one chunk (261120 samples) of ones and the overlap 1/522240,
    which lies in [0, 0.99), the stride is 261119 and [demix] does not
    return its input: the sample at 257279 is NaN. *)
Lemma identity_fails_at_seam :
  (∀ t, tar_waves synthetic_stft synthetic_run synthetic_istft t = t)
  ∧ step {| dim_c := 4; dim_f := 3072; dim_t := 256; n_fft := 7680;
            hop := 1024 |} (1 # 522240) = 261119
  ∧ demix synthetic_stft synthetic_run synthetic_istft
      [replicate (Z.to_nat 261120) 1%R; replicate (Z.to_nat 261120) 1%R]
      (get_models 2) (1 # 522240)
    ≠ Some (Np.map1 Some
              [replicate (Z.to_nat 261120) 1%R; replicate (Z.to_nat 261120) 1%R]).
Proof.
  split; [apply synthetic_identity|]. split; [reflexivity|].
  apply (seam_breaks_identity synthetic_stft synthetic_run synthetic_istft
           {| dim_c := 4; dim_f := 3072; dim_t := 256; n_fft := 7680;
              hop := 1024 |}
           (1 # 522240) _ _ 1%R).
  - reflexivity.
  - vm_compute. discriminate.
  - reflexivity.
  - reflexivity.
  - reflexivity.
  - rewrite length_replicate, Z2Nat.id by lia. vm_compute. discriminate.
  - apply lookup_replicate. split; [reflexivity|].
    apply Z2Nat.inj_lt; [vm_compute; discriminate|lia|reflexivity].
Qed.

(** * Further properties of the code *)

(** ** [match_array_shapes] *)

Example match_cut : match_array_shapes [[1; 2; 3]; [4; 5; 6]]%R [[0]; [0]]%R = [[1]; [4]]%R.
Proof. reflexivity. Qed.

Example match_pad : match_array_shapes [[1]; [4]]%R [[0; 0; 0]]%R = [[1; 0; 0]; [4; 0; 0]]%R.
Proof. reflexivity. Qed.

(** X1. [match_array_shapes] fits its first array to the width of the
    second: on an array whose rows have one length it keeps the number
    of rows, gives every row the width of [array_2], keeps every sample
    that was there and fills the rest with zeros. *)
Theorem match_array_shapes_fits (array_1 array_2 : list (list R)) :
  Forall (λ row, Z.of_nat (length row) = Np.shape1 array_1) array_1 →
  length (match_array_shapes array_1 array_2) = length array_1
  ∧ Forall (λ row, Z.of_nat (length row) = Np.shape1 array_2)
      (match_array_shapes array_1 array_2)
  ∧ ∀ i j, (i < length array_1)%nat → Z.of_nat j < Np.shape1 array_2 →
      Arr.at2 (match_array_shapes array_1 array_2) i j
      = Some (default 0%R (Arr.at2 array_1 i j)).
Proof.
  intros Hrect.
  pose proof (shape1_nonneg array_1) as H1.
  pose proof (shape1_nonneg array_2) as H2.
  unfold match_array_shapes.
  destruct (Z.ltb_spec (Np.shape1 array_2) (Np.shape1 array_1)) as [Hcut|Hge].
  - unfold Np.cols. split; [apply length_map|]. split.
    + apply Forall_forall. intros row' Hin.
      apply list_elem_of_fmap in Hin as (row & -> & Hin).
      pose proof (proj1 (Forall_forall _ _) Hrect row Hin) as Hlen. cbv beta in Hlen.
      rewrite slice_to by lia. rewrite length_take. lia.
    + intros i j Hi Hj. unfold Arr.at2.
      rewrite list_lookup_fmap.
      destruct (lookup_lt_is_Some_2 array_1 i Hi) as [row Hrow].
      rewrite Hrow. cbn [mbind option_bind fmap option_fmap option_map].
      pose proof (proj1 (Forall_lookup _ _) Hrect i row Hrow) as Hlen. cbv beta in Hlen.
      rewrite slice_to by lia. rewrite lookup_take_lt by lia.
      destruct (lookup_lt_is_Some_2 row j ltac:(lia)) as [x Hx].
      now rewrite Hx.
  - destruct (Z.ltb_spec (Np.shape1 array_1) (Np.shape1 array_2)) as [Hpad|Heq].
    + split; [apply length_map|]. split.
      * apply Forall_forall. intros row' Hin.
        apply list_elem_of_fmap in Hin as (row & -> & Hin).
        pose proof (proj1 (Forall_forall _ _) Hrect row Hin) as Hlen. cbv beta in Hlen.
        rewrite length_app, length_replicate. lia.
      * intros i j Hi Hj. unfold Arr.at2.
        rewrite list_lookup_fmap.
        destruct (lookup_lt_is_Some_2 array_1 i Hi) as [row Hrow].
        rewrite Hrow. cbn [mbind option_bind fmap option_fmap option_map].
        pose proof (proj1 (Forall_lookup _ _) Hrect i row Hrow) as Hlen. cbv beta in Hlen.
        destruct (decide (j < length row)%nat) as [Hin|Hout].
        -- rewrite lookup_app_l by lia.
           destruct (lookup_lt_is_Some_2 row j Hin) as [x Hx]. now rewrite Hx.
        -- rewrite lookup_app_r by lia.
           rewrite (lookup_ge_None_2 row j) by lia. cbn.
           apply lookup_replicate. split; [reflexivity|lia].
    + split; [reflexivity|]. split.
      * eapply Forall_impl; [exact Hrect|]. intros row Hrow. cbv beta in *. lia.
      * intros i j Hi Hj. unfold Arr.at2.
        destruct (lookup_lt_is_Some_2 array_1 i Hi) as [row Hrow].
        rewrite Hrow. cbn [mbind option_bind fmap option_fmap option_map].
        pose proof (proj1 (Forall_lookup _ _) Hrect i row Hrow) as Hlen. cbv beta in Hlen.
        destruct (lookup_lt_is_Some_2 row j ltac:(lia)) as [x Hx]. now rewrite Hx.
Qed.

Lemma match_array_shapes_fits_witness :
  length (match_array_shapes [[1; 2; 3]; [4; 5; 6]]%R [[0]; [0]]%R) = 2%nat
  ∧ Forall (λ row, Z.of_nat (length row) = 1)
      (match_array_shapes [[1; 2; 3]; [4; 5; 6]]%R [[0]; [0]]%R)
  ∧ ∀ i j, (i < 2)%nat → Z.of_nat j < 1 →
      Arr.at2 (match_array_shapes [[1; 2; 3]; [4; 5; 6]]%R [[0]; [0]]%R) i j
      = Some (default 0%R (Arr.at2 [[1; 2; 3]; [4; 5; 6]]%R i j)).
Proof.
  apply (match_array_shapes_fits [[1; 2; 3]; [4; 5; 6]]%R [[0]; [0]]%R).
  repeat constructor.
Defined.

(** ** [demix_vitlarge] *)

(** ** The chunk starts of a [while] loop with a positive stride *)

Lemma range_nil (i L step : Z) : 0 < step → L ≤ i → Py.range i L step = Some [].
Proof.
  intros Hs Hi. unfold Py.range.
  destruct (Z.eqb_spec step 0) as [|_]; [lia|].
  destruct (Z.ltb_spec 0 step) as [_|]; [|lia].
  assert (Hc : (L - i + step - 1) / step ≤ 0).
  { apply Z.lt_succ_r. apply Z.div_lt_upper_bound; lia. }
  destruct ((L - i + step - 1) / step) as [|q|q] eqn:E; [reflexivity|lia|reflexivity].
Qed.

Lemma range_cons (i L step : Z) :
  0 < step → i < L →
  ∃ l, Py.range (i + step) L step = Some l ∧ Py.range i L step = Some (i :: l).
Proof.
  intros Hs Hi. unfold Py.range.
  destruct (Z.eqb_spec step 0) as [|_]; [lia|].
  destruct (Z.ltb_spec 0 step) as [_|]; [|lia].
  eexists. split; [reflexivity|]. f_equal.
  replace (L - i + step - 1) with ((L - (i + step) + step - 1) + 1 * step) by lia.
  rewrite Z.div_add by lia.
  set (q := (L - (i + step) + step - 1) / step).
  assert (Hq : 0 ≤ q).
  { apply Z.div_pos; lia. }
  rewrite seqZ_cons by lia. cbn [map]. f_equal; [lia|].
  replace (Z.succ 0) with (1 + 0) by lia.
  replace (Z.pred (q + 1)) with q by lia.
  rewrite <- fmap_add_seqZ. rewrite <- list_fmap_compose.
  apply list_fmap_ext. intros _ k _. cbn. lia.
Qed.

Lemma slice_clamp {A} (l : list A) (lo hi : Z) :
  0 ≤ hi →
  Py.slice l (Some lo) (Some hi)
  = Py.slice l (Some lo) (Some (Z.min hi (Z.of_nat (length l)))).
Proof.
  intros Hhi. unfold Py.slice, Py.index. cbn [from_option].
  destruct (Z.ltb_spec hi 0) as [|_]; [lia|].
  destruct (Z.ltb_spec (Z.min hi (Z.of_nat (length l))) 0) as [|_]; [lia|].
  now rewrite <- Z.min_assoc, Z.min_id.
Qed.

Section VitLoop.

Variable model : list (list R) → list (list (list R)).

(** With a positive stride the loop ends within [L] iterations, having
    run the chunks that start at [i], [i + step], ... below [L]. *)
Lemma vit_loop_range (fuel : nat) (c step : Z) (mix : list (list R))
    (acc : list (list (list R)) * list (list (list R))) (i : Z) :
  0 < step → (Z.to_nat (Np.shape1 mix - i) ≤ fuel)%nat →
  ∃ starts,
    Py.range i (Np.shape1 mix) step = Some starts
    ∧ vit_loop model fuel c step mix acc i
      = Some (foldl (vit_chunk model c mix) acc starts).
Proof.
  intros Hs. revert acc i.
  induction fuel as [|fuel IH]; intros acc i Hf; cbn [vit_loop].
  - destruct (Z.ltb_spec i (Np.shape1 mix)) as [Hi|Hi]; [lia|].
    exists []. split; [now apply range_nil|reflexivity].
  - destruct (Z.ltb_spec i (Np.shape1 mix)) as [Hi|Hi].
    + destruct (range_cons i (Np.shape1 mix) step Hs Hi) as (l & Hl & Hil).
      destruct (IH (vit_chunk model c mix acc i) (i + step) ltac:(lia))
        as (starts & Hst & Hloop).
      rewrite Hl in Hst. injection Hst as <-.
      exists (i :: l). split; [exact Hil|]. rewrite Hloop. reflexivity.
    + exists []. split; [now apply range_nil|reflexivity].
Qed.

(** With a stride of 0 or less the index never passes 0: on a
    non-empty input the loop does not end. *)
Lemma vit_loop_stuck (fuel : nat) (c step : Z) (mix : list (list R))
    (acc : list (list (list R)) * list (list (list R))) (i : Z) :
  step ≤ 0 → i ≤ 0 → 0 < Np.shape1 mix →
  vit_loop model fuel c step mix acc i = None.
Proof.
  intros Hs. revert acc i.
  induction fuel as [|fuel IH]; intros acc i Hi HL; cbn [vit_loop];
    destruct (Z.ltb_spec i (Np.shape1 mix)) as [_|]; try lia; [reflexivity|].
  apply IH; lia.
Qed.

End VitLoop.

(** X2. If [overlap_VitLarge] is 0 the stride [c // n] raises; if it is
    negative or larger than the chunk length [c], the stride is 0 or
    less and the index of the [while] loop never passes the end of a
    non-empty input: [demix_vitlarge] returns no value, whatever the
    number of iterations allowed. *)
Theorem demix_vitlarge_no_value
    (model : list (list R) → list (list (list R))) (config : Config.t)
    (fuel : nat) (overlap_VitLarge : Z) (mix : list (list R)) :
  0 ≤ Config.audio_hop_length config * (2 * Config.inference_dim_t config - 1) →
  0 < Np.shape1 mix →
  overlap_VitLarge ≤ 0
  ∨ Config.audio_hop_length config * (2 * Config.inference_dim_t config - 1)
    < overlap_VitLarge →
  demix_vitlarge model config fuel overlap_VitLarge mix = None.
Proof.
  intros Hc HL Hn. unfold demix_vitlarge.
  set (c := Config.audio_hop_length config * (2 * Config.inference_dim_t config - 1)) in *.
  destruct (Z.eqb_spec overlap_VitLarge 0) as [|Hn0]; [reflexivity|].
  rewrite vit_loop_stuck; [reflexivity| |lia|exact HL].
  destruct Hn as [Hneg|Hbig].
  - rewrite <- Z.div_opp_opp by lia. apply Z.div_le_upper_bound; lia.
  - rewrite Z.div_small by lia. lia.
Qed.

Lemma demix_vitlarge_no_value_witness :
  demix_vitlarge (identity_network 1)
    {| Config.audio_hop_length := 1; Config.inference_dim_t := 2;
       Config.training_target_instrument := Some "vocals"%string;
       Config.training_instruments := []%string |}
    100 5 [[1]; [2]]%R
  = None.
Proof.
  apply (demix_vitlarge_no_value (identity_network 1)
           {| Config.audio_hop_length := 1; Config.inference_dim_t := 2;
              Config.training_target_instrument := Some "vocals"%string;
              Config.training_instruments := []%string |}
           100 5 [[1]; [2]]%R).
  - simpl. lia.
  - simpl. lia.
  - right. simpl. lia.
Defined.

Section VitFacts.

Variable model : list (list R) → list (list (list R)).
Variables (c L : Z) (mix : list (list R)).
Hypothesis c_pos : 1 ≤ c.
Hypothesis mix_rows : Forall (λ row, Z.of_nat (length row) = L) mix.
Hypothesis mix_shape1 : Np.shape1 mix = L.

Local Abbreviation end_ i := (Z.min (i + c) L).
Local Abbreviation part i :=
  (map (λ row, Py.slice row (Some i%Z) (Some (end_ i))
               ++ replicate (Z.to_nat (i + c - end_ i)) 0%R) mix).
Local Abbreviation stepC d i :=
  (slice_add d i (end_ i) (replicate (Z.to_nat (end_ i - i)) 1%R)).

Lemma vit_length (i : Z) :
  0 ≤ i < L → Np.shape1 (Np.cols mix (Some i) (Some (i + c))) = end_ i - i.
Proof.
  intros Hi. destruct mix as [|r0 rest]; [cbn in mix_shape1; lia|].
  cbn in mix_shape1. cbn [Np.cols map Np.shape1].
  rewrite slice_clamp by lia. rewrite mix_shape1.
  rewrite slice_inside by lia. rewrite length_take, length_drop. lia.
Qed.

Lemma vit_chunk_eq (res cnt : list (list (list R))) (i : Z) :
  0 ≤ i < L →
  vit_chunk model c mix (res, cnt) i
  = (zip_with (zip_with (λ row xr, slice_add row i (end_ i)
                                     (Py.slice xr None (Some (end_ i - i)))))
       res (model (part i)),
     map (map (λ row, stepC row i)) cnt).
Proof.
  intros Hi. unfold vit_chunk. rewrite vit_length by exact Hi.
  replace (i + (end_ i - i)) with (end_ i) by lia.
  assert (Hpart :
    (if end_ i - i <? c
     then map (λ row, row ++ replicate (Z.to_nat (c - (end_ i - i))) 0%R)
            (Np.cols mix (Some i) (Some (i + c)))
     else Np.cols mix (Some i) (Some (i + c)))
    = part i).
  { unfold Np.cols.
    destruct (Z.ltb_spec (end_ i - i) c) as [Hlt|Hge].
    - rewrite map_map. apply Forall_fmap_ext_1.
      eapply Forall_impl; [exact mix_rows|]. intros row Hrow. cbv beta in *.
      rewrite slice_clamp by lia. rewrite Hrow. do 3 f_equal. lia.
    - apply Forall_fmap_ext_1.
      eapply Forall_impl; [exact mix_rows|]. intros row Hrow. cbv beta in *.
      rewrite slice_clamp by lia. rewrite Hrow.
      replace (Z.to_nat (i + c - end_ i)) with 0%nat by lia.
      cbn [replicate]. now rewrite app_nil_r. }
  rewrite Hpart. reflexivity.
Qed.

Lemma part_shape (i : Z) :
  0 ≤ i < L → Forall (λ row, Z.of_nat (length row) = c) (part i).
Proof.
  intros Hi. apply Forall_forall. intros row' Hin.
  apply list_elem_of_fmap in Hin as (row & -> & Hin).
  pose proof (proj1 (Forall_forall _ _) mix_rows row Hin) as Hlen. cbv beta in Hlen.
  rewrite length_app, length_replicate, slice_inside by lia.
  rewrite length_take, length_drop. lia.
Qed.

(** The counter through the loop: every source and every channel
    holds the same row. *)
Lemma vit_fold_counter (starts : list Z) (res : list (list (list R)))
    (S_ m : nat) (d : list R) :
  Forall (λ i, 0 ≤ i < L) starts →
  (foldl (vit_chunk model c mix) (res, replicate S_ (replicate m d)) starts).2
  = replicate S_ (replicate m (foldl (λ d i, stepC d i) d starts)).
Proof.
  revert res d. induction starts as [|i starts IH]; intros res d Hs; [reflexivity|].
  apply Forall_cons in Hs as [Hi Hs]. cbn [foldl].
  rewrite vit_chunk_eq by exact Hi.
  rewrite !fmap_replicate. apply IH. exact Hs.
Qed.

End VitFacts.

(** Every sample is counted at least once when the stride is between
    1 and the chunk length. *)
Lemma vit_counter_pos (c L step : Z) (starts : list Z) (p : nat) :
  1 ≤ c → 1 ≤ step ≤ c → Py.range 0 L step = Some starts → Z.of_nat p < L →
  ∃ y, foldl (λ d i, slice_add d i (Z.min (i + c) L)
                    (replicate (Z.to_nat (Z.min (i + c) L - i)) 1%R)) (replicate (Z.to_nat L) 0%R) starts !! p = Some y
       ∧ (0 < y)%R.
Proof.
  intros c_pos Hs Hr Hp.
  destruct (range_starts L step ltac:(lia)) as (starts' & Hr' & Hin & Hall & _).
  rewrite Hr in Hr'. injection Hr' as <-.
  pose proof (Z.div_mod (Z.of_nat p) step ltac:(lia)) as Hdm.
  pose proof (Z.mod_pos_bound (Z.of_nat p) step ltac:(lia)) as Hm.
  assert (Hq : 0 ≤ Z.of_nat p / step) by (apply Z.div_pos; lia).
  apply (foldD_pos c L 0%Q c_pos starts _ p 0%R (Z.of_nat p / step * step)).
  - exact Hin.
  - rewrite length_replicate. lia.
  - apply lookup_replicate. split; [reflexivity|lia].
  - lra.
  - apply Hall; [exact Hq|nia].
  - nia.
  - left. reflexivity.
Qed.

Lemma vit_counter_length (c L : Z) (starts : list Z) :
  1 ≤ c → Forall (λ i, 0 ≤ i < L) starts → 0 ≤ L →
  Z.of_nat (length (foldl (λ d i, slice_add d i (Z.min (i + c) L)
                    (replicate (Z.to_nat (Z.min (i + c) L - i)) 1%R)) (replicate (Z.to_nat L) 0%R) starts)) = L.
Proof.
  intros c_pos Hs HL.
  apply (foldD_length c L 0%Q c_pos starts); [exact Hs|].
  rewrite length_replicate. lia.
Qed.

(** ** Dictionaries built from [zip] *)

Lemma dict_of_zip_fold {V} (l : list (string * V)) (d0 : gmap string V) (k : string) :
  foldl (λ d kv, <[kv.1 := kv.2]> d) d0 l !! k
  = match list_find (λ kv, kv.1 = k) (reverse l) with
    | Some (_, kv) => Some kv.2
    | None => d0 !! k
    end.
Proof.
  revert d0. induction l as [|[k' v'] l IH]; intros d0; [reflexivity|].
  cbn [foldl]. rewrite IH. rewrite reverse_cons.
  destruct (list_find (λ kv, kv.1 = k) (reverse l)) as [[j kv]|] eqn:E.
  - erewrite list_find_app_l by exact E. reflexivity.
  - rewrite list_find_app_r by exact E. cbn.
    destruct (decide (k' = k)) as [->|Hne]; cbn.
    + apply lookup_insert_eq.
    + now rewrite lookup_insert_ne.
Qed.

Lemma dict_of_zip_elem {V} (keys : list string) (values : list V) (k : string) (v : V) :
  dict_of_zip keys values !! k = Some v → v ∈ values.
Proof.
  unfold dict_of_zip. rewrite dict_of_zip_fold, lookup_empty.
  destruct (list_find _ _) as [[j kv]|] eqn:E; [|discriminate].
  intros [= <-]. apply list_find_Some in E as (Hj & _ & _).
  apply list_elem_of_lookup_2 in Hj. rewrite elem_of_reverse in Hj.
  destruct kv as [k0 v0]. now apply elem_of_zip_r in Hj.
Qed.

Lemma dict_of_zip_keys {V} (keys : list string) (values : list V) (k : string) :
  (length keys ≤ length values)%nat →
  is_Some (dict_of_zip keys values !! k) ↔ k ∈ keys.
Proof.
  intros Hlen. unfold dict_of_zip. rewrite dict_of_zip_fold, lookup_empty.
  destruct (list_find _ _) as [[j kv]|] eqn:E.
  - split; [intros _|intros _; eauto].
    apply list_find_Some in E as (Hj & Hk & _).
    apply list_elem_of_lookup_2 in Hj. rewrite elem_of_reverse in Hj.
    destruct kv as [k0 v0]. cbn in Hk. subst k0. now apply elem_of_zip_l in Hj.
  - split; [intros [? [=]]|]. intros Hin. exfalso.
    apply list_elem_of_lookup in Hin as [i Hi].
    destruct (lookup_lt_is_Some_2 values i) as [v Hv].
    { apply lookup_lt_Some in Hi. lia. }
    apply list_find_None in E.
    apply (proj1 (Forall_forall _ _) E (k, v)); [|reflexivity].
    apply elem_of_reverse. apply list_elem_of_lookup. exists i.
    rewrite lookup_zip_with, Hi. cbn. now rewrite Hv.
Qed.

Lemma shape_rows {A} (a : list (list A)) (n : nat) :
  Forall (λ row, length row = n) a ↔ Np.shape a = replicate (length a) n.
Proof.
  unfold Np.shape. induction a as [|r a IH]; cbn.
  - split; [reflexivity|constructor].
  - rewrite Forall_cons, IH. split.
    + intros [-> ->]. reflexivity.
    + intros [= Hr Ha]. split; [exact Hr|exact Ha].
Qed.

Lemma Forall_zip_with_2 {A B C} (P : A → Prop) (Q : B → Prop) (R_ : C → Prop)
    (f : A → B → C) (l : list A) (k : list B) :
  Forall P l → Forall Q k → (∀ a b, P a → Q b → R_ (f a b)) →
  Forall R_ (zip_with f l k).
Proof.
  intros Hl. revert k. induction Hl as [|a l Ha Hl IH]; intros k Hk Hf; [constructor|].
  destruct Hk as [|b k Hb Hk]; [constructor|].
  cbn. constructor; [now apply Hf|now apply IH].
Qed.

Section VitShapes.

Variable model : list (list R) → list (list (list R)).
Variables (c L : Z) (mix : list (list R)) (S_ : nat).
Hypothesis c_pos : 1 ≤ c.
Hypothesis mix_rows : Forall (λ row, Z.of_nat (length row) = L) mix.
Hypothesis mix_shape1 : Np.shape1 mix = L.
Hypothesis model_shape :
  ∀ part, length (model part) = S_
          ∧ Forall (λ src, Np.shape src = Np.shape part) (model part).

Local Abbreviation end_ i := (Z.min (i + c) L).
Local Abbreviation part i :=
  (map (λ row, Py.slice row (Some i%Z) (Some (end_ i))
               ++ replicate (Z.to_nat (i + c - end_ i)) 0%R) mix).
Local Abbreviation RInv res :=
  (length res = S_
   ∧ Forall (λ src : list (list R),
       length src = length mix
       ∧ Forall (λ row, Z.of_nat (length row) = L) src) res).

Lemma vit_chunk_result_shape (res cnt : list (list (list R))) (i : Z) :
  0 ≤ i < L → RInv res → RInv (vit_chunk model c mix (res, cnt) i).1.
Proof.
  intros Hi [Hlen Hres].
  rewrite (vit_chunk_eq model c L mix c_pos mix_rows mix_shape1) by exact Hi.
  cbn [fst].
  destruct (model_shape (part i)) as [HmS Hmshape].
  split; [rewrite length_zip_with; lia|].
  eapply Forall_zip_with_2; [exact Hres|exact Hmshape|].
  intros src xsrc [Hsl Hsrows] Hx. cbv beta in Hx.
  pose proof (part_shape c L mix c_pos mix_rows i Hi) as Hpart.
  assert (Hxs : Np.shape xsrc = replicate (length mix) (Z.to_nat c)).
  { rewrite Hx. rewrite <- (length_map (λ row, Py.slice row (Some i) (Some (end_ i))
               ++ replicate (Z.to_nat (i + c - end_ i)) 0%R) mix).
    apply shape_rows. eapply Forall_impl; [exact Hpart|].
    intros row Hrow. cbv beta in *. lia. }
  assert (Hxl : length xsrc = length mix).
  { apply (f_equal length) in Hxs. unfold Np.shape in Hxs.
    now rewrite length_map, length_replicate in Hxs. }
  rewrite <- Hxl in Hxs. apply shape_rows in Hxs.
  split; [rewrite length_zip_with; lia|].
  eapply Forall_zip_with_2; [exact Hsrows|exact Hxs|].
  intros row xr Hrow Hxr. cbv beta in *.
  rewrite slice_add_length; [exact Hrow|lia|lia|].
  rewrite slice_to by lia. rewrite length_take. lia.
Qed.

Lemma vit_fold_result_shape (starts : list Z) (res cnt : list (list (list R))) :
  Forall (λ i, 0 ≤ i < L) starts → RInv res →
  RInv (foldl (vit_chunk model c mix) (res, cnt) starts).1.
Proof.
  revert res cnt. induction starts as [|i starts IH]; intros res cnt Hs Hres;
    [exact Hres|].
  apply Forall_cons in Hs as [Hi Hs]. cbn [foldl].
  destruct (vit_chunk model c mix (res, cnt) i) as [res' cnt'] eqn:E.
  apply IH; [exact Hs|].
  change res' with (res', cnt').1. rewrite <- E.
  now apply vit_chunk_result_shape.
Qed.

End VitShapes.

Lemma zeros_like (mix : list (list R)) (L : Z) :
  Forall (λ row, Z.of_nat (length row) = L) mix →
  map (λ row : list R, replicate (length row) 0%R) mix
  = replicate (length mix) (replicate (Z.to_nat L) 0%R).
Proof.
  induction 1 as [|row mix Hrow _ IH]; [reflexivity|].
  cbn. rewrite IH. do 2 f_equal. lia.
Qed.

Lemma vit_stride (c n : Z) : 1 ≤ n ≤ c → 1 ≤ c / n ≤ c.
Proof.
  intros Hn. split.
  - apply Z.div_le_lower_bound; lia.
  - apply Z.div_le_upper_bound; nia.
Qed.

(** X3. [demix_vitlarge] with an overlap between 1 and the chunk length
    and a network that keeps the shape of its input: the loop ends
    within [L] iterations, the dictionary has the configured keys, and
    every array in it has the shape of the mix and only finite
    samples. *)
Theorem demix_vitlarge_finite
    (model : list (list R) → list (list (list R))) (config : Config.t)
    (overlap_VitLarge : Z) (mix : list (list R)) (L : Z) :
  1 ≤ overlap_VitLarge
    ≤ Config.audio_hop_length config * (2 * Config.inference_dim_t config - 1) →
  Forall (λ row, Z.of_nat (length row) = L) mix → Np.shape1 mix = L →
  (∀ part,
     length (model part)
     = match Config.training_target_instrument config with
       | Some _ => 1%nat
       | None => length (Config.training_instruments config)
       end
     ∧ Forall (λ src, Np.shape src = Np.shape part) (model part)) →
  ∃ d,
    (∀ fuel, (Z.to_nat L ≤ fuel)%nat →
             demix_vitlarge model config fuel overlap_VitLarge mix = Some d)
    ∧ (∀ k, is_Some (d !! k)
            ↔ k ∈ match Config.training_target_instrument config with
                  | Some target_instrument => [target_instrument]
                  | None => Config.training_instruments config
                  end)
    ∧ ∀ k v, d !! k = Some v →
             Np.shape v = Np.shape mix
             ∧ ∀ ch j x, Arr.at2 v ch j = Some x → is_Some x.
Proof.
  intros Hn Hrows Hshape1 Hmodel.
  set (c := Config.audio_hop_length config * (2 * Config.inference_dim_t config - 1)) in *.
  set (S_ := match Config.training_target_instrument config with
             | Some _ => 1%nat
             | None => length (Config.training_instruments config)
             end) in *.
  assert (Hc : 1 ≤ c) by lia.
  pose proof (vit_stride c overlap_VitLarge Hn) as Hstep.
  assert (HL : 0 ≤ L) by (rewrite <- Hshape1; apply shape1_nonneg).
  destruct (range_starts L (c / overlap_VitLarge) ltac:(lia))
    as (starts & Hrange & Hin & _ & _).
  set (zeros := replicate S_ (replicate (length mix) (replicate (Z.to_nat L) 0%R))).
  set (final := foldl (vit_chunk model c mix) (zeros, zeros) starts).
  set (est := zip_with (Np.map2 fl_div) final.1 final.2).
  pose proof (vit_fold_counter model c L mix Hc Hrows Hshape1 starts zeros S_
                (length mix) (replicate (Z.to_nat L) 0%R) Hin) as Hcnt.
  fold zeros in Hcnt. fold final in Hcnt.
  assert (Hres : length final.1 = S_
                 ∧ Forall (λ src : list (list R),
                     length src = length mix
                     ∧ Forall (λ row, Z.of_nat (length row) = L) src) final.1).
  { apply (vit_fold_result_shape model c L mix S_ Hc Hrows Hshape1 Hmodel);
      [exact Hin|].
    split; [apply length_replicate|].
    apply Forall_replicate. split; [apply length_replicate|].
    apply Forall_replicate. cbv beta. rewrite length_replicate. lia. }
  destruct Hres as [HresS Hres].
  assert (Hest_len : length est = S_).
  { unfold est. rewrite length_zip_with, Hcnt, length_replicate. lia. }
  assert (Hest : ∀ v, v ∈ est →
            Np.shape v = Np.shape mix
            ∧ ∀ ch j x, Arr.at2 v ch j = Some x → is_Some x).
  { intros v Hv. apply list_elem_of_lookup in Hv as [s Hs].
    unfold est in Hs. rewrite lookup_zip_with, Hcnt in Hs.
    destruct (final.1 !! s) as [src|] eqn:Hsrc; [|discriminate].
    cbn in Hs.
    destruct (replicate S_ _ !! s) as [cn|] eqn:Hcn; [|discriminate].
    apply lookup_replicate in Hcn as [-> _]. cbn in Hs. injection Hs as <-.
    pose proof (proj1 (Forall_lookup _ _) Hres s src Hsrc) as [Hsl Hsrows].
    cbv beta in Hsl, Hsrows.
    pose proof (vit_counter_length c L starts Hc Hin HL) as Hrowlen.
    pose proof (vit_counter_pos c L (c / overlap_VitLarge) starts) as Hpos.
    set (row := foldl _ (replicate (Z.to_nat L) 0%R) starts) in *.
    split.
    - assert (Hsh : Np.shape (Np.map2 fl_div src (replicate (length mix) row))
                    = replicate (length mix) (Z.to_nat L)).
      { unfold Np.map2.
        assert (Hl : length (zip_with (zip_with fl_div) src (replicate (length mix) row))
                     = length mix)
          by (rewrite length_zip_with, length_replicate; lia).
        rewrite <- Hl at 2. apply shape_rows.
        eapply Forall_zip_with_2;
          [exact Hsrows|apply (Forall_replicate (λ r, r = row)); reflexivity|].
        intros r d Hr ->. cbv beta in *. rewrite length_zip_with. lia. }
      transitivity (replicate (length mix) (Z.to_nat L)); [exact Hsh|].
      symmetry. apply shape_rows.
      eapply Forall_impl; [exact Hrows|]. intros r Hr. cbv beta in *. lia.
    - intros ch j x Hx. rewrite at2_map2 in Hx.
      destruct (Arr.at2 src ch j) as [rv|] eqn:Hrv; [|discriminate].
      destruct (Arr.at2 (replicate (length mix) row) ch j) as [dv|] eqn:Hdv;
        [|discriminate].
      cbn in Hx. injection Hx as <-.
      unfold Arr.at2 in Hdv.
      destruct (replicate (length mix) row !! ch) as [row'|] eqn:Hrow'; [|discriminate].
      apply lookup_replicate in Hrow' as [-> _]. cbn in Hdv.
      assert (Hj : Z.of_nat j < L).
      { apply lookup_lt_Some in Hdv. lia. }
      destruct (Hpos j Hc Hstep Hrange Hj) as (y & Hy & Hypos).
      rewrite Hdv in Hy. injection Hy as ->.
      rewrite fl_div_finite by exact Hypos. eauto. }
  exists (match Config.training_target_instrument config with
          | None => dict_of_zip (Config.training_instruments config) est
          | Some target_instrument => dict_of_zip [target_instrument] est
          end).
  split; [|split].
  - intros fuel Hfuel. unfold demix_vitlarge. fold c. fold S_.
    destruct (Z.eqb_spec overlap_VitLarge 0) as [|_]; [lia|].
    rewrite (zeros_like mix L Hrows). fold zeros.
    destruct (vit_loop_range model fuel c (c / overlap_VitLarge) mix (zeros, zeros) 0)
      as (starts' & Hrange' & Hloop); [lia|lia|].
    rewrite Hshape1, Hrange in Hrange'. injection Hrange' as <-.
    rewrite Hloop. fold final. cbn [mbind option_bind].
    unfold est. destruct final as [result counter]. reflexivity.
  - intros k. destruct (Config.training_target_instrument config) as [t|].
    + apply dict_of_zip_keys. cbn. unfold S_ in Hest_len. lia.
    + apply dict_of_zip_keys. unfold S_ in Hest_len. lia.
  - intros k v Hk. apply Hest.
    destruct (Config.training_target_instrument config);
      now apply dict_of_zip_elem in Hk.
Qed.

Lemma demix_vitlarge_finite_witness :
  ∃ d,
    (∀ fuel, (Z.to_nat 4 ≤ fuel)%nat →
       demix_vitlarge (identity_network 2)
         {| Config.audio_hop_length := 1; Config.inference_dim_t := 2;
            Config.training_target_instrument := None;
            Config.training_instruments := ["vocals"; "other"]%string |}
         fuel 2 [[1; 2; 3; 4]; [5; 6; 7; 8]]%R = Some d)
    ∧ (∀ k, is_Some (d !! k) ↔ k ∈ ["vocals"; "other"]%string)
    ∧ ∀ k v, d !! k = Some v →
             Np.shape v = Np.shape [[1; 2; 3; 4]; [5; 6; 7; 8]]%R
             ∧ ∀ ch j x, Arr.at2 v ch j = Some x → is_Some x.
Proof.
  apply (demix_vitlarge_finite (identity_network 2)
           {| Config.audio_hop_length := 1; Config.inference_dim_t := 2;
              Config.training_target_instrument := None;
              Config.training_instruments := ["vocals"; "other"]%string |}
           2 [[1; 2; 3; 4]; [5; 6; 7; 8]]%R 4).
  - simpl. lia.
  - repeat constructor.
  - reflexivity.
  - intros part. split; [reflexivity|repeat constructor].
Defined.

(** ** A network that returns its input *)

Section VitIdentity.

Variables (c L : Z) (mix : list (list R)) (S_ : nat).
Hypothesis c_pos : 1 ≤ c.
Hypothesis mix_rows : Forall (λ row, Z.of_nat (length row) = L) mix.
Hypothesis mix_shape1 : Np.shape1 mix = L.

Local Abbreviation end_ i := (Z.min (i + c) L).
Local Abbreviation stepC d i :=
  (slice_add d i (end_ i) (replicate (Z.to_nat (end_ i - i)) 1%R)).
Local Abbreviation Inv rs d :=
  (length rs = length mix
   ∧ Z.of_nat (length d) = L
   ∧ ∀ j xj rj, mix !! j = Some xj → rs%list !! j = Some rj →
       Z.of_nat (length rj) = L
       ∧ ∀ p xp dp, xj !! p = Some xp → d%list !! p = Some dp
                    → rj !! p = Some (xp * dp)%R).

Lemma vit_chunk_identity (rs : list (list R)) (d : list R) (i : Z) :
  0 ≤ i < L → Inv rs d →
  ∃ rs',
    vit_chunk (identity_network S_) c mix
      (replicate S_ rs, replicate S_ (replicate (length mix) d)) i
    = (replicate S_ rs', replicate S_ (replicate (length mix) (stepC d i)))
    ∧ Inv rs' (stepC d i).
Proof.
  intros Hi (Hlen & Hd & Hinv).
  rewrite (vit_chunk_eq _ c L mix c_pos mix_rows mix_shape1) by exact Hi.
  unfold identity_network. rewrite zip_with_replicate, !fmap_replicate.
  eexists. split; [reflexivity|].
  split; [rewrite length_zip_with, length_map; lia|].
  split.
  { rewrite slice_add_length; [exact Hd|lia|lia|].
    rewrite length_replicate. lia. }
  intros j xj rj' Hxj Hrj'.
  rewrite lookup_zip_with, list_lookup_fmap, Hxj in Hrj'.
  destruct (rs !! j) as [rj|] eqn:Hrj; [|discriminate].
  cbn in Hrj'. injection Hrj' as <-.
  destruct (Hinv j xj rj Hxj Hrj) as [Hrl Hpt].
  assert (Hxl : Z.of_nat (length xj) = L).
  { apply (proj1 (Forall_lookup _ _) mix_rows j xj Hxj). }
  rewrite (plain_contribution c L xj c_pos Hxl i _ Hi).
  apply (result_step c L 0%Q xj c_pos Hxl rj d i Hi Hrl Hd Hpt).
Qed.

Lemma vit_fold_identity (starts : list Z) (rs : list (list R)) (d : list R) :
  Forall (λ i, 0 ≤ i < L) starts → Inv rs d →
  ∃ rs',
    foldl (vit_chunk (identity_network S_) c mix)
      (replicate S_ rs, replicate S_ (replicate (length mix) d)) starts
    = (replicate S_ rs',
       replicate S_ (replicate (length mix) (foldl (λ d i, stepC d i) d starts)))
    ∧ Inv rs' (foldl (λ d i, stepC d i) d starts).
Proof.
  revert rs d. induction starts as [|i starts IH]; intros rs d Hs HI.
  - exists rs. split; [reflexivity|exact HI].
  - apply Forall_cons in Hs as [Hi Hs]. cbn [foldl].
    destruct (vit_chunk_identity rs d i Hi HI) as (rs1 & -> & HI1).
    apply IH; [exact Hs|exact HI1].
Qed.

End VitIdentity.

Lemma div_by_counter (rs : list (list R)) (d : list R) (mix : list (list R)) (L : Z) :
  Forall (λ row, Z.of_nat (length row) = L) mix →
  length rs = length mix → Z.of_nat (length d) = L →
  (∀ j xj rj, mix !! j = Some xj → rs !! j = Some rj →
     Z.of_nat (length rj) = L
     ∧ ∀ p xp dp, xj !! p = Some xp → d !! p = Some dp
                  → rj !! p = Some (xp * dp)%R) →
  (∀ p, Z.of_nat p < L → ∃ y, d !! p = Some y ∧ (0 < y)%R) →
  Np.map2 fl_div rs (replicate (length mix) d) = Np.map1 Some mix.
Proof.
  intros Hrows Hlen Hd Hinv Hpos. unfold Np.map2, Np.map1.
  apply list_eq. intros j.
  rewrite lookup_zip_with, !list_lookup_fmap.
  destruct (mix !! j) as [xj|] eqn:Hxj.
  - destruct (lookup_lt_is_Some_2 rs j) as [rj Hrj].
    { apply lookup_lt_Some in Hxj. lia. }
    rewrite Hrj. cbn.
    rewrite (proj2 (lookup_replicate _ _ d _));
      [|split; [reflexivity|now apply lookup_lt_Some in Hxj]].
    cbn. f_equal.
    destruct (Hinv j xj rj Hxj Hrj) as [Hrl Hpt].
    assert (Hxl : Z.of_nat (length xj) = L).
    { apply (proj1 (Forall_lookup _ _) Hrows j xj Hxj). }
    apply list_eq. intros p.
    rewrite lookup_zip_with, list_lookup_fmap.
    destruct (xj !! p) as [xp|] eqn:Hxp.
    + assert (Hp : Z.of_nat p < L) by (apply lookup_lt_Some in Hxp; lia).
      destruct (Hpos p Hp) as (y & Hy & Hypos).
      rewrite (Hpt p xp y Hxp Hy), Hy. cbn.
      rewrite fl_div_finite by exact Hypos. do 2 f_equal. field. lra.
    + rewrite (lookup_ge_None_2 rj p); [reflexivity|].
      apply lookup_ge_None_1 in Hxp. lia.
  - rewrite (lookup_ge_None_2 rs j); [reflexivity|].
    apply lookup_ge_None_1 in Hxj. lia.
Qed.

(** X4. With a network that returns its input as every source, and an
    overlap between 1 and the chunk length, [demix_vitlarge] returns
    the mix itself under every key. *)
Theorem demix_vitlarge_identity (config : Config.t)
    (overlap_VitLarge : Z) (mix : list (list R)) (L : Z) (fuel : nat) :
  1 ≤ overlap_VitLarge
    ≤ Config.audio_hop_length config * (2 * Config.inference_dim_t config - 1) →
  Forall (λ row, Z.of_nat (length row) = L) mix → Np.shape1 mix = L →
  (Z.to_nat L ≤ fuel)%nat →
  demix_vitlarge
    (identity_network match Config.training_target_instrument config with
                  | Some _ => 1%nat
                  | None => length (Config.training_instruments config)
                  end)
    config fuel overlap_VitLarge mix
  = Some (dict_of_zip
            match Config.training_target_instrument config with
            | Some target_instrument => [target_instrument]
            | None => Config.training_instruments config
            end
            (replicate
               match Config.training_target_instrument config with
               | Some _ => 1%nat
               | None => length (Config.training_instruments config)
               end
               (Np.map1 Some mix))).
Proof.
  intros Hn Hrows Hshape1 Hfuel.
  set (c := Config.audio_hop_length config * (2 * Config.inference_dim_t config - 1)) in *.
  set (S_ := match Config.training_target_instrument config with
             | Some _ => 1%nat
             | None => length (Config.training_instruments config)
             end) in *.
  assert (Hc : 1 ≤ c) by lia.
  pose proof (vit_stride c overlap_VitLarge Hn) as Hstep.
  assert (HL : 0 ≤ L) by (rewrite <- Hshape1; apply shape1_nonneg).
  unfold demix_vitlarge. fold c. fold S_.
  destruct (Z.eqb_spec overlap_VitLarge 0) as [|_]; [lia|].
  rewrite (zeros_like mix L Hrows).
  set (zrow := replicate (Z.to_nat L) 0%R).
  destruct (vit_loop_range (identity_network S_) fuel c (c / overlap_VitLarge) mix
              (replicate S_ (replicate (length mix) zrow),
               replicate S_ (replicate (length mix) zrow)) 0)
    as (starts & Hrange & Hloop); [lia|lia|].
  rewrite Hloop. rewrite Hshape1 in Hrange.
  destruct (range_starts L (c / overlap_VitLarge) ltac:(lia))
    as (starts' & Hrange' & Hin & _ & _).
  rewrite Hrange in Hrange'. injection Hrange' as <-.
  destruct (vit_fold_identity c L mix S_ Hc Hrows Hshape1 starts
              (replicate (length mix) zrow) zrow Hin)
    as (rs & Hfold & Hlen & Hd & Hinv).
  { split; [apply length_replicate|].
    split; [unfold zrow; rewrite length_replicate; lia|].
    intros j xj rj Hxj Hrj. apply lookup_replicate in Hrj as [-> _].
    split; [unfold zrow; rewrite length_replicate; lia|].
    intros p xp dp Hxp Hdp. apply lookup_replicate in Hdp as [-> Hp].
    unfold zrow. rewrite (proj2 (lookup_replicate _ _ 0%R _));
      [f_equal; lra|split; [reflexivity|exact Hp]]. }
  rewrite Hfold. cbn [mbind option_bind].
  rewrite zip_with_replicate.
  rewrite (div_by_counter rs _ mix L Hrows Hlen Hd Hinv).
  - destruct (Config.training_target_instrument config); reflexivity.
  - intros p Hp.
    apply (vit_counter_pos c L (c / overlap_VitLarge) starts p Hc Hstep Hrange Hp).
Qed.

Lemma demix_vitlarge_identity_witness :
  demix_vitlarge (identity_network 1)
    {| Config.audio_hop_length := 1; Config.inference_dim_t := 2;
       Config.training_target_instrument := Some "vocals"%string;
       Config.training_instruments := ["vocals"; "other"]%string |}
    4 2 [[1; 2; 3; 4]; [5; 6; 7; 8]]%R
  = Some (dict_of_zip ["vocals"%string]
            [Np.map1 Some [[1; 2; 3; 4]; [5; 6; 7; 8]]%R]).
Proof.
  apply (demix_vitlarge_identity
           {| Config.audio_hop_length := 1; Config.inference_dim_t := 2;
              Config.training_target_instrument := Some "vocals"%string;
              Config.training_instruments := ["vocals"; "other"]%string |}
           2 [[1; 2; 3; 4]; [5; 6; 7; 8]]%R 4 4).
  - simpl. lia.
  - repeat constructor.
  - reflexivity.
  - simpl. lia.
Defined.


Lemma shifts_head {A} (mix : list (list A)) (bigshifts : Z) :
  ∃ rest, shifts mix bigshifts = 0 :: rest.
Proof.
  unfold shifts.
  set (b := if bigshifts <=? 0 then 1 else bigshifts).
  assert (Hb : 0 < b) by (subst b; destruct (Z.leb_spec bigshifts 0); lia).
  rewrite seqZ_cons by exact Hb. cbn [map]. eauto.
Qed.



(** ** [demix_base_mdxv3] *)

(** X6. If [overlap_InstVoc] is 0 or less, or larger than the chunk
    length, [demix_base_mdxv3] raises, whatever the mix and the
    network: the division [C // N] raises, or the stride it gives is 0
    or negative, or a size given to [torch.zeros] is negative. *)
Theorem demix_base_mdxv3_raises
    (model : list (list R) → list (list (list R))) (config : Config.t)
    (num_target_instruments overlap_InstVoc : Z) (mix : list (list R)) :
  overlap_InstVoc ≤ 0
  ∨ Config.audio_hop_length config * (Config.inference_dim_t config * 2 - 1)
    < overlap_InstVoc →
  demix_base_mdxv3 model config num_target_instruments overlap_InstVoc mix = None.
Proof.
  intros Hn. unfold demix_base_mdxv3.
  set (C := Config.audio_hop_length config * (Config.inference_dim_t config * 2 - 1)) in *.
  set (N := overlap_InstVoc) in *.
  destruct (Z.eqb_spec N 0) as [|Hn0]; [reflexivity|].
  destruct (Z.eqb_spec (C / N) 0) as [|Hh0]; [reflexivity|].
  destruct ((C - C / N <? 0) || _) eqn:Hz; [reflexivity|].
  apply orb_false_iff in Hz as [Hz1 Hz2].
  apply Z.ltb_ge in Hz1.
  assert (HH : C / N ≤ 0).
  { destruct Hn as [Hneg|Hbig].
    - assert (N < 0) by lia.
      destruct (Z.le_gt_cases 0 C) as [HC|HC].
      + rewrite <- Z.div_opp_opp by lia. apply Z.div_le_upper_bound; lia.
      + exfalso.
        assert (0 ≤ C / N).
        { rewrite <- Z.div_opp_opp by lia. apply Z.div_pos; lia. }
        lia.
    - destruct (Z.le_gt_cases 0 C) as [HC|HC].
      + rewrite Z.div_small in Hh0 by lia. lia.
      + destruct (Z.lt_ge_cases 0 N) as [HN|HN].
        * apply Z.lt_le_incl. apply Z.div_lt_upper_bound; lia.
        * exfalso.
          assert (0 ≤ C / N).
          { rewrite <- Z.div_opp_opp by lia. apply Z.div_pos; lia. }
          lia. }
  destruct (Z.leb_spec (C / N) 0) as [_|]; [|lia].
  now rewrite orb_true_r.
Qed.

Lemma demix_base_mdxv3_raises_witness :
  demix_base_mdxv3 (identity_network 2)
    {| Config.audio_hop_length := 1; Config.inference_dim_t := 2;
       Config.training_target_instrument := None;
       Config.training_instruments := ["Vocals"; "Instrumental"]%string |}
    2 4 [[1; 2]; [3; 4]]%R
  = None.
Proof.
  apply (demix_base_mdxv3_raises (identity_network 2)
           {| Config.audio_hop_length := 1; Config.inference_dim_t := 2;
              Config.training_target_instrument := None;
              Config.training_instruments := ["Vocals"; "Instrumental"]%string |}
           2 4 [[1; 2]; [3; 4]]%R).
  right. simpl. lia.
Defined.

(** ** How many windows hold a sample *)

Lemma div_ge_iff (H n p : Z) : 0 < H → (n ≤ p / H ↔ n * H ≤ p).
Proof.
  intros HH. split.
  - intros Hn. pose proof (Z.mul_div_le p H HH). nia.
  - intros Hn. apply Z.div_le_lower_bound; lia.
Qed.

Lemma div_lt_iff (H n p : Z) : 0 < H → (p / H < n ↔ p < n * H).
Proof.
  intros HH. split.
  - intros Hn. pose proof (Z.mul_succ_div_gt p H HH). nia.
  - intros Hn. apply Z.div_lt_upper_bound; lia.
Qed.

Lemma cover_0 (C H p : Z) : 0 < H → 0 ≤ p → cover C H 0 p = 0.
Proof.
  intros HH Hp. unfold cover.
  assert (0 ≤ p / H) by (apply Z.div_pos; lia). lia.
Qed.

Lemma cover_step (C H n p : Z) :
  0 < H → 0 ≤ n → 0 ≤ p →
  cover C H (n + 1) p
  = cover C H n p + (if decide (n * H ≤ p < n * H + C) then 1 else 0).
Proof.
  intros HH Hn Hp. unfold cover.
  pose proof (div_ge_iff H n p HH) as H1.
  pose proof (div_lt_iff H n (p - C) HH) as H2.
  assert (0 ≤ p / H) by (apply Z.div_pos; lia).
  destruct (decide (n * H ≤ p < n * H + C)) as [Hin|Hout]; lia.
Qed.

(** With [C = N * H], every position from [(N - 1) * H] up to the
    start of the last window is held by exactly [N] windows. *)
Lemma cover_full (N H K p : Z) :
  0 < H → 1 ≤ N → (N - 1) * H ≤ p < K * H →
  cover (N * H) H K p = N.
Proof.
  intros HH HN Hp. unfold cover.
  replace (p - N * H) with (p + (- N) * H) by lia.
  rewrite Z.div_add by lia.
  pose proof (div_ge_iff H (N - 1) p HH) as H1.
  pose proof (div_lt_iff H K p HH) as H2.
  lia.
Qed.

(** ** The window loop *)

Lemma mdx_loop_indexed (model : list (list R) → list (list (list R)))
    (C H : Z) (mixp : list (list R)) (n : nat) (k0 : Z) (xx : list (list (list R))) :
  foldl (λ '(xx, cnt) batch, (mdx_add C H xx cnt (model batch), cnt + 1))
    (xx, k0)
    (map (λ k, Np.cols mixp (Some (k * H)) (Some (k * H + C)))
       (seqZ k0 (Z.of_nat n)))
  = (foldl (λ xx k, mdx_add C H xx k
                      (model (Np.cols mixp (Some (k * H)) (Some (k * H + C)))))
       xx (seqZ k0 (Z.of_nat n)),
     k0 + Z.of_nat n).
Proof.
  revert k0 xx. induction n as [|n IH]; intros k0 xx.
  - change (Z.of_nat 0) with 0. rewrite Z.add_0_r. reflexivity.
  - rewrite seqZ_cons by lia. cbn [map foldl].
    replace (Z.pred (Z.of_nat (S n))) with (Z.of_nat n) by lia.
    replace (Z.succ k0) with (k0 + 1) by lia.
    rewrite IH. f_equal. lia.
Qed.

Section MdxIdentity.

Variables (C H Lp : Z) (mixp : list (list R)) (S_ : nat).
Hypothesis H_pos : 0 < H.
Hypothesis C_pos : 0 ≤ C.
Hypothesis mixp_rows : Forall (λ row, Z.of_nat (length row) = Lp) mixp.

Local Abbreviation chunk k := (Np.cols mixp (Some (k * H)%Z) (Some (k * H + C)%Z)).
Local Abbreviation Inv n rs :=
  (length rs = length mixp
   ∧ ∀ j xj rj, mixp !! j = Some xj → rs%list !! j = Some rj →
       Z.of_nat (length rj) = Lp
       ∧ ∀ p xp, xj !! p = Some xp
                 → rj !! p = Some (xp * IZR (cover C H n (Z.of_nat p)))%R).

Lemma mdx_add_identity (rs : list (list R)) (n : Z) :
  0 ≤ n → n * H + C ≤ Lp → Inv n rs →
  ∃ rs',
    mdx_add C H (replicate S_ rs) n (identity_network S_ (chunk n)) = replicate S_ rs'
    ∧ Inv (n + 1) rs'.
Proof.
  intros Hn Hfit (Hlen & Hinv).
  unfold mdx_add, identity_network. rewrite zip_with_replicate.
  eexists. split; [reflexivity|].
  unfold Np.cols.
  split; [rewrite length_zip_with, length_map; lia|].
  intros j xj rj' Hxj Hrj'.
  rewrite lookup_zip_with, list_lookup_fmap, Hxj in Hrj'.
  destruct (rs !! j) as [rj|] eqn:Hrj; [|discriminate].
  cbn in Hrj'. injection Hrj' as <-.
  destruct (Hinv j xj rj Hxj Hrj) as [Hrl Hpt].
  assert (Hxl : Z.of_nat (length xj) = Lp).
  { apply (proj1 (Forall_lookup _ _) mixp_rows j xj Hxj). }
  assert (Hn0 : 0 ≤ n * H) by nia.
  assert (Hwl : length (Py.slice xj (Some (n * H)) (Some (n * H + C)))
                = Z.to_nat (n * H + C - n * H)).
  { rewrite slice_inside by lia. rewrite length_take, length_drop. lia. }
  split; [rewrite slice_add_length by lia; exact Hrl|].
  intros p xp Hxp.
  rewrite slice_add_lookup by lia.
  rewrite cover_step by lia.
  rewrite (Hpt p xp Hxp).
  destruct (decide (n * H ≤ Z.of_nat p < n * H + C)) as [Hin|Hout];
    [|f_equal; rewrite plus_IZR; lra].
  cbn [mbind option_bind].
  rewrite slice_inside by lia.
  rewrite lookup_take_lt by lia. rewrite lookup_drop.
  replace (Z.to_nat (n * H) + (p - Z.to_nat (n * H)))%nat with p by lia.
  rewrite Hxp. cbn. f_equal. rewrite plus_IZR. lra.
Qed.

Lemma mdx_fold_identity (n : nat) (k0 : Z) (rs : list (list R)) :
  0 ≤ k0 → (k0 + Z.of_nat n - 1) * H + C ≤ Lp → Inv k0 rs →
  ∃ rs',
    foldl (λ xx k, mdx_add C H xx k (identity_network S_ (chunk k)))
      (replicate S_ rs) (seqZ k0 (Z.of_nat n))
    = replicate S_ rs'
    ∧ Inv (k0 + Z.of_nat n) rs'.
Proof.
  revert k0 rs. induction n as [|n IH]; intros k0 rs Hk Hfit HI.
  - exists rs. split; [reflexivity|]. now rewrite Z.add_0_r.
  - rewrite seqZ_cons by lia. cbn [foldl].
    replace (Z.pred (Z.of_nat (S n))) with (Z.of_nat n) by lia.
    replace (Z.succ k0) with (k0 + 1) by lia.
    destruct (mdx_add_identity rs k0 Hk ltac:(nia) HI) as (rs1 & -> & HI1).
    destruct (IH (k0 + 1) rs1 ltac:(lia) ltac:(nia) HI1) as (rs2 & Hf & HI2).
    exists rs2. split; [exact Hf|].
    replace (k0 + Z.of_nat (S n)) with (k0 + 1 + Z.of_nat n) by lia. exact HI2.
Qed.

End MdxIdentity.

Lemma slice_inside_neg {A} (l : list A) (a b : Z) :
  0 ≤ a → 0 < b → a + b ≤ Z.of_nat (length l) →
  Py.slice l (Some a) (Some (- b))
  = take (Z.to_nat (Z.of_nat (length l) - b - a)) (drop (Z.to_nat a) l).
Proof.
  intros Ha Hb Hl. unfold Py.slice, Py.index. cbn [from_option].
  destruct (Z.ltb_spec a 0) as [|_]; [lia|].
  destruct (Z.ltb_spec (- b) 0) as [_|]; [|lia].
  do 2 f_equal; lia.
Qed.

Lemma pad_stereo {A} (a b m0 m1 : list A) :
  Np.concatenate (Np.concatenate (replicate 2 a) [m0; m1]) (replicate 2 b)
  = [(a ++ m0) ++ b; (a ++ m1) ++ b].
Proof. reflexivity. Qed.

(** X7. With a network that returns its chunk as every target, and an
    overlap that divides the chunk length, every kept sample is the
    sum of exactly [overlap_InstVoc] copies of itself and
    [demix_base_mdxv3] returns the mix. *)
Theorem demix_base_mdxv3_identity (config : Config.t)
    (num_target_instruments overlap_InstVoc : Z) (mix : list (list R)) (L : Z) :
  1 ≤ overlap_InstVoc →
  1 ≤ Config.audio_hop_length config * (Config.inference_dim_t config * 2 - 1) →
  (Config.audio_hop_length config * (Config.inference_dim_t config * 2 - 1))
    `mod` overlap_InstVoc = 0 →
  length mix = 2%nat → Forall (λ row, Z.of_nat (length row) = L) mix →
  demix_base_mdxv3
    (identity_network (if 1 <? num_target_instruments
                   then Z.to_nat num_target_instruments else 1%nat))
    config num_target_instruments overlap_InstVoc mix
  = Some (if 1 <? num_target_instruments
          then inl (dict_of_zip (Config.training_instruments config)
                      (replicate (Z.to_nat num_target_instruments) mix))
          else inr mix).
Proof.
  intros HN HC Hdiv Hlen Hrows.
  destruct (stereo_rows mix L Hlen Hrows) as (m0 & m1 & -> & Hm1 & Hm0).
  unfold demix_base_mdxv3.
  set (C := Config.audio_hop_length config * (Config.inference_dim_t config * 2 - 1)) in *.
  set (N := overlap_InstVoc) in *.
  set (S_ := if 1 <? num_target_instruments
             then Z.to_nat num_target_instruments else 1%nat).
  set (H := C / N).
  assert (HCN : C = N * H).
  { subst H. apply Z.div_exact in Hdiv; lia. }
  assert (HH : 1 ≤ H) by nia.
  assert (HCH : 0 ≤ C - H) by nia.
  destruct (Z.eqb_spec N 0) as [|_]; [lia|].
  destruct (Z.eqb_spec H 0) as [|_]; [lia|].
  cbn [Np.shape1]. rewrite Hm0.
  set (pad_size := H - (L - C) `mod` H).
  assert (Hpad : L + pad_size = H * (L / H + 1)).
  { subst pad_size. 
    replace (L - C) with (L + (- N) * H) by lia.
    rewrite Z_mod_plus_full.
    pose proof (Z.div_mod L H ltac:(lia)). lia. }
  assert (HL : 0 ≤ L) by lia.
  assert (HLH : 0 ≤ L / H) by (apply Z.div_pos; lia).
  pose proof (Z.mod_pos_bound (L - C) H ltac:(lia)) as Hmod.
  assert (Hp1 : 1 ≤ pad_size) by (subst pad_size; lia).
  destruct (Z.ltb_spec (C - H) 0) as [|_]; [nia|].
  destruct (Z.ltb_spec (pad_size + C - H) 0) as [|_]; [nia|].
  cbn [orb]. rewrite pad_stereo.
  set (za := replicate (Z.to_nat (C - H)) 0%R).
  set (zb := replicate (Z.to_nat (pad_size + C - H)) 0%R).
  set (Lp := (C - H) + L + (pad_size + C - H)).
  assert (Hx0 : Z.of_nat (length ((za ++ m0) ++ zb)) = Lp).
  { subst za zb Lp. rewrite !length_app, !length_replicate. nia. }
  assert (Hx1 : Z.of_nat (length ((za ++ m1) ++ zb)) = Lp).
  { subst za zb Lp. rewrite !length_app, !length_replicate. nia. }
  cbn [Np.shape1]. rewrite Hx0.
  assert (HLpC : Lp - C = (L / H + N - 1) * H) by (subst Lp; nia).
  destruct (Z.ltb_spec Lp C) as [|_]; [nia|].
  destruct (Z.leb_spec H 0) as [|_]; [lia|].
  cbn [orb]. rewrite HLpC, Z.div_mul by lia.
  set (K := L / H + N - 1 + 1).
  replace K with (Z.of_nat (Z.to_nat K)) by (subst K; lia).
  rewrite mdx_loop_indexed.
  cbn [map]. fold S_.
  assert (Hrowsp : Forall (λ row, Z.of_nat (length row) = Lp)
                     [(za ++ m0) ++ zb; (za ++ m1) ++ zb]).
  { repeat constructor; assumption. }
  destruct (mdx_fold_identity C H Lp [(za ++ m0) ++ zb; (za ++ m1) ++ zb] S_
              ltac:(lia) ltac:(lia) Hrowsp (Z.to_nat K) 0
              [replicate (length ((za ++ m0) ++ zb)) 0%R;
               replicate (length ((za ++ m1) ++ zb)) 0%R])
    as (rs & Hfold & Hrl & Hinv).
  { lia. }
  { subst K. nia. }
  { split; [reflexivity|].
    intros j xj rj Hxj Hrj.
    assert (Hxl : Z.of_nat (length xj) = Lp).
    { apply (proj1 (Forall_lookup _ _) Hrowsp j xj Hxj). }
    assert (Hrj' : rj = replicate (length xj) 0%R).
    { destruct j as [|[|j]]; cbn in Hxj, Hrj; try discriminate;
        injection Hxj as <-; injection Hrj as <-; reflexivity. }
    subst rj. split; [rewrite length_replicate; exact Hxl|].
    intros p xp Hxp. rewrite cover_0 by lia.
    rewrite (proj2 (lookup_replicate _ _ 0%R _));
      [f_equal; lra|split; [reflexivity|now apply lookup_lt_Some in Hxp]]. }
  rewrite Hfold.
  rewrite fmap_replicate.
  assert (Hout : Arr.div (Np.cols rs (Some (C - H)) (Some (- (pad_size + C - H))))
                   (IZR N) = [m0; m1]).
  { unfold Arr.div, Np.map1, Np.cols. rewrite map_map.
    cbn [length] in Hrl.
    destruct rs as [|r0 [|r1 [|r2 rs]]]; try discriminate Hrl.
    cbn [map].
    assert (Hrow : ∀ (j : nat) (xj rj mj : list R),
              [(za ++ m0) ++ zb; (za ++ m1) ++ zb] !! j = Some xj →
              [r0; r1] !! j = Some rj →
              xj = (za ++ mj) ++ zb → Z.of_nat (length mj) = L →
              map (λ x, (x / IZR N)%R)
                (Py.slice rj (Some (C - H)) (Some (- (pad_size + C - H))))
              = mj).
    { intros j xj rj mj Hxj Hrj -> Hmj.
      destruct (Hinv j _ rj Hxj Hrj) as [Hrjl Hpt].
      rewrite slice_inside_neg by lia.
      apply list_eq. intros p.
      rewrite list_lookup_fmap.
      destruct (decide (p < length mj)%nat) as [Hp|Hp].
      - rewrite lookup_take_lt by (subst Lp; lia).
        rewrite lookup_drop.
        destruct (lookup_lt_is_Some_2 mj p Hp) as [xp Hxp].
        assert (Hxp' : ((za ++ mj) ++ zb) !! (Z.to_nat (C - H) + p)%nat = Some xp).
        { rewrite lookup_app_l by (rewrite length_app; subst za; rewrite length_replicate; lia).
          rewrite lookup_app_r by (subst za; rewrite length_replicate; lia).
          subst za. rewrite length_replicate.
          replace (Z.to_nat (C - H) + p - Z.to_nat (C - H))%nat with p by lia.
          exact Hxp. }
        rewrite (Hpt _ xp Hxp'). cbn. rewrite Hxp. f_equal.
        replace (0 + Z.of_nat (Z.to_nat K)) with K by (subst K; lia).
        rewrite HCN. rewrite cover_full; [|lia|lia|].
        + field. apply not_0_IZR. lia.
        + subst K. nia.
      - rewrite (lookup_ge_None_2 mj p) by lia.
        rewrite lookup_take_ge; [reflexivity|]. subst Lp. lia. }
    f_equal; [|f_equal].
    - apply (Hrow 0%nat ((za ++ m0) ++ zb) r0 m0); try reflexivity. exact Hm0.
    - apply (Hrow 1%nat ((za ++ m1) ++ zb) r1 m1); try reflexivity. lia. }
  rewrite Hout.
  subst S_. destruct (1 <? num_target_instruments); reflexivity.
Qed.

Lemma demix_base_mdxv3_identity_witness :
  demix_base_mdxv3 (identity_network 2)
    {| Config.audio_hop_length := 1; Config.inference_dim_t := 2;
       Config.training_target_instrument := None;
       Config.training_instruments := ["Vocals"; "Instrumental"]%string |}
    2 3 [[1; 2]; [3; 4]]%R
  = Some (inl (dict_of_zip ["Vocals"; "Instrumental"]%string
                 [[[1; 2]; [3; 4]]; [[1; 2]; [3; 4]]]%R)).
Proof.
  apply (demix_base_mdxv3_identity
           {| Config.audio_hop_length := 1; Config.inference_dim_t := 2;
              Config.training_target_instrument := None;
              Config.training_instruments := ["Vocals"; "Instrumental"]%string |}
           2 3 [[1; 2]; [3; 4]]%R 2).
  - lia.
  - simpl. lia.
  - reflexivity.
  - reflexivity.
  - repeat constructor.
Defined.

(** ** Shapes through the window loop *)

Section MdxShapes.

Variable model : list (list R) → list (list (list R)).
Variables (C H Lp : Z) (mixp : list (list R)) (S_ : nat).
Hypothesis H_pos : 0 < H.
Hypothesis C_pos : 0 ≤ C.
Hypothesis mixp_rows : Forall (λ row, Z.of_nat (length row) = Lp) mixp.
Hypothesis model_shape :
  ∀ chunk, length (model chunk) = S_
           ∧ Forall (λ src, Np.shape src = Np.shape chunk) (model chunk).

Local Abbreviation chunk k := (Np.cols mixp (Some (k * H)%Z) (Some (k * H + C)%Z)).
Local Abbreviation RInv xx :=
  (length xx = S_
   ∧ Forall (λ src : list (list R),
       length src = length mixp
       ∧ Forall (λ row, Z.of_nat (length row) = Lp) src) xx).

Lemma mdx_add_shape (xx : list (list (list R))) (n : Z) :
  0 ≤ n → n * H + C ≤ Lp → RInv xx → RInv (mdx_add C H xx n (model (chunk n))).
Proof.
  intros Hn Hfit [Hlen Hxx].
  destruct (model_shape (chunk n)) as [HmS Hmshape].
  assert (Hn0 : 0 ≤ n * H) by nia.
  assert (Hchunk : Forall (λ row : list R, length row = Z.to_nat C) (chunk n)).
  { unfold Np.cols. apply Forall_forall. intros row' Hin.
    apply list_elem_of_fmap in Hin as (row & -> & Hin).
    pose proof (proj1 (Forall_forall _ _) mixp_rows row Hin) as Hrl. cbv beta in Hrl.
    rewrite slice_inside by lia. rewrite length_take, length_drop. lia. }
  apply shape_rows in Hchunk. unfold Np.cols in Hchunk at 2.
  rewrite length_map in Hchunk.
  unfold mdx_add. split; [rewrite length_zip_with; lia|].
  eapply Forall_zip_with_2; [exact Hxx|exact Hmshape|].
  intros src wsrc [Hsl Hsrows] Hw. cbv beta in Hw.
  rewrite Hchunk in Hw.
  assert (Hwl : length wsrc = length mixp).
  { apply (f_equal length) in Hw. unfold Np.shape in Hw.
    now rewrite length_map, length_replicate in Hw. }
  rewrite <- Hwl in Hw. apply shape_rows in Hw.
  split; [rewrite length_zip_with; lia|].
  eapply Forall_zip_with_2; [exact Hsrows|exact Hw|].
  intros row wr Hrow Hwr. cbv beta in *.
  rewrite slice_add_length; [exact Hrow|lia|lia|lia].
Qed.

Lemma mdx_fold_shape (n : nat) (k0 : Z) (xx : list (list (list R))) :
  0 ≤ k0 → (k0 + Z.of_nat n - 1) * H + C ≤ Lp → RInv xx →
  RInv (foldl (λ xx k, mdx_add C H xx k (model (chunk k))) xx
          (seqZ k0 (Z.of_nat n))).
Proof.
  revert k0 xx. induction n as [|n IH]; intros k0 xx Hk Hfit HI; [exact HI|].
  rewrite seqZ_cons by lia. cbn [foldl].
  replace (Z.pred (Z.of_nat (S n))) with (Z.of_nat n) by lia.
  replace (Z.succ k0) with (k0 + 1) by lia.
  apply IH; [lia|nia|]. apply mdx_add_shape; [exact Hk|nia|exact HI].
Qed.

End MdxShapes.

(** X8. With an overlap between 1 and the chunk length, a stereo mix
    and a network that keeps the shape of its chunk, the call returns
    one array per target, each of the shape of the mix. *)
Theorem demix_base_mdxv3_shape
    (model : list (list R) → list (list (list R))) (config : Config.t)
    (num_target_instruments overlap_InstVoc : Z) (mix : list (list R)) (L : Z) :
  1 ≤ overlap_InstVoc
    ≤ Config.audio_hop_length config * (Config.inference_dim_t config * 2 - 1) →
  length mix = 2%nat → Forall (λ row, Z.of_nat (length row) = L) mix →
  (∀ chunk,
     length (model chunk)
     = (if 1 <? num_target_instruments
        then Z.to_nat num_target_instruments else 1%nat)
     ∧ Forall (λ src, Np.shape src = Np.shape chunk) (model chunk)) →
  ∃ estimated_sources,
    length estimated_sources
    = (if 1 <? num_target_instruments
       then Z.to_nat num_target_instruments else 1%nat)
    ∧ Forall (λ v, Np.shape v = Np.shape mix) estimated_sources
    ∧ demix_base_mdxv3 model config num_target_instruments overlap_InstVoc mix
      = if 1 <? num_target_instruments
        then Some (inl (dict_of_zip (Config.training_instruments config)
                          estimated_sources))
        else inr <$> head estimated_sources.
Proof.
  intros HN Hlen Hrows Hmodel.
  destruct (stereo_rows mix L Hlen Hrows) as (m0 & m1 & -> & Hm1 & Hm0).
  unfold demix_base_mdxv3.
  set (C := Config.audio_hop_length config * (Config.inference_dim_t config * 2 - 1)) in *.
  set (N := overlap_InstVoc) in *.
  set (S_ := if 1 <? num_target_instruments
             then Z.to_nat num_target_instruments else 1%nat) in *.
  set (H := C / N).
  assert (HH : 1 ≤ H ≤ C) by (apply vit_stride; exact HN).
  assert (HNH : N * H ≤ C) by (apply Z.mul_div_le; lia).
  destruct (Z.eqb_spec N 0) as [|_]; [lia|].
  destruct (Z.eqb_spec H 0) as [|_]; [lia|].
  cbn [Np.shape1]. rewrite Hm0.
  set (pad_size := H - (L - C) `mod` H).
  assert (HL : 0 ≤ L) by lia.
  pose proof (Z.mod_pos_bound (L - C) H ltac:(lia)) as Hmod.
  assert (Hp1 : 1 ≤ pad_size ≤ H) by (subst pad_size; lia).
  destruct (Z.ltb_spec (C - H) 0) as [|_]; [lia|].
  destruct (Z.ltb_spec (pad_size + C - H) 0) as [|_]; [lia|].
  cbn [orb]. rewrite pad_stereo.
  set (za := replicate (Z.to_nat (C - H)) 0%R).
  set (zb := replicate (Z.to_nat (pad_size + C - H)) 0%R).
  set (Lp := (C - H) + L + (pad_size + C - H)).
  assert (Hx0 : Z.of_nat (length ((za ++ m0) ++ zb)) = Lp).
  { subst za zb Lp. rewrite !length_app, !length_replicate. lia. }
  assert (Hx1 : Z.of_nat (length ((za ++ m1) ++ zb)) = Lp).
  { subst za zb Lp. rewrite !length_app, !length_replicate. lia. }
  cbn [Np.shape1]. rewrite Hx0.
  assert (HLpC : C ≤ Lp).
  { destruct (Z.eq_dec N 1) as [HN1|HN1].
    - assert (HHC : H = C) by (subst H; rewrite HN1; apply Z.div_1_r).
      assert (Hd : L - C + pad_size = H * ((L - C) / H) + H).
      { subst pad_size. pose proof (Z.div_mod (L - C) H ltac:(lia)). lia. }
      assert (Hq : -1 ≤ (L - C) / H).
      { apply Z.div_le_lower_bound; lia. }
      subst Lp. nia.
    - subst Lp. nia. }
  destruct (Z.ltb_spec Lp C) as [|_]; [lia|].
  destruct (Z.leb_spec H 0) as [|_]; [lia|].
  cbn [orb].
  set (K := (Lp - C) / H + 1).
  assert (HK : 1 ≤ K ∧ (K - 1) * H + C ≤ Lp).
  { subst K. pose proof (Z.mul_div_le (Lp - C) H ltac:(lia)).
    assert (0 ≤ (Lp - C) / H) by (apply Z.div_pos; lia). nia. }
  replace K with (Z.of_nat (Z.to_nat K)) by lia.
  rewrite mdx_loop_indexed.
  cbn [map].
  assert (Hrowsp : Forall (λ row, Z.of_nat (length row) = Lp)
                     [(za ++ m0) ++ zb; (za ++ m1) ++ zb]).
  { repeat constructor; assumption. }
  pose proof (mdx_fold_shape model C H Lp [(za ++ m0) ++ zb; (za ++ m1) ++ zb] S_
                ltac:(lia) ltac:(lia) Hrowsp Hmodel (Z.to_nat K) 0
                (replicate S_ [replicate (length ((za ++ m0) ++ zb)) 0%R;
                               replicate (length ((za ++ m1) ++ zb)) 0%R])
                ltac:(lia) ltac:(lia)) as [HxxS Hxx].
  { split; [apply length_replicate|].
    apply Forall_replicate. split; [reflexivity|].
    repeat constructor; rewrite length_replicate; assumption. }
  set (xx := foldl _ _ (seqZ 0 (Z.of_nat (Z.to_nat K)))) in *.
  set (est := map (λ src, Arr.div (Np.cols src (Some (C - H))
                                     (Some (- (pad_size + C - H)))) (IZR N)) xx).
  exists est. split; [|split].
  - subst est. now rewrite length_map.
  - subst est. apply Forall_forall. intros v Hv.
    apply list_elem_of_fmap in Hv as (src & -> & Hsrc).
    pose proof (proj1 (Forall_forall _ _) Hxx src Hsrc) as [Hsl Hsrows].
    cbv beta in Hsl, Hsrows. cbn [length] in Hsl.
    unfold Arr.div, Np.map1, Np.cols, Np.shape. rewrite !map_map.
    destruct src as [|r0 [|r1 [|r2 src]]]; try discriminate Hsl.
    apply Forall_cons in Hsrows as [Hr0 Hsrows].
    apply Forall_cons in Hsrows as [Hr1 _].
    cbn [map]. rewrite !length_map.
    rewrite !slice_inside_neg by lia.
    rewrite !length_take, !length_drop.
    f_equal; [|f_equal]; subst Lp; lia.
  - destruct (1 <? num_target_instruments); reflexivity.
Qed.

Lemma demix_base_mdxv3_shape_witness :
  ∃ estimated_sources,
    length estimated_sources = 2%nat
    ∧ Forall (λ v, Np.shape v = Np.shape [[1; 2]; [3; 4]]%R) estimated_sources
    ∧ demix_base_mdxv3 (identity_network 2)
        {| Config.audio_hop_length := 1; Config.inference_dim_t := 2;
           Config.training_target_instrument := None;
           Config.training_instruments := ["Vocals"; "Instrumental"]%string |}
        2 2 [[1; 2]; [3; 4]]%R
      = Some (inl (dict_of_zip ["Vocals"; "Instrumental"]%string estimated_sources)).
Proof.
  apply (demix_base_mdxv3_shape (identity_network 2)
           {| Config.audio_hop_length := 1; Config.inference_dim_t := 2;
              Config.training_target_instrument := None;
              Config.training_instruments := ["Vocals"; "Instrumental"]%string |}
           2 2 [[1; 2]; [3; 4]]%R 2).
  - simpl. lia.
  - reflexivity.
  - repeat constructor.
  - intros chunk. split; [reflexivity|repeat constructor].
Defined.

(** ** The stride outside the admissible overlaps *)

Lemma step_zero (m : Conv_TDF_net_trim_model) (ov : Q) :
  (-1 < (1 - ov) * inject_Z (chunk_size m))%Q →
  ((1 - ov) * inject_Z (chunk_size m) < 1)%Q →
  step m ov = 0.
Proof.
  intros Hlo Hhi. unfold step, Py.int.
  set (q := ((1 - ov) * inject_Z (chunk_size m))%Q) in *.
  destruct (Qle_bool 0 q) eqn:E.
  - apply Qle_bool_iff in E.
    assert (H0 : 0 ≤ Qfloor q).
    { rewrite <- (Qfloor_Z 0). now apply Qfloor_resp_le. }
    assert (H1 : Qfloor q < 1).
    { rewrite Zlt_Qlt. eapply Qle_lt_trans; [apply Qfloor_le|exact Hhi]. }
    lia.
  - assert (Hq : (q < 0)%Q).
    { apply Qnot_le_lt. intros Hle. apply Qle_bool_iff in Hle. congruence. }
    assert (H0 : Qceiling q ≤ 0).
    { rewrite <- (Qceiling_Z 0). apply Qceiling_resp_le. now apply Qlt_le_weak. }
    assert (H1 : -1 < Qceiling q).
    { rewrite Zlt_Qlt. eapply Qlt_le_trans; [exact Hlo|apply Qle_ceiling]. }
    lia.
Qed.

Lemma step_negative (m : Conv_TDF_net_trim_model) (ov : Q) :
  ((1 - ov) * inject_Z (chunk_size m) <= -1)%Q → step m ov ≤ -1.
Proof.
  intros Hq. unfold step, Py.int.
  set (q := ((1 - ov) * inject_Z (chunk_size m))%Q) in *.
  destruct (Qle_bool 0 q) eqn:E.
  - apply Qle_bool_iff in E. exfalso.
    apply (Qle_not_lt _ _ (Qle_trans _ _ _ E Hq)). reflexivity.
  - rewrite <- (Qceiling_Z (-1)). now apply Qceiling_resp_le.
Qed.

Lemma range_backwards (L step : Z) : step < 0 → 0 ≤ L → Py.range 0 L step = Some [].
Proof.
  intros Hs HL. unfold Py.range.
  destruct (Z.eqb_spec step 0) as [|_]; [lia|].
  destruct (Z.ltb_spec 0 step) as [|_]; [lia|].
  assert (Hc : (0 - L - step - 1) / - step ≤ 0).
  { apply Z.lt_succ_r. apply Z.div_lt_upper_bound; lia. }
  destruct ((0 - L - step - 1) / - step) as [|q|q]; [reflexivity|lia|reflexivity].
Qed.

(** X9. An overlap within [1 / chunk_size] of 1 gives a stride of 0:
    the chunk loop's [range] raises and [demix] returns nothing. *)
Theorem demix_zero_stride_raises
    (stft : list (list R) → list (list (list R)))
    (run : list (list (list R)) → list (list (list R)))
    (istft : list (list (list R)) → list (list R))
    (m : Conv_TDF_net_trim_model) (ov : Q) (mix : list (list R)) :
  (-1 < (1 - ov) * inject_Z (chunk_size m))%Q →
  ((1 - ov) * inject_Z (chunk_size m) < 1)%Q →
  step m ov = 0 ∧ demix stft run istft mix [m] ov = None.
Proof.
  intros Hlo Hhi. pose proof (step_zero m ov Hlo Hhi) as Hs.
  split; [exact Hs|].
  unfold demix, demix_loop. cbn [head mbind option_bind].
  destruct (mixture m mix) as [mx|]; [|reflexivity].
  cbn [mbind option_bind]. rewrite Hs. reflexivity.
Qed.

Lemma demix_zero_stride_raises_witness :
  step {| dim_c := 4; dim_f := 3072; dim_t := 256; n_fft := 7680; hop := 1024 |} 1
  = 0
  ∧ demix (λ _, []) (λ _, []) (λ _, []) [[1]; [2]]%R
      [{| dim_c := 4; dim_f := 3072; dim_t := 256; n_fft := 7680; hop := 1024 |}] 1
    = None.
Proof.
  apply (demix_zero_stride_raises (λ _, []) (λ _, []) (λ _, [])
           {| dim_c := 4; dim_f := 3072; dim_t := 256; n_fft := 7680; hop := 1024 |}
           1 [[1]; [2]]%R).
  - vm_compute. reflexivity.
  - vm_compute. reflexivity.
Defined.

(** X10. An overlap of [1 + 1 / chunk_size] or more gives a negative
    stride: no chunk is processed, the divider stays 0 and [demix]
    returns an array of the shape of the mix in which every sample is
    NaN. *)
Theorem demix_negative_stride_all_nan
    (stft : list (list R) → list (list (list R)))
    (run : list (list (list R)) → list (list (list R)))
    (istft : list (list (list R)) → list (list R))
    (m : Conv_TDF_net_trim_model) (ov : Q) (mix : list (list R)) (N : Z) :
  length mix = 2%nat → Forall (λ row, Z.of_nat (length row) = N) mix →
  1 ≤ trim m → 0 < gen_size m →
  ((1 - ov) * inject_Z (chunk_size m) <= -1)%Q →
  demix stft run istft mix [m] ov
  = Some (replicate 2 (replicate (Z.to_nat N) None)).
Proof.
  intros Hlen Hrows Htrim Hgen Hq.
  destruct (stereo_rows mix N Hlen Hrows) as (m0 & m1 & -> & Hm1 & Hm0).
  pose proof (step_negative m ov Hq) as Hs.
  pose proof (pad_bounds m m0 m1 Hm1 Hgen) as Hpad.
  set (L := trim m + Z.of_nat (length m0) + pad m (Z.of_nat (length m0))) in *.
  assert (Hloop : demix_loop stft run istft [m0; m1] [m] ov
                  = Some (replicate 2 (replicate (Z.to_nat L) 0%R),
                          replicate 2 (replicate (Z.to_nat L) 0%R))).
  { unfold demix_loop. cbn [head mbind option_bind].
    rewrite (mixture_stereo m m0 m1 Hm1 ltac:(lia) Hgen). cbn [mbind option_bind].
    assert (HsL : Np.shape1
                    [(replicate (Z.to_nat (trim m)) 0%R ++ m0)
                     ++ replicate (Z.to_nat (pad m (Z.of_nat (length m0)))) 0%R;
                     (replicate (Z.to_nat (trim m)) 0%R ++ m1)
                     ++ replicate (Z.to_nat (pad m (Z.of_nat (length m0)))) 0%R]
                  = L).
    { apply (padded_length m m0 m1 Hm1 ltac:(lia) Hgen m0). reflexivity. }
    rewrite HsL. rewrite range_backwards by lia. reflexivity. }
  rewrite (demix_some _ _ _ _ _ _ _ _ Hloop).
  f_equal. unfold Np.map2, Np.cols.
  rewrite zip_with_replicate, zip_with_replicate, !fmap_replicate.
  f_equal. rewrite fl_div_zero.
  rewrite slice_trim by (try rewrite length_replicate; lia).
  rewrite length_replicate, drop_replicate, take_replicate.
  cbn [Np.shape1]. rewrite slice_to by lia.
  rewrite take_replicate. f_equal. lia.
Qed.

Lemma demix_negative_stride_all_nan_witness :
  demix (λ _, []) (λ _, []) (λ _, []) [[1]; [2]]%R
    [{| dim_c := 4; dim_f := 3072; dim_t := 256; n_fft := 7680; hop := 1024 |}] 2
  = Some (replicate 2 (replicate (Z.to_nat 1) None)).
Proof.
  apply (demix_negative_stride_all_nan (λ _, []) (λ _, []) (λ _, [])
           {| dim_c := 4; dim_f := 3072; dim_t := 256; n_fft := 7680; hop := 1024 |}
           2 [[1]; [2]]%R 1).
  - reflexivity.
  - repeat constructor.
  - vm_compute. discriminate.
  - reflexivity.
  - vm_compute. discriminate.
Defined.

(** X11. Whenever the stride is at least 1 and the backend returns
    chunks of the shape it was given, [demix] returns an array of the
    shape of the mix. *)
Theorem demix_keeps_shape
    (stft : list (list R) → list (list (list R)))
    (run : list (list (list R)) → list (list (list R)))
    (istft : list (list (list R)) → list (list R))
    (m : Conv_TDF_net_trim_model) (ov : Q) (mix : list (list R)) (N : Z) :
  (∀ t, Np.shape (tar_waves stft run istft t) = Np.shape t) →
  length mix = 2%nat → Forall (λ row, Z.of_nat (length row) = N) mix →
  1 ≤ trim m → 0 < gen_size m →
  (1 <= (1 - ov) * inject_Z (chunk_size m))%Q →
  ∃ out,
    demix stft run istft mix [m] ov = Some out ∧ Np.shape out = Np.shape mix.
Proof.
  intros Hback Hlen Hrows Htrim Hgen Hq.
  destruct (stereo_rows mix N Hlen Hrows) as (m0 & m1 & -> & Hm1 & Hm0).
  destruct (demix_rows stft run istft m ov m0 m1 Hback Hm1 Htrim Hgen
              (step_positive m ov Hq)) as (o0 & o1 & Hd & Ho0 & Ho1).
  exists [o0; o1]. split; [exact Hd|].
  unfold Np.shape. cbn [map]. now rewrite Ho0, Ho1, Hm1.
Qed.

Lemma demix_keeps_shape_witness :
  ∃ out,
    demix synthetic_stft synthetic_run synthetic_istft [[1]; [2]]%R
      [{| dim_c := 4; dim_f := 3072; dim_t := 256; n_fft := 7680; hop := 1024 |}]
      (1 # 522240)
    = Some out
    ∧ Np.shape out = Np.shape [[1]; [2]]%R.
Proof.
  apply (demix_keeps_shape synthetic_stft synthetic_run synthetic_istft
           {| dim_c := 4; dim_f := 3072; dim_t := 256; n_fft := 7680; hop := 1024 |}
           (1 # 522240) [[1]; [2]]%R 1).
  - intros t. now rewrite synthetic_identity.
  - reflexivity.
  - repeat constructor.
  - vm_compute. discriminate.
  - reflexivity.
  - vm_compute. discriminate.
Defined.

(** ** The overlaps that [__init__] stores *)

Lemma clamp_bounds (o : Q) :
  (0 <= (if Qlt_le_dec
              (if Qlt_le_dec (99 # 100) o then 99 # 100 else o) 0
         then 0 else if Qlt_le_dec (99 # 100) o then 99 # 100 else o)
   <= 99 # 100)%Q.
Proof.
  destruct (Qlt_le_dec (99 # 100) o) as [Hhi|Hhi];
    destruct (Qlt_le_dec _ 0) as [Hlo|Hlo]; split;
    try assumption; try discriminate; try apply Qle_refl.
Qed.

Lemma step_clamped (m : Conv_TDF_net_trim_model) (ov : Q) :
  0 ≤ chunk_size m → (0 <= ov <= 99 # 100)%Q →
  chunk_size m / 100 ≤ step m ov ≤ chunk_size m.
Proof.
  intros Hcs [Hlo Hhi]. unfold step, Py.int.
  set (q := ((1 - ov) * inject_Z (chunk_size m))%Q).
  assert (Hc : (0 <= inject_Z (chunk_size m))%Q).
  { change 0%Q with (inject_Z 0). now rewrite <- Zle_Qle. }
  assert (Hq1 : (inject_Z (chunk_size m) * (1 # 100) <= q)%Q).
  { subst q. revert Hc Hlo Hhi. generalize (inject_Z (chunk_size m)). clear.
    intros c Hc Hlo Hhi. nra. }
  assert (Hq2 : (q <= inject_Z (chunk_size m))%Q).
  { subst q. revert Hc Hlo Hhi. generalize (inject_Z (chunk_size m)). clear.
    intros c Hc Hlo Hhi. nra. }
  assert (H0 : Qle_bool 0 q = true).
  { apply Qle_bool_iff. eapply Qle_trans; [|exact Hq1].
    revert Hc. generalize (inject_Z (chunk_size m)). clear. intros c Hc. nra. }
  rewrite H0. split.
  - apply Z.lt_succ_r. apply Z.div_lt_upper_bound; [lia|].
    assert (Hf : (inject_Z (chunk_size m) < inject_Z (100 * (Qfloor q + 1)))%Q).
    { rewrite inject_Z_mult, inject_Z_plus.
      pose proof (Qlt_floor q) as Hfl. rewrite inject_Z_plus in Hfl.
      change (inject_Z 100) with 100%Q. change (inject_Z 1) with 1%Q in *.
      revert Hq1 Hfl. generalize (inject_Z (chunk_size m)) (inject_Z (Qfloor q)) q.
      clear. intros c f q Hq1 Hfl. nra. }
    rewrite <- Zlt_Qlt in Hf. lia.
  - rewrite <- (Qfloor_Z (chunk_size m)). now apply Qfloor_resp_le.
Qed.

(** X12. Whatever overlaps the options hold, the two that [__init__]
    stores lie in [0, 0.99], and with the stored [overlap_MDX] the
    chunk loop of every model of [mdx_models1] advances by 2611
    samples or more, and by a chunk at most. *)
Theorem init_overlaps_clamped (cuda_is_available : bool) (o : Init.options) :
  (0 <= Init.self_overlap_demucs (Init.init cuda_is_available o) <= 99 # 100)%Q
  ∧ (0 <= Init.self_overlap_MDX (Init.init cuda_is_available o) <= 99 # 100)%Q
  ∧ ∀ models m,
      Init.self_mdx_models1 (Init.init cuda_is_available o) = Some models →
      m ∈ models →
      2611 ≤ step m (Init.self_overlap_MDX (Init.init cuda_is_available o))
      ≤ chunk_size m.
Proof.
  pose proof (clamp_bounds (Init.overlap_demucs o)) as Hd.
  pose proof (clamp_bounds (Init.overlap_VOCFT o)) as Hm.
  split; [exact Hd|]. split; [exact Hm|].
  intros models m Hmodels Hin. unfold Init.init in Hmodels.
  cbn [Init.self_mdx_models1] in Hmodels.
  revert Hmodels. destruct (Init.use_VOCFT o); intros Hmodels;
    [|discriminate Hmodels].
  injection Hmodels as <-. apply list_elem_of_singleton in Hin. subst m.
  assert (Hcs : 0 ≤ chunk_size {| dim_c := 4; dim_f := 3072; dim_t := 256;
                                  n_fft := 7680; hop := 1024 |})
    by (vm_compute; discriminate).
  apply (step_clamped _ _ Hcs Hm).
Qed.

(** ** A stride wider than the chunk *)

Lemma step_wide (m : Conv_TDF_net_trim_model) (ov : Q) :
  0 ≤ chunk_size m → (ov * inject_Z (chunk_size m) <= -1)%Q →
  chunk_size m + 1 ≤ step m ov.
Proof.
  intros Hcs Hov. unfold step, Py.int.
  set (q := ((1 - ov) * inject_Z (chunk_size m))%Q).
  assert (Hc : (0 <= inject_Z (chunk_size m))%Q).
  { change 0%Q with (inject_Z 0). now rewrite <- Zle_Qle. }
  assert (Hq : (inject_Z (chunk_size m + 1) <= q)%Q).
  { subst q. rewrite inject_Z_plus. change (inject_Z 1) with 1%Q.
    revert Hov. generalize (inject_Z (chunk_size m)). clear. intros c Hov. nra. }
  assert (H0 : Qle_bool 0 q = true).
  { apply Qle_bool_iff. eapply Qle_trans; [|exact Hq].
    change 0%Q with (inject_Z 0). rewrite <- Zle_Qle. lia. }
  rewrite H0. rewrite <- (Qfloor_Z (chunk_size m + 1)). now apply Qfloor_resp_le.
Qed.

(** X13. A negative overlap of [-1 / chunk_size] or less makes the
    stride wider than the chunk: the samples between two chunks are
    never processed, their divider stays 0, and on an input long
    enough to reach the first gap [demix] returns NaN there. *)
Theorem demix_negative_overlap_gap
    (stft : list (list R) → list (list (list R)))
    (run : list (list (list R)) → list (list (list R)))
    (istft : list (list (list R)) → list (list R))
    (m : Conv_TDF_net_trim_model) (ov : Q) (mix : list (list R)) (N : Z) :
  (∀ t, Np.shape (tar_waves stft run istft t) = Np.shape t) →
  length mix = 2%nat → Forall (λ row, Z.of_nat (length row) = N) mix →
  1 ≤ trim m → 0 < gen_size m →
  (ov * inject_Z (chunk_size m) <= -1)%Q →
  chunk_size m - trim m < N →
  ∃ out,
    demix stft run istft mix [m] ov = Some out
    ∧ ∀ c, (c < 2)%nat →
           Arr.at2 out c (Z.to_nat (chunk_size m - trim m)) = Some None.
Proof.
  intros Hback Hlen Hrows Htrim Hgen Hov HN.
  destruct (stereo_rows mix N Hlen Hrows) as (m0 & m1 & -> & Hm1 & Hm0).
  assert (Hcs : chunk_size m = gen_size m + 2 * trim m) by (unfold gen_size; lia).
  pose proof (step_wide m ov ltac:(lia) Hov) as Hs.
  pose proof (pad_bounds m m0 m1 Hm1 Hgen) as Hpad.
  destruct (demix_rows stft run istft m ov m0 m1 Hback Hm1 Htrim Hgen ltac:(lia))
    as (o0 & o1 & Hd & Ho0 & Ho1).
  exists [o0; o1]. split; [exact Hd|].
  destruct (divider_zero stft run istft m ov m0 m1
              (trim m + Z.of_nat (length m0) + pad m (Z.of_nat (length m0)))
              (Z.to_nat (chunk_size m))
              Hm1 ltac:(lia) Hgen ltac:(lia) eq_refl ltac:(lia))
    as (starts & res & row & _ & _ & Hloop & Hrow).
  { intros k Hk0 HkL. left. destruct (Z.eq_dec k 0) as [->|Hk]; [lia|nia]. }
  rewrite (demix_some _ _ _ _ _ _ _ _ Hloop) in Hd. injection Hd as Hd.
  intros c Hc.
  assert (Hsome : ∃ x, Arr.at2 [o0; o1] c (Z.to_nat (chunk_size m - trim m)) = Some x).
  { destruct c as [|[|c]]; [| |lia]; cbn;
      apply lookup_lt_is_Some_2; lia. }
  destruct Hsome as [x Hx]. rewrite Hx. f_equal.
  rewrite <- Hd in Hx.
  apply demix_output_sample in Hx as (_ & r & d & _ & Hdv & ->); [|lia..].
  apply (at2_replicate_2_inv row) in Hdv as [_ Hdv].
  replace (Z.to_nat (trim m) + Z.to_nat (chunk_size m - trim m))%nat
    with (Z.to_nat (chunk_size m)) in Hdv by lia.
  assert (d = 0%R) by congruence. subst d. apply fl_div_zero.
Qed.

Lemma demix_negative_overlap_gap_witness :
  ∃ out,
    demix synthetic_stft synthetic_run synthetic_istft
      [replicate (Z.to_nat 261120) 1%R; replicate (Z.to_nat 261120) 1%R]
      [{| dim_c := 4; dim_f := 3072; dim_t := 256; n_fft := 7680; hop := 1024 |}]
      (- 1 # 2)
    = Some out
    ∧ ∀ c, (c < 2)%nat → Arr.at2 out c (Z.to_nat (261120 - 3840)) = Some None.
Proof.
  apply (demix_negative_overlap_gap synthetic_stft synthetic_run synthetic_istft
           {| dim_c := 4; dim_f := 3072; dim_t := 256; n_fft := 7680; hop := 1024 |}
           (- 1 # 2) _ 261120).
  - intros t. now rewrite synthetic_identity.
  - reflexivity.
  - repeat constructor; rewrite length_replicate; apply Z2Nat.id; lia.
  - vm_compute. discriminate.
  - reflexivity.
  - vm_compute. discriminate.
  - reflexivity.
Defined.

(** ** The polarity-averaged estimates of [separate_music_file] *)

Lemma map1_opp_opp (a : list (list R)) : Np.map1 Ropp (Np.map1 Ropp a) = a.
Proof.
  unfold Np.map1. rewrite map_map. rewrite <- (map_id a) at 2.
  apply map_ext. intros row. rewrite map_map. rewrite <- (map_id row) at 2.
  apply map_ext. intros x. lra.
Qed.

Lemma map2_flip {A B C} (f : A → B → C) (a : list (list A)) (b : list (list B)) :
  Np.map2 f a b = Np.map2 (λ y x, f x y) b a.
Proof.
  unfold Np.map2. revert b. induction a as [|ra a IH]; intros [|rb b];
    cbn; try reflexivity.
  f_equal; [|apply IH].
  revert rb. induction ra as [|x ra IHr]; intros [|y rb]; cbn; try reflexivity.
  f_equal. apply IHr.
Qed.

Lemma map2_map1 {A B A' B' C} (f : A' → B' → C) (g : A → A') (h : B → B')
    (a : list (list A)) (b : list (list B)) :
  Np.map2 f (Np.map1 g a) (Np.map1 h b) = Np.map2 (λ x y, f (g x) (h y)) a b.
Proof.
  unfold Np.map2, Np.map1. revert b. induction a as [|ra a IH]; intros [|rb b];
    cbn; try reflexivity.
  f_equal; [|apply IH].
  revert rb. induction ra as [|x ra IHr]; intros [|y rb]; cbn; try reflexivity.
  f_equal. apply IHr.
Qed.

Lemma map1_map2 {A B C D} (k : C → D) (f : A → B → C)
    (a : list (list A)) (b : list (list B)) :
  Np.map1 k (Np.map2 f a b) = Np.map2 (λ x y, k (f x y)) a b.
Proof.
  unfold Np.map2, Np.map1. revert b. induction a as [|ra a IH]; intros [|rb b];
    cbn; try reflexivity.
  f_equal; [|apply IH].
  revert rb. induction ra as [|x ra IHr]; intros [|y rb]; cbn; try reflexivity.
  f_equal. apply IHr.
Qed.

Lemma map2_ext {A B C} (f g : A → B → C) (a : list (list A)) (b : list (list B)) :
  (∀ x y, f x y = g x y) → Np.map2 f a b = Np.map2 g a b.
Proof.
  intros Hfg. unfold Np.map2. revert b.
  induction a as [|ra a IH]; intros [|rb b]; cbn; try reflexivity.
  f_equal; [|apply IH].
  revert rb. induction ra as [|x ra IHr]; intros [|y rb]; cbn; try reflexivity.
  f_equal; [apply Hfg|apply IHr].
Qed.

Lemma map1_map1 {A B C} (g : B → C) (f : A → B) (a : list (list A)) :
  Np.map1 g (Np.map1 f a) = Np.map1 (λ x, g (f x)) a.
Proof.
  unfold Np.map1. rewrite map_map. apply map_ext. intros row. apply map_map.
Qed.

Lemma half_difference_odd (x y : Fl) :
  fl_add (Rmult 0.5 <$> y) (Rmult 0.5 <$> fl_neg x)
  = fl_neg (fl_add (Rmult 0.5 <$> x) (Rmult 0.5 <$> fl_neg y)).
Proof. destruct x, y; cbn; try reflexivity. f_equal. lra. Qed.

(** X14. The VOCFT vocal estimate is an odd function of the mix: on the
    mix with its polarity inverted [separate_music_file] gets the
    estimate of the mix with its polarity inverted, sample by sample,
    whatever the network computes. *)
Theorem vocals_mdxb1_odd
    (demix_wrapper : list (list R) → Q → Z → option (list (list Fl)))
    (mixed_sound_array_T : list (list R)) (overlap : Q) (BigShifts : Z) :
  vocals_mdxb1 demix_wrapper (Np.map1 Ropp mixed_sound_array_T) overlap BigShifts
  = Np.map1 fl_neg
      <$> vocals_mdxb1 demix_wrapper mixed_sound_array_T overlap BigShifts.
Proof.
  unfold vocals_mdxb1. rewrite map1_opp_opp.
  destruct (demix_wrapper mixed_sound_array_T overlap (BigShifts / 5)) as [a|];
    destruct (demix_wrapper (Np.map1 Ropp mixed_sound_array_T) overlap
                (BigShifts / 5)) as [b|]; try reflexivity.
  cbn [mbind option_bind fmap option_fmap option_map]. f_equal.
  rewrite !map1_map1, !map2_map1, map1_map2.
  rewrite (map2_flip _ b a).
  apply map2_ext. intros x y. apply half_difference_odd.
Qed.

(** X15. The same holds for the three Demucs networks whose output is
    averaged over the two polarities. *)
Theorem out_averaged_odd
    (apply_model : list (list R) → list (list (list R))) (audio : list (list R)) :
  out_averaged apply_model (Np.map1 Ropp audio)
  = map (Np.map1 Ropp) (out_averaged apply_model audio).
Proof.
  unfold out_averaged. rewrite map1_opp_opp.
  generalize (apply_model audio) as a.
  generalize (apply_model (Np.map1 Ropp audio)) as b.
  intros b a. revert b.
  induction a as [|sa a IH]; intros [|sb b]; cbn [map zip_with]; try reflexivity.
  f_equal; [|apply IH].
  unfold Arr.add, Arr.scale.
  rewrite !map1_map1, !map2_map1, map1_map2.
  rewrite (map2_flip _ sb sa).
  apply map2_ext. intros x y. lra.
Qed.

(** ** What [separate_music_file] returns *)

Lemma stems_lookup (vocals_only : bool) (mix vocals : list (list R))
    (out : list (list (list R))) (d : gmap string (list (list R))) (k : string) :
  separate_music_file_stems vocals_only mix vocals out = Some d →
  is_Some (d !! k)
  ↔ k ∈ (if vocals_only then ["vocals"%string]
         else ["bass"; "drums"; "other"; "vocals"]%string) ++ ["instrum"%string].
Proof.
  unfold separate_music_file_stems. intros Hd.
  destruct vocals_only.
  - cbn in Hd. injection Hd as <-.
    rewrite !lookup_insert_is_Some'.
    pose proof (lookup_empty_is_Some (M:=gmap string) (A:=list (list R)) k) as He.
    rewrite !elem_of_app, !elem_of_cons, !elem_of_nil. intuition congruence.
  - unfold residual_refinement in Hd.
    destruct (out !! 0%nat) as [o0|]; [|discriminate].
    destruct (out !! 1%nat) as [o1|]; [|discriminate].
    destruct (out !! 2%nat) as [o2|]; [|discriminate].
    cbn [mbind option_bind] in Hd.
    erewrite final_correction_some in Hd;
      [|apply lookup_insert_eq
       |rewrite lookup_insert_ne by done; apply lookup_insert_eq
       |rewrite !(lookup_insert_ne _ _ "other"%string) by done;
        apply lookup_insert_eq].
    cbn [mbind option_bind] in Hd. injection Hd as <-.
    rewrite !lookup_insert_is_Some'.
    pose proof (lookup_empty_is_Some (M:=gmap string) (A:=list (list R)) k) as He.
    rewrite !elem_of_app, !elem_of_cons, !elem_of_nil. intuition congruence.
Qed.

Lemma rates_lookup (vocals_only : bool) (sample_rate : Z) (k : string) :
  separate_music_file_rates vocals_only sample_rate !! k
  = if decide (k ∈ if vocals_only then ["vocals"%string]
                   else ["bass"; "drums"; "other"; "vocals"]%string)
    then Some sample_rate else None.
Proof.
  unfold separate_music_file_rates.
  destruct (decide _) as [Hin|Hout].
  - destruct vocals_only; rewrite !elem_of_cons, elem_of_nil in Hin;
      destruct_or?; try contradiction; subst; reflexivity.
  - destruct vocals_only; rewrite !elem_of_cons, elem_of_nil in Hout;
      rewrite !lookup_insert_ne by (intros ?; subst; tauto);
      apply lookup_empty.
Qed.

(** X16. The dictionary of arrays that [separate_music_file] returns
    holds exactly the names of [model.instruments] and ["instrum"];
    the dictionary of sample rates holds exactly the names of
    [model.instruments], each with the rate of the input, and has no
    entry for ["instrum"]. *)
Theorem stems_match_instruments (options : Options)
    (mix vocals : list (list R)) (out : list (list (list R)))
    (d : gmap string (list (list R))) (sample_rate : Z) :
  separate_music_file_stems (vocals_only options) mix vocals out = Some d →
  (∀ k, is_Some (d !! k) ↔ k ∈ instruments options ++ ["instrum"%string])
  ∧ (∀ k, separate_music_file_rates (vocals_only options) sample_rate !! k
          = if decide (k ∈ instruments options) then Some sample_rate else None)
  ∧ separate_music_file_rates (vocals_only options) sample_rate !! "instrum"%string
    = None.
Proof.
  intros Hd. unfold instruments. split; [|split].
  - intros k. apply (stems_lookup _ _ _ _ _ _ Hd).
  - intros k. apply rates_lookup.
  - rewrite rates_lookup. destruct (vocals_only options); reflexivity.
Qed.

Lemma stems_match_instruments_witness :
  ∃ d,
    separate_music_file_stems true [[1%R]] [[0%R]] [] = Some d
    ∧ (∀ k, is_Some (d !! k) ↔ k ∈ ["vocals"; "instrum"]%string)
    ∧ (∀ k, separate_music_file_rates true 44100 !! k
            = if decide (k ∈ ["vocals"%string]) then Some 44100 else None)
    ∧ separate_music_file_rates true 44100 !! "instrum"%string = None.
Proof.
  eexists. split; [reflexivity|].
  apply (stems_match_instruments
           {| input_audio := []; output_folder := ""; vocals_only := true;
              callback_callable := false |}
           [[1%R]] [[0%R]] [] _ 44100).
  reflexivity.
Defined.

(** X17. The vocals and the instrumental that [separate_music_file]
    returns add up to the mix, sample by sample, in both modes. *)
Theorem vocals_and_instrum_close (vocals_only : bool)
    (mix vocals : list (list R)) (out : list (list (list R)))
    (d : gmap string (list (list R))) :
  Np.shape vocals = Np.shape mix →
  separate_music_file_stems vocals_only mix vocals out = Some d →
  ∃ instrum,
    d !! "vocals"%string = Some vocals
    ∧ d !! "instrum"%string = Some instrum
    ∧ (vocals + instrum)%arr = mix.
Proof.
  intros Hs Hd. exists (mix - vocals)%arr.
  assert (Hsum : (vocals + (mix - vocals))%arr = mix).
  { apply arr_ext; [shape_tac|]. intros i j.
    destruct (at2_same_shape mix vocals i j Hs)
      as [(x & y & Hx & Hy)|[Hx Hy]]; at2_tac; rewrite ?Hx, ?Hy;
      [cbn; f_equal; lra|reflexivity]. }
  unfold separate_music_file_stems in Hd.
  destruct (if vocals_only then _ else _) as [sma|]; [|discriminate].
  cbn [mbind option_bind] in Hd. injection Hd as <-.
  split; [rewrite lookup_insert_ne by done; apply lookup_insert_eq|].
  split; [apply lookup_insert_eq|exact Hsum].
Qed.

Lemma vocals_and_instrum_close_witness :
  ∃ d instrum,
    separate_music_file_stems true [[1%R]] [[3%R]] [] = Some d
    ∧ d !! "vocals"%string = Some [[3%R]]
    ∧ d !! "instrum"%string = Some instrum
    ∧ ([[3%R]] + instrum)%arr = [[1%R]].
Proof.
  eexists.
  destruct (vocals_and_instrum_close true [[1%R]] [[3%R]] [] _ eq_refl eq_refl)
    as (instrum & Hv & Hi & Hsum).
  exists instrum. split; [reflexivity|]. split; [exact Hv|].
  split; [exact Hi|exact Hsum].
Defined.

(** ** [predict_with_model] *)

(** ** A batch in which every call returns *)

Section BatchFacts.

Variable isfile : string → bool.
Variable basename_noext : string → string.
Variable path_join : string → string → string.
Variable makedirs : string → bool.
Variable load_model : bool.
Variable librosa_load : string → bool.
Variable separate_music_file : string → bool.
Variable sf_write : string → bool.
Variable actual_callback : Z → string → Z → bool.
Variable options : Options.

(** The output paths of a list of inputs, and what a callback that
    returns is told. *)
Local Abbreviation outs_of paths :=
  (flat_map (λ input_audio,
     map (out_path basename_noext path_join options input_audio)
       (instruments options ++ ["instrum"%string])) paths).
Local Abbreviation told step desc total :=
  (if callback_callable options then [Callback step desc total] else []).

Lemma validate_none (paths : list string) :
  Forall (λ p, isfile p = true) paths → validate isfile paths = None.
Proof.
  induction 1 as [|p paths Hp _ IH]; [reflexivity|]. cbn. now rewrite Hp.
Qed.

Lemma written_app (e1 e2 : list event) : written (e1 ++ e2) = written e1 ++ written e2.
Proof. apply omap_app. Qed.

Lemma progress_app (e1 e2 : list event) :
  progress (e1 ++ e2) = progress e1 ++ progress e2.
Proof. apply omap_app. Qed.

Lemma written_told (step : Z) (desc : string) (total : Z) :
  written (told step desc total) = [].
Proof. now destruct (callback_callable options). Qed.

Lemma written_files (paths : list string) : written (map WriteFile paths) = paths.
Proof.
  unfold written. induction paths as [|p paths IH]; [reflexivity|].
  cbn. now rewrite IH.
Qed.

Lemma progress_files (paths : list string) : progress (map WriteFile paths) = [].
Proof. induction paths as [|p paths IH]; [reflexivity|exact IH]. Qed.

Lemma progress_one (e : event) :
  progress [e] = match e with Callback step _ total => [(step, total)] | _ => [] end.
Proof. now destruct e. Qed.

Lemma progress_nil : progress [] = [].
Proof. reflexivity. Qed.

(** A piece that returns hands its value to the rest of the run. *)
Lemma trace_bind_returns {A B} (f : A → trace B) (ev : list event) (v : A) :
  (ev, Returns v) ≫= f = (ev ++ (f v).1, (f v).2).
Proof. unfold mbind, trace_bind. now destruct (f v). Qed.

Lemma callback_returns (step : Z) (desc : string) (total : Z) :
  (callback_callable options = true → ∀ s d t, actual_callback s d t = true) →
  callback actual_callback options step desc total
  = (told step desc total, Returns ()).
Proof.
  intros Hcb. unfold callback, call.
  destruct (callback_callable options); [|reflexivity].
  now rewrite Hcb.
Qed.

Lemma write_files_returns (out_paths : list string) :
  Forall (λ out, sf_write out = true) out_paths →
  write_files sf_write out_paths = (map WriteFile out_paths, Returns ()).
Proof.
  induction 1 as [|out out_paths Hout _ IH]; [reflexivity|].
  cbn [write_files map]. unfold call. rewrite Hout, trace_bind_returns, IH.
  reflexivity.
Qed.

(** One iteration in which every call returns. *)
Lemma process_file_returns (total_steps current_step : Z) (input_audio : string) :
  (callback_callable options = true → ∀ s d t, actual_callback s d t = true) →
  librosa_load input_audio = true → separate_music_file input_audio = true →
  Forall (λ out, sf_write out = true) (outs_of [input_audio]) →
  process_file basename_noext path_join librosa_load separate_music_file sf_write
    actual_callback options total_steps current_step input_audio
  = (told current_step ("Processing " +:+ input_audio) total_steps
     ++ [LoadAudio input_audio]
     ++ told (current_step + 1) ("Loaded " +:+ input_audio) total_steps
     ++ [Separate input_audio]
     ++ told (current_step + 2) ("Separated " +:+ input_audio) total_steps
     ++ map WriteFile (outs_of [input_audio])
     ++ told (current_step + 3) ("Completed processing " +:+ input_audio) total_steps,
     Returns (outs_of [input_audio], current_step + 3)).
Proof.
  intros Hcb Hload Hsep Hwrite. cbn [flat_map] in *. rewrite app_nil_r in *.
  unfold process_file, call. rewrite Hload, Hsep.
  rewrite !(callback_returns _ _ _ Hcb), (write_files_returns _ Hwrite).
  rewrite !trace_bind_returns. cbn [fst snd mret trace_ret].
  replace (current_step + 1 + 1) with (current_step + 2) by lia.
  replace (current_step + 2 + 1) with (current_step + 3) by lia.
  rewrite app_nil_r. reflexivity.
Qed.

(** The loop over the inputs when every call returns: its value, the
    files written and the progress told. *)
Lemma process_files_returns (total_steps current_step : Z) (paths : list string) :
  (callback_callable options = true → ∀ s d t, actual_callback s d t = true) →
  Forall (λ p, librosa_load p = true ∧ separate_music_file p = true) paths →
  Forall (λ out, sf_write out = true) (outs_of paths) →
  ∃ ev,
    process_files basename_noext path_join librosa_load separate_music_file sf_write
      actual_callback options total_steps current_step paths
    = (ev, Returns (outs_of paths))
    ∧ written ev = outs_of paths
    ∧ (callback_callable options = true →
       progress ev
       = flat_map (λ k, [(current_step + 3 * k, total_steps);
                         (current_step + 3 * k + 1, total_steps);
                         (current_step + 3 * k + 2, total_steps);
                         (current_step + 3 * k + 3, total_steps)])
           (seqZ 0 (Z.of_nat (length paths))))
    ∧ StronglySorted Z.le (progress ev).*1
    ∧ Forall (λ s, current_step ≤ s ≤ current_step + 3 * Z.of_nat (length paths))
        (progress ev).*1.
Proof.
  intros Hcb. revert current_step.
  induction paths as [|p paths IH]; intros current_step Hin Hwrite.
  - exists []. repeat split; constructor.
  - apply Forall_cons in Hin as [[Hload Hsep] Hin].
    cbn [flat_map] in Hwrite. apply Forall_app in Hwrite as [Hw Hwrite].
    destruct (IH (current_step + 3) Hin Hwrite) as (ev' & E & Hwr & Hpr & Hs & Hb).
    assert (Hw1 : Forall (λ out, sf_write out = true) (outs_of [p]))
      by (cbn [flat_map]; rewrite app_nil_r; exact Hw).
    cbn [process_files].
    rewrite (process_file_returns total_steps current_step p Hcb Hload Hsep Hw1).
    rewrite trace_bind_returns. cbn beta iota. rewrite E, trace_bind_returns.
    cbn [fst snd mret trace_ret flat_map]. rewrite !app_nil_r.
    eexists. split; [reflexivity|].
    assert (Hb' : Forall (λ s, current_step + 3 ≤ s
                               ≤ current_step + 3 * Z.of_nat (S (length paths)))
                    (progress ev').*1).
    { eapply Forall_impl; [exact Hb|]. intros s Hs'. cbv beta in *. lia. }
    split; [|split; [|split]].
    + rewrite !written_app, !written_told, written_files, Hwr.
      unfold written. cbn [omap list_omap app flat_map].
      now rewrite ?app_nil_r.
    + intros Hcall. cbn [length].
      rewrite seqZ_cons by lia. cbn [flat_map].
      replace (Z.pred (Z.of_nat (S (length paths)))) with (Z.of_nat (length paths))
        by lia.
      replace (Z.succ 0) with (1 + 0) by lia.
      rewrite <- fmap_add_seqZ.
      rewrite Hcall.
      rewrite !progress_app, progress_files, (Hpr Hcall).
      unfold progress. cbn [omap list_omap app].
      replace (current_step + 3 * 0) with current_step by lia.
      do 4 f_equal.
      rewrite flat_map_concat_map, flat_map_concat_map.
      f_equal. rewrite <- list_fmap_compose. apply list_fmap_ext.
      intros _ k _. cbn.
      replace (current_step + 3 + 3 * k) with (current_step + 3 * (1 + k)) by lia.
      reflexivity.
    + rewrite !progress_app, progress_files.
      destruct (callback_callable options);
        rewrite ?progress_one, ?progress_nil; cbn [app fmap list_fmap fst].
      * repeat (constructor;
                [|repeat (constructor; [lia|]);
                  eapply Forall_impl; [exact Hb'|]; intros s Hs'; cbv beta in *; lia]).
        exact Hs.
      * exact Hs.
    + rewrite !progress_app, progress_files. cbn [length].
      destruct (callback_callable options);
        rewrite ?progress_one, ?progress_nil; cbn [app fmap list_fmap fst].
      * repeat (constructor; [lia|]).
        eapply Forall_impl; [exact Hb'|]. intros s Hs'. cbv beta in *. lia.
      * eapply Forall_impl; [exact Hb'|]. intros s Hs'. cbv beta in *. lia.
Qed.

(** The whole run when every input exists and every call returns. *)
Lemma predict_returns :
  Forall (λ p, isfile p = true) (input_audio options) →
  makedirs (output_folder options) = true → load_model = true →
  (callback_callable options = true → ∀ s d t, actual_callback s d t = true) →
  Forall (λ p, librosa_load p = true ∧ separate_music_file p = true)
    (input_audio options) →
  Forall (λ out, sf_write out = true) (outs_of (input_audio options)) →
  ∃ ev,
    predict_with_model isfile basename_noext path_join makedirs load_model
      librosa_load separate_music_file sf_write actual_callback options
    = ([Makedirs (output_folder options); LoadModel]
       ++ told 0 "Initializing model" (3 * Z.of_nat (length (input_audio options)))
       ++ ev
       ++ told (3 * Z.of_nat (length (input_audio options))) "All files processed"
            (3 * Z.of_nat (length (input_audio options))),
       Returns (Some (outs_of (input_audio options))))
    ∧ written ev = outs_of (input_audio options)
    ∧ (callback_callable options = true →
       progress ev
       = flat_map (λ k, [(3 * k, 3 * Z.of_nat (length (input_audio options)));
                         (3 * k + 1, 3 * Z.of_nat (length (input_audio options)));
                         (3 * k + 2, 3 * Z.of_nat (length (input_audio options)));
                         (3 * k + 3, 3 * Z.of_nat (length (input_audio options)))])
           (seqZ 0 (Z.of_nat (length (input_audio options)))))
    ∧ StronglySorted Z.le (progress ev).*1
    ∧ Forall (λ s, 0 ≤ s ≤ 3 * Z.of_nat (length (input_audio options)))
        (progress ev).*1.
Proof.
  intros Hall Hmk Hmodel Hcb Hin Hwrite.
  unfold predict_with_model. rewrite (validate_none _ Hall).
  set (n := Z.of_nat (length (input_audio options))).
  replace (n * 3) with (3 * n) by lia.
  destruct (process_files_returns (3 * n) 0 (input_audio options) Hcb Hin Hwrite)
    as (ev & E & Hwr & Hpr & Hs & Hb).
  exists ev. unfold call. rewrite Hmk, Hmodel, E.
  rewrite !(callback_returns _ _ _ Hcb), !trace_bind_returns.
  cbn [fst snd mret trace_ret]. rewrite app_nil_r.
  split; [reflexivity|]. split; [exact Hwr|].
  split; [exact Hpr|]. split; [exact Hs|exact Hb].
Qed.

(** An exception leaves the rest of the run undone. *)
Lemma trace_bind_raises {A B} (f : A → trace B) (ev : list event) :
  (ev, Raises) ≫= f = (ev, Raises).
Proof. reflexivity. Qed.

(** The loop over the inputs when loading or separating one of them
    raises, every call before it having returned: the loop raises, with
    the files of the inputs before that one written and no other. *)
Lemma process_files_raises (total_steps current_step : Z)
    (before : list string) (p : string) (after : list string) :
  (callback_callable options = true → ∀ s d t, actual_callback s d t = true) →
  Forall (λ q, librosa_load q = true ∧ separate_music_file q = true) before →
  Forall (λ out, sf_write out = true) (outs_of before) →
  librosa_load p = false ∨ separate_music_file p = false →
  ∃ ev,
    process_files basename_noext path_join librosa_load separate_music_file sf_write
      actual_callback options total_steps current_step (before ++ p :: after)
    = (ev, Raises)
    ∧ written ev = outs_of before.
Proof.
  intros Hcb. revert current_step.
  induction before as [|q before IH]; intros current_step Hin Hwrite Hfail.
  - cbn [app process_files]. unfold process_file, call.
    rewrite !(callback_returns _ _ _ Hcb), trace_bind_returns.
    destruct (librosa_load p) eqn:Hload.
    + destruct Hfail as [Hfail|Hsep]; [discriminate Hfail|]. rewrite Hsep.
      rewrite !trace_bind_returns.
      cbn [fst snd mbind trace_bind]. eexists. split; [reflexivity|].
      rewrite !written_app, !written_told. reflexivity.
    + cbn [fst snd mbind trace_bind]. eexists. split; [reflexivity|].
      rewrite !written_app, !written_told. reflexivity.
  - apply Forall_cons in Hin as [[Hload Hsep] Hin].
    cbn [flat_map] in Hwrite. apply Forall_app in Hwrite as [Hw Hwrite].
    destruct (IH (current_step + 3) Hin Hwrite Hfail) as (ev' & E & Hwr).
    assert (Hw1 : Forall (λ out, sf_write out = true) (outs_of [q]))
      by (cbn [flat_map]; rewrite app_nil_r; exact Hw).
    cbn [app process_files].
    rewrite (process_file_returns total_steps current_step q Hcb Hload Hsep Hw1).
    rewrite trace_bind_returns. cbn beta iota. rewrite E.
    cbn [fst snd mbind trace_bind]. eexists. split; [reflexivity|].
    rewrite !written_app, !written_told, written_files, Hwr.
    unfold written. cbn [omap list_omap app flat_map].
    now rewrite ?app_nil_r.
Qed.

End BatchFacts.

Lemma sorted_snoc (l : list Z) (x : Z) :
  StronglySorted Z.le l → Forall (λ y, y ≤ x) l → StronglySorted Z.le (l ++ [x]).
Proof.
  induction 1 as [|y l Hl IH Hy]; intros Hx; cbn.
  - repeat constructor.
  - apply Forall_cons in Hx as [Hyx Hx]. constructor; [now apply IH|].
    apply Forall_app. split; [exact Hy|]. repeat constructor. exact Hyx.
Qed.

(** X18. When every input exists and every call of the run returns
    ([os.makedirs], the construction of the model, [librosa.load] and
    [separate_music_file] on every input, [sf.write] on every output
    path, and the callback if there is one), [predict_with_model]
    returns the paths of the files it wrote, in the order it wrote
    them: for each input in turn, one file per instrument of the model
    and then the instrumental. *)
Theorem batch_returns_written_paths
    (isfile : string → bool) (basename_noext : string → string)
    (path_join : string → string → string)
    (makedirs : string → bool) (load_model : bool)
    (librosa_load separate_music_file sf_write : string → bool)
    (actual_callback : Z → string → Z → bool) (options : Options) :
  Forall (λ p, isfile p = true) (input_audio options) →
  makedirs (output_folder options) = true → load_model = true →
  (callback_callable options = true →
   ∀ step desc total, actual_callback step desc total = true) →
  Forall (λ p, librosa_load p = true ∧ separate_music_file p = true)
    (input_audio options) →
  Forall (λ out, sf_write out = true)
    (flat_map (λ input_audio,
       map (out_path basename_noext path_join options input_audio)
         (instruments options ++ ["instrum"%string]))
      (input_audio options)) →
  ∃ events output_files,
    predict_with_model isfile basename_noext path_join makedirs load_model
      librosa_load separate_music_file sf_write actual_callback options
    = (events, Returns (Some output_files))
    ∧ written events = output_files
    ∧ output_files
      = flat_map (λ input_audio,
           map (out_path basename_noext path_join options input_audio)
             (instruments options ++ ["instrum"%string]))
          (input_audio options)
    ∧ Z.of_nat (length output_files)
      = Z.of_nat (length (input_audio options))
        * (if vocals_only options then 2 else 5).
Proof.
  intros Hall Hmk Hmodel Hcb Hin Hwrite.
  destruct (predict_returns isfile basename_noext path_join makedirs load_model
              librosa_load separate_music_file sf_write actual_callback options
              Hall Hmk Hmodel Hcb Hin Hwrite) as (ev & E & Hwr & _).
  eexists _, _. split; [exact E|]. split; [|split; [reflexivity|]].
  - rewrite !written_app, !written_told, Hwr.
    unfold written. cbn [omap list_omap app]. now rewrite app_nil_r.
  - clear.
    induction (input_audio options) as [|p paths IH]; [reflexivity|].
    cbn [flat_map length]. rewrite length_app, length_map, length_app.
    unfold instruments in *. destruct (vocals_only options); cbn [length] in *; lia.
Qed.

Lemma batch_returns_written_paths_witness :
  ∃ events output_files,
    predict_with_model (λ _, true) (λ q, q) String.app
      (λ _, true) true (λ _, true) (λ _, true) (λ _, true) (λ _ _ _, true)
      {| input_audio := ["a"; "b"]%string; output_folder := "out/";
         vocals_only := true; callback_callable := false |}
    = (events, Returns (Some output_files))
    ∧ written events = output_files
    ∧ output_files
      = flat_map (λ input_audio,
           map (out_path (λ q, q) String.app
                  {| input_audio := ["a"; "b"]%string; output_folder := "out/";
                     vocals_only := true; callback_callable := false |}
                  input_audio)
             (["vocals"; "instrum"]%string))
          ["a"; "b"]%string
    ∧ Z.of_nat (length output_files) = 2 * 2.
Proof.
  apply (batch_returns_written_paths (λ _, true) (λ q, q) String.app
           (λ _, true) true (λ _, true) (λ _, true) (λ _, true) (λ _ _ _, true)
           {| input_audio := ["a"; "b"]%string; output_folder := "out/";
              vocals_only := true; callback_callable := false |}).
  - repeat constructor.
  - reflexivity.
  - reflexivity.
  - intros _ step desc total. reflexivity.
  - repeat constructor.
  - repeat constructor.
Defined.

(** X19. When every input exists, a callback is given and every call
    of the run returns, the callback included, the progress it is told
    starts at step 0, takes the four steps [3k], [3k + 1], [3k + 2],
    [3k + 3] for the [k]-th input, never goes back, and ends at the
    total, which is three steps per input throughout. *)
Theorem batch_progress
    (isfile : string → bool) (basename_noext : string → string)
    (path_join : string → string → string)
    (makedirs : string → bool) (load_model : bool)
    (librosa_load separate_music_file sf_write : string → bool)
    (actual_callback : Z → string → Z → bool) (options : Options) :
  Forall (λ p, isfile p = true) (input_audio options) →
  makedirs (output_folder options) = true → load_model = true →
  callback_callable options = true →
  (∀ step desc total, actual_callback step desc total = true) →
  Forall (λ p, librosa_load p = true ∧ separate_music_file p = true)
    (input_audio options) →
  Forall (λ out, sf_write out = true)
    (flat_map (λ input_audio,
       map (out_path basename_noext path_join options input_audio)
         (instruments options ++ ["instrum"%string]))
      (input_audio options)) →
  ∃ events output_files,
    predict_with_model isfile basename_noext path_join makedirs load_model
      librosa_load separate_music_file sf_write actual_callback options
    = (events, Returns (Some output_files))
    ∧ progress events
      = (0, 3 * Z.of_nat (length (input_audio options)))
        :: flat_map (λ k, [(3 * k, 3 * Z.of_nat (length (input_audio options)));
                           (3 * k + 1, 3 * Z.of_nat (length (input_audio options)));
                           (3 * k + 2, 3 * Z.of_nat (length (input_audio options)));
                           (3 * k + 3, 3 * Z.of_nat (length (input_audio options)))])
             (seqZ 0 (Z.of_nat (length (input_audio options))))
        ++ [(3 * Z.of_nat (length (input_audio options)),
             3 * Z.of_nat (length (input_audio options)))]
    ∧ StronglySorted Z.le (progress events).*1.
Proof.
  intros Hall Hmk Hmodel Hcall Hcb Hin Hwrite.
  destruct (predict_returns isfile basename_noext path_join makedirs load_model
              librosa_load separate_music_file sf_write actual_callback options
              Hall Hmk Hmodel (λ _, Hcb) Hin Hwrite)
    as (ev & E & _ & Hpr & Hs & Hb).
  specialize (Hpr Hcall). rewrite Hcall in E.
  set (n := Z.of_nat (length (input_audio options))) in *.
  eexists _, _. split; [exact E|].
  assert (Hprog : progress ([Makedirs (output_folder options); LoadModel]
                            ++ [Callback 0 "Initializing model" (3 * n)]
                            ++ ev
                            ++ [Callback (3 * n) "All files processed" (3 * n)])
                  = (0, 3 * n) :: progress ev ++ [(3 * n, 3 * n)]).
  { rewrite !progress_app, !progress_one. unfold progress at 1. reflexivity. }
  rewrite Hprog. split.
  - rewrite Hpr. reflexivity.
  - cbn [fmap list_fmap fst]. rewrite fmap_app. cbn [fmap list_fmap fst].
    constructor.
    + apply sorted_snoc; [exact Hs|].
      eapply Forall_impl; [exact Hb|]. intros s Hs'. cbv beta in *. lia.
    + apply Forall_app. split.
      * eapply Forall_impl; [exact Hb|]. intros s Hs'. cbv beta in *. lia.
      * repeat constructor. lia.
Qed.

Lemma batch_progress_witness :
  ∃ events output_files,
    predict_with_model (λ _, true) (λ q, q) String.app
      (λ _, true) true (λ _, true) (λ _, true) (λ _, true) (λ _ _ _, true)
      {| input_audio := ["a"; "b"]%string; output_folder := "out/";
         vocals_only := true; callback_callable := true |}
    = (events, Returns (Some output_files))
    ∧ progress events
      = [(0, 6); (0, 6); (1, 6); (2, 6); (3, 6); (3, 6); (4, 6); (5, 6); (6, 6);
         (6, 6)]
    ∧ StronglySorted Z.le (progress events).*1.
Proof.
  apply (batch_progress (λ _, true) (λ q, q) String.app
           (λ _, true) true (λ _, true) (λ _, true) (λ _, true) (λ _ _ _, true)
           {| input_audio := ["a"; "b"]%string; output_folder := "out/";
              vocals_only := true; callback_callable := true |}).
  - repeat constructor.
  - reflexivity.
  - reflexivity.
  - reflexivity.
  - intros step desc total. reflexivity.
  - repeat constructor.
  - repeat constructor.
Defined.

(** X25. When every input exists but [librosa.load] or
    [separate_music_file] raises on one of them (an existing file that
    is not audio, say), every call before it having returned,
    [predict_with_model] raises with it: no list of paths is returned,
    the files of the inputs before that one have been written, and no
    file of that input or of a later one. *)
Theorem failing_input_ends_batch
    (isfile : string → bool) (basename_noext : string → string)
    (path_join : string → string → string)
    (makedirs : string → bool) (load_model : bool)
    (librosa_load separate_music_file sf_write : string → bool)
    (actual_callback : Z → string → Z → bool) (options : Options)
    (before : list string) (p : string) (after : list string) :
  input_audio options = before ++ p :: after →
  Forall (λ q, isfile q = true) (input_audio options) →
  makedirs (output_folder options) = true → load_model = true →
  (callback_callable options = true →
   ∀ step desc total, actual_callback step desc total = true) →
  Forall (λ q, librosa_load q = true ∧ separate_music_file q = true) before →
  Forall (λ out, sf_write out = true)
    (flat_map (λ input_audio,
       map (out_path basename_noext path_join options input_audio)
         (instruments options ++ ["instrum"%string]))
      before) →
  librosa_load p = false ∨ separate_music_file p = false →
  ∃ events,
    predict_with_model isfile basename_noext path_join makedirs load_model
      librosa_load separate_music_file sf_write actual_callback options
    = (events, Raises)
    ∧ written events
      = flat_map (λ input_audio,
           map (out_path basename_noext path_join options input_audio)
             (instruments options ++ ["instrum"%string]))
          before.
Proof.
  intros Hpaths Hall Hmk Hmodel Hcb Hin Hwrite Hfail.
  unfold predict_with_model. rewrite (validate_none _ _ Hall), Hpaths.
  destruct (process_files_raises basename_noext path_join librosa_load
              separate_music_file sf_write actual_callback options
              (Z.of_nat (length (before ++ p :: after)) * 3) 0 before p after
              Hcb Hin Hwrite Hfail) as (ev & E & Hwr).
  unfold call. rewrite Hmk, Hmodel, E.
  rewrite !(callback_returns _ _ _ _ _ Hcb), !trace_bind_returns.
  cbn [fst snd mbind trace_bind]. eexists. split; [reflexivity|].
  rewrite !written_app, written_told, Hwr.
  unfold written. cbn [omap list_omap app]. reflexivity.
Qed.

Lemma failing_input_ends_batch_witness :
  ∃ events,
    predict_with_model (λ _, true) (λ q, q) String.app
      (λ _, true) true (λ q, String.eqb q "a") (λ _, true) (λ _, true)
      (λ _ _ _, true)
      {| input_audio := ["a"; "b"; "c"]%string; output_folder := "out/";
         vocals_only := true; callback_callable := false |}
    = (events, Raises)
    ∧ written events = ["out/a_vocals.wav"; "out/a_instrum.wav"]%string.
Proof.
  apply (failing_input_ends_batch (λ _, true) (λ q, q) String.app
           (λ _, true) true (λ q, String.eqb q "a") (λ _, true) (λ _, true)
           (λ _ _ _, true)
           {| input_audio := ["a"; "b"; "c"]%string; output_folder := "out/";
              vocals_only := true; callback_callable := false |}
           ["a"%string] "b"%string ["c"%string]).
  - reflexivity.
  - repeat constructor.
  - reflexivity.
  - reflexivity.
  - intros _ step desc total. reflexivity.
  - repeat constructor.
  - repeat constructor.
  - left. reflexivity.
Defined.

(** ** The ensemble of a transform that commutes with rotations *)

Lemma slice_map {A B} (f : A → B) (l : list A) (lo hi : option Z) :
  Py.slice (map f l) lo hi = map f (Py.slice l lo hi).
Proof.
  unfold Py.slice. rewrite length_map.
  now rewrite List.skipn_map, List.firstn_map.
Qed.

Lemma shifted_mix_map1 {A B} (f : A → B) (k : Z) (a : list (list A)) :
  shifted_mix k (Np.map1 f a) = Np.map1 f (shifted_mix k a).
Proof.
  rewrite !shifted_mix_rows. unfold Np.map1. rewrite !map_map.
  apply map_ext. intros row. now rewrite !slice_map, map_app.
Qed.

Lemma map2_diag {A B C} (f : B → A → C) (g : A → B) (a : list (list A)) :
  Np.map2 f (Np.map1 g a) a = Np.map1 (λ x, f (g x) x) a.
Proof.
  unfold Np.map2, Np.map1. induction a as [|row a IH]; [reflexivity|].
  cbn. f_equal; [|exact IH].
  induction row as [|x row IHr]; [reflexivity|]. cbn. now rewrite IHr.
Qed.

Lemma map1_ext {A B} (f g : A → B) (a : list (list A)) :
  (∀ x, f x = g x) → Np.map1 f a = Np.map1 g a.
Proof.
  intros Hfg. unfold Np.map1. apply map_ext. intros row. now apply map_ext.
Qed.

Lemma foldl_add_replicate (r : list (list Fl)) (m j : nat) :
  foldl (Np.map2 fl_add) (Np.map1 (fmap (λ v, (v * INR (S j))%R)) r) (replicate m r)
  = Np.map1 (fmap (λ v, (v * INR (S j + m))%R)) r.
Proof.
  revert j. induction m as [|m IH]; intros j.
  - cbn [replicate foldl]. now rewrite Nat.add_0_r.
  - cbn [replicate foldl]. rewrite map2_diag.
    assert (Hstep :
      Np.map1 (λ x : Fl, fl_add ((λ v, (v * INR (S j))%R) <$> x) x) r
      = Np.map1 (fmap (λ v, (v * INR (S (S j)))%R)) r).
    { apply map1_ext. intros [v|]; [|reflexivity].
      change (Some (v * INR (S j) + v)%R = Some (v * INR (S (S j)))%R).
      f_equal. rewrite (S_INR (S j)). lra. }
    rewrite Hstep, IH.
    replace (S j + S m)%nat with (S (S j) + m)%nat by lia. reflexivity.
Qed.

(** The mean of [n] copies of an array is the array. *)
Lemma mean_replicate (r : list (list Fl)) (n : nat) :
  (0 < n)%nat → Np.mean (replicate n r) = Some r.
Proof.
  intros Hn. destruct n as [|m]; [lia|].
  unfold Np.mean. cbn [replicate].
  assert (Hall : forallb (λ r', bool_decide (Np.shape r' = Np.shape r))
                   (replicate m r) = true).
  { clear. induction m as [|m IH]; [reflexivity|]. cbn [replicate forallb].
    rewrite IH. now rewrite bool_decide_eq_true_2. }
  rewrite Hall. f_equal.
  pose proof (foldl_add_replicate r m 0) as Hf.
  rewrite (map1_ext _ (λ x, x)) in Hf by (intros [v|]; cbn; [f_equal; lra|reflexivity]).
  unfold Np.map1 at 1 in Hf. rewrite (map_ext _ (λ row, row)) in Hf
    by (intros row; apply map_id).
  rewrite map_id in Hf. rewrite Hf.
  rewrite map1_map1. rewrite <- (map_id r) at 2.
  unfold Np.map1. apply map_ext. intros row. rewrite <- (map_id row) at 2.
  apply map_ext. intros [v|]; [|reflexivity].
  unfold fl_div_count. cbn [fmap option_fmap option_map]. f_equal.
  change (length (r :: replicate m r)) with (S (length (replicate m r))).
  rewrite length_replicate, <- INR_IZR_INZ.
  change (1 + m)%nat with (S m).
  field. apply not_0_INR. lia.
Qed.

Lemma mapM_const {A B} (f : A → option B) (l : list A) (r : B) :
  (∀ x, x ∈ l → f x = Some r) → mapM f l = Some (replicate (length l) r).
Proof.
  induction l as [|x l IH]; intros Hf; [reflexivity|].
  cbn. rewrite (Hf x) by (left). cbn.
  rewrite IH by (intros y Hy; apply Hf; now right). reflexivity.
Qed.

Lemma shifts_nonneg {A} (mix : list (list A)) (bigshifts : Z) :
  Forall (λ shift, 0 ≤ shift) (shifts mix bigshifts).
Proof.
  unfold shifts. apply Forall_forall. intros shift Hin.
  apply list_elem_of_fmap in Hin as (x & -> & Hx).
  apply elem_of_seqZ in Hx.
  pose proof (shape1_nonneg mix) as HN.
  assert (0 ≤ Np.shape1 mix / (if bigshifts <=? 0 then 1 else bigshifts)).
  { apply Z.div_pos; [exact HN|]. destruct (Z.leb_spec bigshifts 0); lia. }
  nia.
Qed.

(** X20. If the inner transform commutes with every rotation of its
    input, each pass of [demix_wrapper] restores the estimate of the
    unrotated mix, and the ensemble is that estimate times the volume
    compensation, for every shift count. *)
Theorem shift_ensemble_of_equivariant
    (demix : list (list R) → Q → option (list (list Fl)))
    (mix : list (list R)) (overlap : Q) (bigshifts : Z) (sources : list (list Fl)) :
  (∀ shift x, 0 ≤ shift →
     demix (shifted_mix shift x) overlap = shifted_mix shift <$> demix x overlap) →
  demix mix overlap = Some sources →
  demix_wrapper demix mix overlap bigshifts
  = Some (Np.map1 (fl_scale 1.021) sources).
Proof.
  intros Heq Hs. unfold demix_wrapper.
  rewrite (mapM_const _ _ (Np.map1 (fl_scale 1.021) sources)).
  - cbn [mbind option_bind]. apply mean_replicate.
    destruct (shifts_head mix bigshifts) as (rest & ->). cbn. lia.
  - intros shift Hin.
    pose proof (proj1 (Forall_forall _ _) (shifts_nonneg mix bigshifts) shift Hin)
      as Hk. cbv beta in Hk.
    rewrite Heq by exact Hk. rewrite Hs.
    cbn [fmap option_fmap option_map mbind option_bind]. f_equal.
    rewrite <- shifted_mix_map1. now apply restored_shifted.
Qed.

Lemma shift_ensemble_of_equivariant_witness :
  demix_wrapper (λ x _, Some (Np.map1 Some x)) [[1; 2; 3]; [4; 5; 6]]%R (1 # 10) 3
  = Some (Np.map1 (fl_scale 1.021) (Np.map1 Some [[1; 2; 3]; [4; 5; 6]]%R)).
Proof.
  apply (shift_ensemble_of_equivariant (λ x _, Some (Np.map1 Some x))
           [[1; 2; 3]; [4; 5; 6]]%R (1 # 10) 3).
  - intros shift x _. cbn. f_equal. symmetry. apply shifted_mix_map1.
  - reflexivity.
Defined.

(** X21. The same for the two ensemblers that read their estimates from
    a dictionary: if the entries they read commute with every rotation
    of the input, [demix_full_mdx23c] returns the "Vocals" of the
    unrotated mix times 1.0005168 and [demix_full_vitlarge] returns its
    "vocals" times 1.002 and its "other" unchanged, for every shift
    count. *)
Theorem dictionary_ensembles_of_equivariant
    (demix_base_mdxv3 demix_vitlarge : list (list R) → gmap string (list (list Fl)))
    (mix : list (list R)) (big_shifts : Z) (sources vocals other : list (list Fl)) :
  (∀ shift x, 0 ≤ shift →
     demix_base_mdxv3 (shifted_mix shift x) !! "Vocals"%string
     = shifted_mix shift <$> demix_base_mdxv3 x !! "Vocals"%string) →
  (∀ shift x k, 0 ≤ shift →
     demix_vitlarge (shifted_mix shift x) !! k
     = shifted_mix shift <$> demix_vitlarge x !! k) →
  demix_base_mdxv3 mix !! "Vocals"%string = Some sources →
  demix_vitlarge mix !! "vocals"%string = Some vocals →
  demix_vitlarge mix !! "other"%string = Some other →
  demix_full_mdx23c demix_base_mdxv3 big_shifts mix
  = Some (Np.map1 (fl_scale 1.0005168) sources)
  ∧ demix_full_vitlarge demix_vitlarge big_shifts mix
    = Some (Np.map1 (fl_scale 1.002) vocals, other).
Proof.
  intros Hm Hv Hs Hvoc Hoth.
  assert (Hn : (0 < length (shifts mix big_shifts))%nat).
  { destruct (shifts_head mix big_shifts) as (rest & ->). cbn. lia. }
  split.
  - unfold demix_full_mdx23c.
    rewrite (mapM_const _ _ (Np.map1 (fl_scale 1.0005168) sources)).
    + cbn [mbind option_bind]. now apply mean_replicate.
    + intros shift Hin.
      pose proof (proj1 (Forall_forall _ _) (shifts_nonneg mix big_shifts) shift Hin)
        as Hk. cbv beta in Hk.
      rewrite Hm by exact Hk. rewrite Hs.
      cbn [fmap option_fmap option_map mbind option_bind]. f_equal.
      rewrite <- shifted_mix_map1. now apply restored_shifted.
  - unfold demix_full_vitlarge.
    rewrite (mapM_const _ _ (Np.map1 (fl_scale 1.002) vocals, other)).
    + cbn [mbind option_bind]. rewrite !fmap_replicate. cbn [fst snd].
      rewrite !mean_replicate by exact Hn. reflexivity.
    + intros shift Hin.
      pose proof (proj1 (Forall_forall _ _) (shifts_nonneg mix big_shifts) shift Hin)
        as Hk. cbv beta in Hk.
      rewrite !Hv by exact Hk. rewrite Hvoc, Hoth.
      cbn [fmap option_fmap option_map mbind option_bind]. f_equal.
      rewrite <- shifted_mix_map1. now rewrite !restored_shifted.
Qed.

Lemma dictionary_ensembles_of_equivariant_witness :
  demix_full_mdx23c (λ x, {["Vocals"%string := Np.map1 Some x]}) 3
    [[1; 2; 3]; [4; 5; 6]]%R
  = Some (Np.map1 (fl_scale 1.0005168) (Np.map1 Some [[1; 2; 3]; [4; 5; 6]]%R))
  ∧ demix_full_vitlarge
      (λ x, <["vocals"%string := Np.map1 Some x]>
              {["other"%string := Np.map1 Some x]}) 3
      [[1; 2; 3]; [4; 5; 6]]%R
    = Some (Np.map1 (fl_scale 1.002) (Np.map1 Some [[1; 2; 3]; [4; 5; 6]]%R),
            Np.map1 Some [[1; 2; 3]; [4; 5; 6]]%R).
Proof.
  apply (dictionary_ensembles_of_equivariant
           (λ x, {["Vocals"%string := Np.map1 Some x]})
           (λ x, <["vocals"%string := Np.map1 Some x]>
                   {["other"%string := Np.map1 Some x]})
           [[1; 2; 3]; [4; 5; 6]]%R 3).
  - intros shift x _. rewrite !lookup_singleton_eq. cbn. f_equal.
    symmetry. apply shifted_mix_map1.
  - intros shift x k _. rewrite !lookup_insert, !lookup_singleton.
    repeat case_decide; cbn; try reflexivity; f_equal; symmetry;
      apply shifted_mix_map1.
  - apply lookup_singleton_eq.
  - apply lookup_insert_eq.
  - rewrite lookup_insert_ne by done. apply lookup_singleton_eq.
Defined.

(** X22. A model with a single target makes [demix_base_mdxv3] return
    the array itself, not a dictionary, so the ensembler's ["Vocals"]
    lookup fails on its first pass.  An exception inside
    [demix_base_mdxv3] passes through the ensembler as well; the
    empty dictionary stands for both. *)
Theorem demix_full_mdx23c_single_target
    (model : list (list R) → list (list (list R))) (config : Config.t)
    (num_target_instruments overlap_InstVoc big_shifts : Z) (mix : list (list R)) :
  num_target_instruments ≤ 1 →
  demix_full_mdx23c
    (λ mix, match demix_base_mdxv3 model config num_target_instruments
                    overlap_InstVoc mix with
            | Some (inl sources) => Np.map1 Some <$> sources
            | _ => ∅
            end)
    big_shifts mix
  = None.
Proof.
  intros HS. unfold demix_full_mdx23c.
  destruct (shifts_head mix big_shifts) as (rest & ->).
  cbn [mapM].
  cbv beta.
  match goal with
  | |- context [?d !! "Vocals"%string ≫= _] =>
      assert (Hnone : d !! "Vocals"%string = None)
  end.
  { unfold demix_base_mdxv3.
    destruct (Z.ltb_spec 1 num_target_instruments) as [|_]; [lia|].
    destruct (overlap_InstVoc =? 0); [apply lookup_empty|].
    destruct (_ =? 0); [apply lookup_empty|].
    destruct (_ || _); [apply lookup_empty|].
    destruct (_ || _); [apply lookup_empty|].
    destruct (foldl _ _ _) as [xx cnt].
    destruct (head _); apply lookup_empty. }
  rewrite Hnone. reflexivity.
Qed.

Lemma demix_full_mdx23c_single_target_witness :
  demix_full_mdx23c
    (λ mix, match demix_base_mdxv3 (identity_network 1)
                    {| Config.audio_hop_length := 1; Config.inference_dim_t := 2;
                       Config.training_target_instrument := Some "Vocals"%string;
                       Config.training_instruments := ["Vocals"]%string |}
                    1 1 mix with
            | Some (inl sources) => Np.map1 Some <$> sources
            | _ => ∅
            end)
    7 [[1; 2]; [3; 4]]%R
  = None.
Proof.
  apply (demix_full_mdx23c_single_target (identity_network 1)
           {| Config.audio_hop_length := 1; Config.inference_dim_t := 2;
              Config.training_target_instrument := Some "Vocals"%string;
              Config.training_instruments := ["Vocals"]%string |}
           1 1 7 [[1; 2]; [3; 4]]%R).
  lia.
Defined.

(** ** The Demucs stems *)

#[local] Open Scope R_scope.

(** X23. Bringing the six stems of [htdemucs_6s] to four loses nothing:
    drums, bass and vocals are kept, the guitar and the piano go into
    "other", and the four stems add up to what the six added up to. *)
Theorem out_6s_keeps_sum (drums bass other vocals guitar piano : list (list R)) :
  Np.shape bass = Np.shape drums → Np.shape other = Np.shape drums →
  Np.shape vocals = Np.shape drums → Np.shape guitar = Np.shape drums →
  Np.shape piano = Np.shape drums →
  ∃ other',
    out_6s [drums; bass; other; vocals; guitar; piano]
    = Some [drums; bass; other'; vocals]
    ∧ (drums + bass + other' + vocals
       = drums + bass + other + vocals + guitar + piano)%arr.
Proof.
  intros Hb Ho Hv Hg Hp. exists (other + guitar + piano)%arr.
  split; [reflexivity|].
  apply arr_ext; [shape_tac|]. intros i j.
  destruct (at2_same_shape drums bass i j Hb) as [(d & b & Hd & Hb')|[Hd Hb']];
    destruct (at2_same_shape drums other i j Ho) as [(d1 & o & Hd1 & Ho')|[Hd1 Ho']];
    destruct (at2_same_shape drums vocals i j Hv) as [(d2 & v & Hd2 & Hv')|[Hd2 Hv']];
    destruct (at2_same_shape drums guitar i j Hg) as [(d3 & g & Hd3 & Hg')|[Hd3 Hg']];
    destruct (at2_same_shape drums piano i j Hp) as [(d4 & p & Hd4 & Hp')|[Hd4 Hp']];
    try congruence; at2_tac; rewrite ?Hd, ?Hb', ?Ho', ?Hv', ?Hg', ?Hp';
    cbn; try reflexivity.
  f_equal. lra.
Qed.

Lemma out_6s_keeps_sum_witness :
  ∃ other',
    out_6s [[[1]]; [[2]]; [[3]]; [[4]]; [[5]]; [[6]]]
    = Some [[[1]]; [[2]]; other'; [[4]]]
    ∧ ([[1]] + [[2]] + other' + [[4]]
       = [[1]] + [[2]] + [[3]] + [[4]] + [[5]] + [[6]])%arr.
Proof.
  apply (out_6s_keeps_sum [[1]] [[2]] [[3]] [[4]] [[5]] [[6]]); reflexivity.
Defined.

Lemma clip_bounds (x : R) : -1 <= Rmin (Rmax x (-1)) 1 <= 1.
Proof.
  split.
  - apply Rmin_glb; [apply Rmax_r|lra].
  - apply Rmin_r.
Qed.

(** X24. The residual that the refinement blends into a stem is clipped
    to [-1, 1], so a refined stem, as it stands before the final pass
    replaces it, never leaves the band around its share of the
    ensemble estimate: "other" stays within 2/3 of a third of its
    estimate, "drums" and "bass" within 1/3 of two thirds of theirs,
    whatever the mix and the vocals. *)
Theorem residual_refinement_bounded
    (mix vocals out0 out1 out2 : list (list R)) (rest : list (list (list R)))
    (sma : gmap string (list (list R))) :
  ∃ other drums bass,
    residual_refinement mix vocals (out0 :: out1 :: out2 :: rest) sma
    = Some (<["bass"%string := bass]>
              (<["drums"%string := drums]> (<["other"%string := other]> sma)))
    ∧ (∀ i j x, Arr.at2 other i j = Some x →
         ∃ o, Arr.at2 (Arr.T out2) i j = Some o ∧ Rabs (x - o / 3) <= 2 / 3)
    ∧ (∀ i j x, Arr.at2 drums i j = Some x →
         ∃ o, Arr.at2 (Arr.T out0) i j = Some o ∧ Rabs (x - 2 * o / 3) <= 1 / 3)
    ∧ (∀ i j x, Arr.at2 bass i j = Some x →
         ∃ o, Arr.at2 (Arr.T out1) i j = Some o ∧ Rabs (x - 2 * o / 3) <= 1 / 3).
Proof.
  unfold residual_refinement. cbn [lookup list_lookup mbind option_bind].
  eexists _, _, _. split; [reflexivity|].
  split; [|split]; intros i j x Hx;
    unfold Arr.add, Arr.sub, Arr.scale, Arr.div, Arr.clip in Hx;
    repeat first [rewrite at2_map1 in Hx | rewrite at2_map2 in Hx];
    repeat match type of Hx with
           | context [Arr.at2 ?a i j] =>
               destruct (Arr.at2 a i j) as [?|];
               cbn [mbind option_bind fmap option_fmap option_map] in Hx;
               [|discriminate Hx]
           end;
    injection Hx as <-; eexists; (split; [reflexivity|]);
    match goal with
    | |- context [Rmin (Rmax ?r _) _] => pose proof (clip_bounds r) as Hc
    end;
    apply Rabs_le; lra.
Qed.

#[local] Close Scope R_scope.
